(** * protoc-gen-solidity: a shallow embedding of the generator

    The plugin turns protobuf descriptors into Solidity text.  This file
    embeds, function by function,

    - [src/generator/type-map.ts]: the wire types, [PROTO_TYPE_MAP],
      [resolveSolType] and [fieldTag];
    - [src/util/names.ts]: [protoNameToSol], [snakeToCamel],
      [codecLibName], [protoFileToSolFile];
    - [src/generator/field.ts]: the per-field emitters;
    - [src/plugin.ts]: [convertDescriptor], [extractMessages],
      [processRequest], [runPlugin];
    - [sol/ProtobufRuntime.sol]: the primitives the emitted code calls.

    JavaScript numbers that reach a bitwise operator are 32-bit signed
    integers; they are modelled as [Z] with the wrap-around written out.
    Strings are [string]; a thrown exception is the [Throw] case of
    [result]. *)

From Stdlib Require Import ZArith String Ascii List Bool Lia.
From Stdlib Require Import DecimalString HexadecimalString.
Import ListNotations.

Set Warnings "-register-all".

Open Scope Z_scope.
Open Scope string_scope.

(* ================================================================== *)
(** * Part I: definitions                                              *)
(* ================================================================== *)

(** ** JavaScript values *)

Module Js.

(** An exception object: both kinds met in this program carry a message. *)
Inductive exn : Type :=
| Error (message : string)
| TypeError (message : string).

Definition message (e : exn) : string :=
  match e with
  | Error m => m
  | TypeError m => m
  end.

(** A computation that returns or throws. *)
Inductive result (A : Type) : Type :=
| Ok (a : A)
| Throw (e : exn).

Arguments Ok {A} a.
Arguments Throw {A} e.

Definition bind {A B : Type} (r : result A) (k : A -> result B) : result B :=
  match r with
  | Ok a => k a
  | Throw e => Throw e
  end.

Definition returned {A : Type} (r : result A) : bool :=
  match r with
  | Ok _ => true
  | Throw _ => false
  end.

(** [ToInt32]: the value modulo 2^32, read as a signed 32-bit integer. *)
Definition toInt32 (z : Z) : Z := (z + 2 ^ 31) mod 2 ^ 32 - 2 ^ 31.

(** [a << b], [a >> b], [a | b], [a & b] on numbers. *)
Definition shl (a b : Z) : Z := toInt32 (Z.shiftl (toInt32 a) (Z.land b 31)).
Definition sar (a b : Z) : Z := Z.shiftr (toInt32 a) (Z.land b 31).
Definition or (a b : Z) : Z := Z.lor (toInt32 a) (toInt32 b).
Definition and (a b : Z) : Z := Z.land (toInt32 a) (toInt32 b).

(** [String(n)] and [n.toString(16)] for an integral number. *)
Definition toString (n : Z) : string :=
  DecimalString.NilZero.string_of_int (Z.to_int n).
Definition toString16 (n : Z) : string :=
  HexadecimalString.NilZero.string_of_int (Z.to_hex_int n).

(** Truthiness of a [string | undefined]. *)
Definition truthy (s : option string) : bool :=
  match s with
  | Some (String _ _) => true
  | _ => false
  end.

(** [x ?? d]. *)
Definition orElse {A : Type} (x : option A) (d : A) : A :=
  match x with
  | Some a => a
  | None => d
  end.

(** [s.split(re)] for a separator that is one character of a class:
    the result is never empty. *)
Fixpoint splitBy (isSep : ascii -> bool) (s : string) : list string :=
  match s with
  | EmptyString => [EmptyString]
  | String c rest =>
      if isSep c then EmptyString :: splitBy isSep rest
      else match splitBy isSep rest with
           | h :: t => String c h :: t
           | [] => [String c EmptyString]
           end
  end.

(** [s.split(sep)] for a one-character separator. *)
Definition split (sep : ascii) (s : string) : list string :=
  splitBy (fun c => Ascii.eqb c sep) s.

(** [s.replace(/suffix$/, "")] for a literal suffix. *)
Fixpoint stripSuffix (suffix s : string) : string :=
  if String.eqb s suffix then EmptyString
  else match s with
       | EmptyString => EmptyString
       | String c rest => String c (stripSuffix suffix rest)
       end.

(** [lines.join(sep)]. *)
Definition join (sep : string) (lines : list string) : string :=
  String.concat sep lines.

End Js.

Notation "x <- c1 ;; c2" := (Js.bind c1 (fun x => c2))
  (at level 61, c1 at next level, right associativity).

(** The characters the templates need and a literal cannot hold. *)
Definition nl : string := String (ascii_of_nat 10) EmptyString.
Definition dq : string := String (ascii_of_nat 34) EmptyString.

(** ** [type-map.ts] *)

Inductive WireType : Type :=
| Varint
| Fixed64
| LengthDelimited
| Fixed32.

(** The numeric value of each member of the [const enum]. *)
Definition wireCode (w : WireType) : Z :=
  match w with
  | Varint => 0
  | Fixed64 => 1
  | LengthDelimited => 2
  | Fixed32 => 5
  end.

Record SolTypeInfo : Type := mkInfo {
  solType : string;
  wireType : WireType;
  encodeFunc : string;
  decodeFunc : string;
  defaultValue : string
}.

Definition PROTO_TYPE_MAP (fieldType : Z) : option SolTypeInfo :=
  match fieldType with
  | 1 => Some (mkInfo "int64" Fixed64 "_encode_fixed64" "_decode_fixed64" "0")
  | 2 => Some (mkInfo "int32" Fixed32 "_encode_fixed32" "_decode_fixed32" "0")
  | 3 => Some (mkInfo "int64" Varint "_encode_varint" "_decode_varint" "0")
  | 4 => Some (mkInfo "uint64" Varint "_encode_varint" "_decode_varint" "0")
  | 5 => Some (mkInfo "int32" Varint "_encode_varint" "_decode_varint" "0")
  | 6 => Some (mkInfo "uint64" Fixed64 "_encode_fixed64" "_decode_fixed64" "0")
  | 7 => Some (mkInfo "uint32" Fixed32 "_encode_fixed32" "_decode_fixed32" "0")
  | 8 => Some (mkInfo "bool" Varint "_encode_bool" "_decode_bool" "false")
  | 9 => Some (mkInfo "string" LengthDelimited "_encode_string" "_decode_string"
                 (dq ++ dq))
  | 11 => Some (mkInfo "" LengthDelimited "" "" "")
  | 12 => Some (mkInfo "bytes" LengthDelimited "_encode_bytes" "_decode_bytes"
                  (dq ++ dq))
  | 13 => Some (mkInfo "uint32" Varint "_encode_varint" "_decode_varint" "0")
  | 14 => Some (mkInfo "uint64" Varint "_encode_varint" "_decode_varint" "0")
  | 15 => Some (mkInfo "int32" Fixed32 "_encode_sfixed32" "_decode_sfixed32" "0")
  | 16 => Some (mkInfo "int64" Fixed64 "_encode_sfixed64" "_decode_sfixed64" "0")
  | 17 => Some (mkInfo "int32" Varint "_encode_zigzag32" "_decode_zigzag32" "0")
  | 18 => Some (mkInfo "int64" Varint "_encode_zigzag64" "_decode_zigzag64" "0")
  | _ => None
  end.

(** [typeName.replace(/^\./, "")]. *)
Definition stripLeadingDot (s : string) : string :=
  match s with
  | String "." rest => rest
  | _ => s
  end.

Definition resolveSolType (fieldType : Z) (typeName : option string)
  : Js.result string :=
  if (fieldType =? 11)%Z && Js.truthy typeName then
    let parts := Js.split "." (stripLeadingDot (Js.orElse typeName "")) in
    Js.Ok (last parts "")
  else
    match PROTO_TYPE_MAP fieldType with
    | None =>
        Js.Throw (Js.Error ("Unsupported protobuf field type: "
                            ++ Js.toString fieldType))
    | Some info => Js.Ok (solType info)
    end.

Definition fieldTag (fieldNumber : Z) (wireType : WireType) : Z :=
  Js.or (Js.shl fieldNumber 3) (wireCode wireType).

(** The last dot-separated segment of a name, read off the name itself
    for comparison with [resolveSolType]: characters are dropped from the
    front for as long as a dot remains. *)
Fixpoint hasDot (s : string) : bool :=
  match s with
  | EmptyString => false
  | String c rest => Ascii.eqb c "." || hasDot rest
  end.

Fixpoint lastSegment (s : string) : string :=
  match s with
  | EmptyString => EmptyString
  | String c rest => if hasDot s then lastSegment rest else s
  end.

(** The Solidity type a supported field type resolves to: the referenced
    message's local name, or the table's type. *)
Definition resolvedType (fieldType : Z) (typeName : option string)
  (info : SolTypeInfo) : string :=
  if (fieldType =? 11)%Z then lastSegment (Js.orElse typeName "")
  else solType info.

(** The codec a message-typed element or map value is delegated to; a
    primitive has none. *)
Definition nestedCodecOf (fieldType : Z) (typeName : option string)
  : option string :=
  if (fieldType =? 11)%Z
  then Some (lastSegment (Js.orElse typeName "") ++ "Codec")
  else None.

(** ** [names.ts] *)

Definition isLower (c : ascii) : bool :=
  (97 <=? nat_of_ascii c)%nat && (nat_of_ascii c <=? 122)%nat.

(** [c.toUpperCase()] for one character; only ASCII letters change. *)
Definition toUpperCase (c : ascii) : ascii :=
  if isLower c then ascii_of_nat (nat_of_ascii c - 32) else c.

(** [name.replace(/_([a-z])/g, (_, c) => c.toUpperCase())]: the scan goes
    left to right; a match consumes the underscore and the letter. *)
Fixpoint snakeToCamel (name : string) : string :=
  match name with
  | EmptyString => EmptyString
  | String c rest =>
      if Ascii.eqb c "_" then
        match rest with
        | String d rest' =>
            if isLower d then String (toUpperCase d) (snakeToCamel rest')
            else String c (snakeToCamel rest)
        | EmptyString => String c EmptyString
        end
      else String c (snakeToCamel rest)
  end.

Definition codecLibName (messageName : string) : string :=
  messageName ++ "Codec".

(** The same conversion read position by position, for comparison with
    the scan: the character at a position is dropped when it is an
    underscore followed by a lowercase letter, uppercased when it is a
    lowercase letter preceded by an underscore, and copied otherwise. *)
Definition isUnderscore (c : option ascii) : bool :=
  match c with
  | Some c => Ascii.eqb c "_"
  | None => false
  end.

Definition isLowerAt (c : option ascii) : bool :=
  match c with
  | Some c => isLower c
  | None => false
  end.

Definition firstChar (s : string) : option ascii :=
  match s with
  | EmptyString => None
  | String c _ => Some c
  end.

Definition camelChar (prev : option ascii) (c : ascii) (next : option ascii)
  : string :=
  if Ascii.eqb c "_" && isLowerAt next then EmptyString
  else if isLower c && isUnderscore prev
       then String (ascii_of_nat (nat_of_ascii c - 32)) EmptyString
       else String c EmptyString.

Fixpoint camelFrom (prev : option ascii) (s : string) : string :=
  match s with
  | EmptyString => EmptyString
  | String c rest =>
      camelChar prev c (firstChar rest) ++ camelFrom (Some c) rest
  end.

(** ** [field.ts] *)

Record MapEntry : Type := mkMapEntry {
  keyType : Z;
  valueType : Z;
  valueTypeName : option string
}.

(** Parsed field descriptor subset needed for codegen.
    [label]: 1 = optional, 2 = required, 3 = repeated. *)
Record FieldInfo : Type := mkField {
  name : string;
  number : Z;
  type : Z;
  typeName : option string;
  label : Z;
  oneofIndex : option Z;
  mapEntry : option MapEntry
}.

Definition isRepeated (field : FieldInfo) : bool := (label field =? 3)%Z.

Definition isMessage (field : FieldInfo) : bool := (type field =? 11)%Z.

(** Reading a property of [undefined]. *)
Definition undefinedRead {A : Type} (prop : string) : Js.result A :=
  Js.Throw (Js.TypeError
    ("Cannot read properties of undefined (reading '" ++ prop ++ "')")).

Definition genStructMember (field : FieldInfo) : Js.result string :=
  let solName := snakeToCamel (name field) in
  solType <- resolveSolType (type field) (typeName field) ;;
  match mapEntry field with
  | Some me =>
      keyType <- resolveSolType (keyType me) None ;;
      valType <- resolveSolType (valueType me) (valueTypeName me) ;;
      Js.Ok (Js.join nl
        [ "    " ++ keyType ++ "[] " ++ solName ++ "_keys;";
          "    " ++ valType ++ "[] " ++ solName ++ "_values;" ])
  | None =>
      let solType := if isRepeated field then solType ++ "[]" else solType in
      Js.Ok ("    " ++ solType ++ " " ++ solName ++ ";")
  end.

Definition genScalarEncode (solName : string) (typeInfo : SolTypeInfo)
  (tagHex : string) : string :=
  Js.join nl
    [ "    buf = abi.encodePacked(buf, ProtobufRuntime._encode_key("
        ++ tagHex ++ "));";
      "    buf = abi.encodePacked(buf, ProtobufRuntime."
        ++ encodeFunc typeInfo ++ "(msg." ++ solName ++ "));" ].

Definition genMessageEncode (field : FieldInfo) (solName tagHex : string)
  : Js.result string :=
  resolved <- resolveSolType (type field) (typeName field) ;;
  let nestedCodec := codecLibName resolved in
  Js.Ok (Js.join nl
    [ "    buf = abi.encodePacked(buf, ProtobufRuntime._encode_key("
        ++ tagHex ++ "));";
      "    bytes memory " ++ solName ++ "_encoded = " ++ nestedCodec
        ++ ".encode(msg." ++ solName ++ ");";
      "    buf = abi.encodePacked(buf, ProtobufRuntime._encode_varint(uint64("
        ++ solName ++ "_encoded.length)));";
      "    buf = abi.encodePacked(buf, " ++ solName ++ "_encoded);" ]).

Definition genRepeatedEncode (field : FieldInfo) (solName : string)
  (typeInfo : SolTypeInfo) (tagHex : string) : Js.result string :=
  let loopVar := "_i_" ++ solName in
  let lines :=
    [ "    for (uint256 " ++ loopVar ++ " = 0; " ++ loopVar ++ " < msg."
        ++ solName ++ ".length; " ++ loopVar ++ "++) {";
      "      buf = abi.encodePacked(buf, ProtobufRuntime._encode_key("
        ++ tagHex ++ "));" ] in
  pushed <-
    (if isMessage field then
       resolved <- resolveSolType (type field) (typeName field) ;;
       let nestedCodec := codecLibName resolved in
       Js.Ok
         [ "      bytes memory _elem = " ++ nestedCodec ++ ".encode(msg."
             ++ solName ++ "[" ++ loopVar ++ "]);";
           "      buf = abi.encodePacked(buf, ProtobufRuntime._encode_varint(uint64(_elem.length)));";
           "      buf = abi.encodePacked(buf, _elem);" ]
     else
       Js.Ok
         [ "      buf = abi.encodePacked(buf, ProtobufRuntime."
             ++ encodeFunc typeInfo ++ "(msg." ++ solName ++ "["
             ++ loopVar ++ "]));" ]) ;;
  Js.Ok (Js.join nl (List.app lines (List.app pushed [ "    }" ]))).

Definition genMapEncode (field : FieldInfo) (tagHex : string)
  : Js.result string :=
  let solName := snakeToCamel (name field) in
  let loopVar := "_i_" ++ solName in
  match mapEntry field with
  | None => undefinedRead "keyType"
  | Some me =>
      let keyInfo := PROTO_TYPE_MAP (keyType me) in
      let valInfo := PROTO_TYPE_MAP (valueType me) in
      match keyInfo with
      | None => undefinedRead "wireType"
      | Some keyInfo =>
          let lines :=
            [ "    for (uint256 " ++ loopVar ++ " = 0; " ++ loopVar
                ++ " < msg." ++ solName ++ "_keys.length; " ++ loopVar
                ++ "++) {";
              "      bytes memory _entry = " ++ dq ++ dq ++ ";";
              "      _entry = abi.encodePacked(_entry, ProtobufRuntime._encode_key("
                ++ Js.toString (fieldTag 1 (wireType keyInfo)) ++ "));";
              "      _entry = abi.encodePacked(_entry, ProtobufRuntime."
                ++ encodeFunc keyInfo ++ "(msg." ++ solName ++ "_keys["
                ++ loopVar ++ "]));" ] in
          pushed <-
            (if (valueType me =? 11)%Z then
               resolved <- resolveSolType (valueType me) (valueTypeName me) ;;
               let nestedCodec := codecLibName resolved in
               Js.Ok
                 [ "      bytes memory _val = " ++ nestedCodec
                     ++ ".encode(msg." ++ solName ++ "_values[" ++ loopVar
                     ++ "]);";
                   "      _entry = abi.encodePacked(_entry, ProtobufRuntime._encode_key("
                     ++ Js.toString (fieldTag 2 LengthDelimited) ++ "));";
                   "      _entry = abi.encodePacked(_entry, ProtobufRuntime._encode_varint(uint64(_val.length)));";
                   "      _entry = abi.encodePacked(_entry, _val);" ]
             else
               match valInfo with
               | None => undefinedRead "wireType"
               | Some valInfo =>
                   Js.Ok
                     [ "      _entry = abi.encodePacked(_entry, ProtobufRuntime._encode_key("
                         ++ Js.toString (fieldTag 2 (wireType valInfo))
                         ++ "));";
                       "      _entry = abi.encodePacked(_entry, ProtobufRuntime."
                         ++ encodeFunc valInfo ++ "(msg." ++ solName
                         ++ "_values[" ++ loopVar ++ "]));" ]
               end) ;;
          Js.Ok (Js.join nl (List.app lines (List.app pushed
            [ "      buf = abi.encodePacked(buf, ProtobufRuntime._encode_key("
                ++ tagHex ++ "));";
              "      buf = abi.encodePacked(buf, ProtobufRuntime._encode_varint(uint64(_entry.length)));";
              "      buf = abi.encodePacked(buf, _entry);";
              "    }" ])))
      end
  end.

(** The [log.warn] of the unsupported branch writes to stderr only and is
    not part of the returned text. *)
Definition genFieldEncode (field : FieldInfo) : Js.result string :=
  let solName := snakeToCamel (name field) in
  match PROTO_TYPE_MAP (type field) with
  | None =>
      Js.Ok ("    // TODO: unsupported field type " ++ Js.toString (type field)
             ++ " for " ++ name field)
  | Some typeInfo =>
      let tag :=
        fieldTag (number field)
          (match mapEntry field with
           | Some _ => LengthDelimited
           | None => wireType typeInfo
           end) in
      let tagHex := "0x" ++ Js.toString16 tag in
      match mapEntry field with
      | Some _ => genMapEncode field tagHex
      | None =>
          if isRepeated field then
            genRepeatedEncode field solName typeInfo tagHex
          else if isMessage field then
            genMessageEncode field solName tagHex
          else Js.Ok (genScalarEncode solName typeInfo tagHex)
      end
  end.

Definition genScalarDecode (solName : string) (typeInfo : SolTypeInfo)
  (tag : Z) : string :=
  Js.join nl
    [ "        case " ++ Js.toString tag ++ ":";
      "          (msg." ++ solName ++ ", pos) = ProtobufRuntime."
        ++ decodeFunc typeInfo ++ "(data, pos);";
      "          break;" ].

Definition genMessageDecode (field : FieldInfo) (solName : string) (tag : Z)
  : Js.result string :=
  resolved <- resolveSolType (type field) (typeName field) ;;
  let nestedCodec := codecLibName resolved in
  Js.Ok (Js.join nl
    [ "        case " ++ Js.toString tag ++ ":";
      "          {";
      "            uint64 _len;";
      "            (_len, pos) = ProtobufRuntime._decode_varint(data, pos);";
      "            bytes memory _sub = ProtobufRuntime._slice(data, pos, pos + uint256(_len));";
      "            msg." ++ solName ++ " = " ++ nestedCodec ++ ".decode(_sub);";
      "            pos += uint256(_len);";
      "          }";
      "          break;" ]).

Definition genRepeatedDecode (field : FieldInfo) (solName : string)
  (typeInfo : SolTypeInfo) (tag : Z) : Js.result string :=
  if isMessage field then
    resolved <- resolveSolType (type field) (typeName field) ;;
    let nestedCodec := codecLibName resolved in
    Js.Ok (Js.join nl
      [ "        case " ++ Js.toString tag ++ ":";
        "          {";
        "            uint64 _len;";
        "            (_len, pos) = ProtobufRuntime._decode_varint(data, pos);";
        "            bytes memory _sub = ProtobufRuntime._slice(data, pos, pos + uint256(_len));";
        "            msg." ++ solName ++ ".push(" ++ nestedCodec
          ++ ".decode(_sub));";
        "            pos += uint256(_len);";
        "          }";
        "          break;" ])
  else
    elemType <- resolveSolType (type field) (typeName field) ;;
    Js.Ok (Js.join nl
      [ "        case " ++ Js.toString tag ++ ":";
        "          {";
        "            " ++ elemType ++ " _elem;";
        "            (_elem, pos) = ProtobufRuntime." ++ decodeFunc typeInfo
          ++ "(data, pos);";
        "            msg." ++ solName ++ ".push(_elem);";
        "          }";
        "          break;" ]).

Definition genMapDecode (field : FieldInfo) (solName : string) (tag : Z)
  : Js.result string :=
  match mapEntry field with
  | None => undefinedRead "keyType"
  | Some me =>
      let keyInfo := PROTO_TYPE_MAP (keyType me) in
      let valInfo := PROTO_TYPE_MAP (valueType me) in
      keySol <- resolveSolType (keyType me) None ;;
      valSol <- resolveSolType (valueType me) (valueTypeName me) ;;
      match keyInfo with
      | None => undefinedRead "wireType"
      | Some keyInfo =>
          let lines :=
            [ "        case " ++ Js.toString tag ++ ":";
              "          {";
              "            uint64 _entryLen;";
              "            (_entryLen, pos) = ProtobufRuntime._decode_varint(data, pos);";
              "            uint256 _entryEnd = pos + uint256(_entryLen);";
              "            " ++ keySol ++ " _key;";
              "            " ++ valSol ++ " _val;";
              "            while (pos < _entryEnd) {";
              "              uint64 _entryTag;";
              "              (_entryTag, pos) = ProtobufRuntime._decode_key(data, pos);";
              "              if (_entryTag == "
                ++ Js.toString (fieldTag 1 (wireType keyInfo)) ++ ") {";
              "                (_key, pos) = ProtobufRuntime."
                ++ decodeFunc keyInfo ++ "(data, pos);" ] in
          pushed <-
            (if (valueType me =? 11)%Z then
               resolved <- resolveSolType (valueType me) (valueTypeName me) ;;
               let nestedCodec := codecLibName resolved in
               Js.Ok
                 [ "              } else if (_entryTag == "
                     ++ Js.toString (fieldTag 2 LengthDelimited) ++ ") {";
                   "                uint64 _vLen;";
                   "                (_vLen, pos) = ProtobufRuntime._decode_varint(data, pos);";
                   "                bytes memory _vSub = ProtobufRuntime._slice(data, pos, pos + uint256(_vLen));";
                   "                _val = " ++ nestedCodec ++ ".decode(_vSub);";
                   "                pos += uint256(_vLen);" ]
             else
               match valInfo with
               | None => undefinedRead "wireType"
               | Some valInfo =>
                   Js.Ok
                     [ "              } else if (_entryTag == "
                         ++ Js.toString (fieldTag 2 (wireType valInfo))
                         ++ ") {";
                       "                (_val, pos) = ProtobufRuntime."
                         ++ decodeFunc valInfo ++ "(data, pos);" ]
               end) ;;
          Js.Ok (Js.join nl (List.app lines (List.app pushed
            [ "              } else {";
              "                revert(" ++ dq ++ "Unknown map entry tag" ++ dq
                ++ ");";
              "              }";
              "            }";
              "            msg." ++ solName ++ "_keys.push(_key);";
              "            msg." ++ solName ++ "_values.push(_val);";
              "          }";
              "          break;" ])))
      end
  end.

Definition genFieldDecode (field : FieldInfo) : Js.result string :=
  let solName := snakeToCamel (name field) in
  match PROTO_TYPE_MAP (type field) with
  | None =>
      Js.Ok ("      // TODO: unsupported field type "
             ++ Js.toString (type field) ++ " for " ++ name field)
  | Some typeInfo =>
      let tag :=
        fieldTag (number field)
          (match mapEntry field with
           | Some _ => LengthDelimited
           | None => wireType typeInfo
           end) in
      match mapEntry field with
      | Some _ => genMapDecode field solName tag
      | None =>
          if isRepeated field then
            genRepeatedDecode field solName typeInfo tag
          else if isMessage field then
            genMessageDecode field solName tag
          else Js.Ok (genScalarDecode solName typeInfo tag)
      end
  end.

(** Whether the table has a type code, and whether it has the key and the
    value type of a map field (a field that is no map has none to miss). *)
Definition supported (fieldType : Z) : bool :=
  match PROTO_TYPE_MAP fieldType with
  | Some _ => true
  | None => false
  end.

Definition mapSupported (field : FieldInfo) : bool :=
  match mapEntry field with
  | Some me => supported (keyType me) && supported (valueType me)
  | None => true
  end.

(** ** [ProtobufRuntime.sol]

    The primitives the emitted code needs for tags and lengths.  [bytes
    memory data] is read through [mload], which does not stop at the end
    of the array: the input is its length together with the bytes found
    at each offset.  A [None] result is a revert.  Positions are [nat]:
    the 256-bit overflow of [pos] is not modelled. *)

Module Runtime.

Record Memory : Type := mkMemory {
  dataLength : nat;
  byteAt : nat -> Z
}.

Definition ofList (l : list Z) : Memory :=
  {| dataLength := List.length l; byteAt := fun i => nth i l 0 |}.

(** The [for {} 1 {}] loop of [_decode_varint]: it leaves by [break] or by
    [revert] within ten bytes.  [result] is a 256-bit word: the tenth byte
    is shifted by 63, so its payload reaches bits 63 to 69. *)
Fixpoint decodeVarintLoop (fuel : nat) (data : Memory) (ptr : nat)
  (result shift : Z) : option (Z * nat) :=
  match fuel with
  | O => None
  | S fuel' =>
      let b := byteAt data ptr in
      let result := Z.lor result (Z.shiftl (Z.land b 127) shift) in
      let ptr := S ptr in
      let shift := shift + 7 in
      if (Z.land b 128 =? 0)%Z then Some (result, ptr)
      else if (shift >? 63)%Z then None
      else decodeVarintLoop fuel' data ptr result shift
  end.

(** [value := result]: the word the assembly block leaves in the return
    variable, with whatever the tenth byte put above bit 63. *)
Definition decodeVarintWord (data : Memory) (pos : nat) : option (Z * nat) :=
  decodeVarintLoop 10 data pos 0 0.

(** The [uint64] a caller written in Solidity reads from that variable:
    the compiler masks the word where the value is used (a comparison, a
    widening to [uint256], a store to memory).  A caller that reads the
    variable in assembly sees the word itself; the zigzag decoders below
    do. *)
Definition _decode_varint (data : Memory) (pos : nat) : option (Z * nat) :=
  match decodeVarintWord data pos with
  | Some (word, newPos) => Some (word mod 2 ^ 64, newPos)
  | None => None
  end.

Definition _decode_key (data : Memory) (pos : nat) : option (Z * nat) :=
  _decode_varint data pos.

Definition _slice (data : Memory) (start end_ : nat) : option (list Z) :=
  if (start <=? end_)%nat && (end_ <=? dataLength data)%nat
  then Some (map (byteAt data) (seq start (end_ - start)))
  else None.

Definition _skip_field (data : Memory) (pos : nat) (wireType : Z)
  : option nat :=
  if (wireType =? 0)%Z then
    match _decode_varint data pos with
    | Some (_, newPos) => Some newPos
    | None => None
    end
  else if (wireType =? 1)%Z then Some (pos + 8)%nat
  else if (wireType =? 2)%Z then
    match _decode_varint data pos with
    | Some (len, newPos) => Some (newPos + Z.to_nat len)%nat
    | None => None
    end
  else if (wireType =? 5)%Z then Some (pos + 4)%nat
  else None.

(** The assembly loop of [_encode_varint], for a [uint64] value. *)
Fixpoint encodeVarintLoop (fuel : nat) (v : Z) : list Z :=
  match fuel with
  | O => []
  | S fuel' =>
      if (v >? 127)%Z
      then Z.lor (Z.land v 127) 128 :: encodeVarintLoop fuel' (Z.shiftr v 7)
      else [Z.land v 127]
  end.

Definition _encode_varint (value : Z) : list Z :=
  if (value <? 128)%Z then [value] else encodeVarintLoop 10 value.

Definition _encode_key (tag : Z) : list Z := _encode_varint tag.

(** [data] holds the bytes [bs] from offset [p] on.  ([_decode_varint] and
    the fixed-width decoders read without a bounds check, so only the
    contents matter to them.) *)
Definition holds (data : Memory) (p : nat) (bs : list Z) : Prop :=
  forall i, (i < List.length bs)%nat -> byteAt data (p + i) = nth i bs 0.

(** *** Bool *)

Definition _encode_bool (value : bool) : list Z :=
  [ if value then 1 else 0 ].

Definition _decode_bool (data : Memory) (pos : nat) : option (bool * nat) :=
  match _decode_varint data pos with
  | Some (v, newPos) => Some (negb (v =? 0)%Z, newPos)
  | None => None
  end.

(** [uint64(value)] of an [int64], and an [int64] / [int32] variable read
    after a word was assigned to it: its low bits, signed. *)
Definition toUint64 (value : Z) : Z := value mod 2 ^ 64.
Definition toInt64 (raw : Z) : Z := (raw + 2 ^ 63) mod 2 ^ 64 - 2 ^ 63.

(** *** ZigZag

    A signed argument is its value; [sar] is the arithmetic shift, and
    [xor] with [-1] (all ones) is the complement.  The result of the
    encoder's assembly is a [uint32] / [uint64].

    The decoders' assembly reads [raw] (and [n], which [uint32(raw)]
    narrows without masking) as the word [_decode_varint] left, and
    assigns a word to [value]; the caller reads [value] as an [int32] /
    [int64]. *)

Definition zigzag32 (value : Z) : Z :=
  Z.lxor (Z.shiftl value 1) (Z.shiftr value 31) mod 2 ^ 32.

Definition unzigzag32 (n : Z) : Z :=
  Js.toInt32 (Z.lxor (Z.shiftr n 1) (- Z.land n 1)).

Definition _encode_zigzag32 (value : Z) : list Z :=
  _encode_varint (zigzag32 value).

Definition _decode_zigzag32 (data : Memory) (pos : nat) : option (Z * nat) :=
  match decodeVarintWord data pos with
  | Some (raw, newPos) => Some (unzigzag32 raw, newPos)
  | None => None
  end.

Definition zigzag64 (value : Z) : Z :=
  Z.lxor (Z.shiftl value 1) (Z.shiftr value 63) mod 2 ^ 64.

Definition unzigzag64 (raw : Z) : Z :=
  toInt64 (Z.lxor (Z.shiftr raw 1) (- Z.land raw 1)).

Definition _encode_zigzag64 (value : Z) : list Z :=
  _encode_varint (zigzag64 value).

Definition _decode_zigzag64 (data : Memory) (pos : nat) : option (Z * nat) :=
  match decodeVarintWord data pos with
  | Some (raw, newPos) => Some (unzigzag64 raw, newPos)
  | None => None
  end.

(** *** Wire type 1: 64-bit, little-endian *)

Definition _encode_fixed64 (value : Z) : list Z :=
  [ Z.land value 255;
    Z.land (Z.shiftr value 8) 255;
    Z.land (Z.shiftr value 16) 255;
    Z.land (Z.shiftr value 24) 255;
    Z.land (Z.shiftr value 32) 255;
    Z.land (Z.shiftr value 40) 255;
    Z.land (Z.shiftr value 48) 255;
    Z.land (Z.shiftr value 56) 255 ].

Definition _decode_fixed64 (data : Memory) (pos : nat) : option (Z * nat) :=
  let b := fun k => byteAt data (pos + k) in
  Some
    (Z.lor
       (Z.lor
          (Z.lor (b 0%nat) (Z.shiftl (b 1%nat) 8))
          (Z.lor (Z.shiftl (b 2%nat) 16) (Z.shiftl (b 3%nat) 24)))
       (Z.lor
          (Z.lor (Z.shiftl (b 4%nat) 32) (Z.shiftl (b 5%nat) 40))
          (Z.lor (Z.shiftl (b 6%nat) 48) (Z.shiftl (b 7%nat) 56))),
     (pos + 8)%nat).

Definition _encode_sfixed64 (value : Z) : list Z :=
  _encode_fixed64 (toUint64 value).

Definition _decode_sfixed64 (data : Memory) (pos : nat) : option (Z * nat) :=
  match _decode_fixed64 data pos with
  | Some (raw, newPos) => Some (toInt64 raw, newPos)
  | None => None
  end.

(** *** Wire type 5: 32-bit, little-endian *)

Definition _encode_fixed32 (value : Z) : list Z :=
  [ Z.land value 255;
    Z.land (Z.shiftr value 8) 255;
    Z.land (Z.shiftr value 16) 255;
    Z.land (Z.shiftr value 24) 255 ].

Definition _decode_fixed32 (data : Memory) (pos : nat) : option (Z * nat) :=
  let b := fun k => byteAt data (pos + k) in
  Some
    (Z.lor
       (Z.lor (b 0%nat) (Z.shiftl (b 1%nat) 8))
       (Z.lor (Z.shiftl (b 2%nat) 16) (Z.shiftl (b 3%nat) 24)),
     (pos + 4)%nat).

Definition toUint32 (value : Z) : Z := value mod 2 ^ 32.

Definition _encode_sfixed32 (value : Z) : list Z :=
  _encode_fixed32 (toUint32 value).

Definition _decode_sfixed32 (data : Memory) (pos : nat) : option (Z * nat) :=
  match _decode_fixed32 data pos with
  | Some (raw, newPos) => Some (Js.toInt32 raw, newPos)
  | None => None
  end.

(** *** Wire type 2: length-delimited *)

Definition _encode_bytes (value : list Z) : list Z :=
  List.app (_encode_varint (Z.of_nat (List.length value) mod 2 ^ 64)) value.

Definition _decode_bytes (data : Memory) (pos : nat)
  : option (list Z * nat) :=
  match _decode_varint data pos with
  | Some (len, pos) =>
      match _slice data pos (pos + Z.to_nat len)%nat with
      | Some value => Some (value, (pos + Z.to_nat len)%nat)
      | None => None
      end
  | None => None
  end.

(** A [string] is its bytes. *)
Definition _encode_string (value : list Z) : list Z := _encode_bytes value.

Definition _decode_string (data : Memory) (pos : nat)
  : option (list Z * nat) :=
  _decode_bytes data pos.

End Runtime.

(** The wire format of a primitive of the runtime library, by the part of
    its name behind [_encode_] or [_decode_]: the section of
    [ProtobufRuntime.sol] the pair stands in. *)
Definition primitiveWire (suffix : string) : option WireType :=
  if existsb (String.eqb suffix) ["varint"; "bool"; "zigzag32"; "zigzag64"]
  then Some Varint
  else if existsb (String.eqb suffix) ["fixed64"; "sfixed64"]
  then Some Fixed64
  else if existsb (String.eqb suffix) ["bytes"; "string"]
  then Some LengthDelimited
  else if existsb (String.eqb suffix) ["fixed32"; "sfixed32"]
  then Some Fixed32
  else None.

(** ** The emitted statements

    The emitters return text.  To say what that text does when it runs,
    the statements they print are given a syntax ([Sol.stmt]), a printer
    ([Sol.render]) that reproduces the emitted lines character for
    character, the type check the Solidity compiler applies to them
    ([Sol.check]), and an interpreter ([Sol.exec]) for the statements that
    pass it.  Part II proves, emitter by emitter, that the text returned
    is the printed form of the syntax tree checked and interpreted
    here. *)

Module Sol.

(** What an encoder call is applied to: [msg.x] or [msg.x[i]]. *)
Inductive operand : Type :=
| Member (x : string)
| Element (arr i : string).

Inductive stmt : Type :=
(* decode side *)
| DeclareNum (x : string)
    (* [uint64 x;] *)
| DeclareTyped (ty x : string)
    (* [ty x;] *)
| DecodeInto (x f : string)
    (* [(x, pos) = ProtobufRuntime.f(data, pos);], [x] a typed value *)
| ReadVarint (x : string)
    (* [(x, pos) = ProtobufRuntime._decode_varint(data, pos);], [x] a uint64 *)
| ReadKey (x : string)
    (* [(x, pos) = ProtobufRuntime._decode_key(data, pos);] *)
| Slice (sub len : string)
    (* [bytes memory sub = ProtobufRuntime._slice(data, pos, pos + uint256(len));] *)
| EndOf (e len : string)
    (* [uint256 e = pos + uint256(len);] *)
| AssignDecoded (x codec sub : string)
    (* [x = codec.decode(sub);] *)
| PushDecoded (arr codec sub : string)
    (* [arr.push(codec.decode(sub));] *)
| Push (arr x : string)
    (* [arr.push(x);] *)
| Advance (len : string)
    (* [pos += uint256(len);] *)
| While (e : string) (body : list stmt)
    (* [while (pos < e) { body }] *)
| IfTag (tv : string) (t1 : Z) (b1 : list stmt) (t2 : Z) (b2 : list stmt)
        (els : list stmt)
    (* [if (tv == t1) { b1 } else if (tv == t2) { b2 } else { els }] *)
| Revert (reason : string)
    (* [revert("reason");] *)
(* encode side *)
| AppendKey (b : string) (hex : bool) (tag : Z)
    (* [b = abi.encodePacked(b, ProtobufRuntime._encode_key(tag));] *)
| AppendPrim (b f : string) (op : operand)
    (* [b = abi.encodePacked(b, ProtobufRuntime.f(op));] *)
| EncodeTo (v codec : string) (op : operand)
    (* [bytes memory v = codec.encode(op);] *)
| AppendLength (b v : string)
    (* [b = abi.encodePacked(b, ProtobufRuntime._encode_varint(uint64(v.length)));] *)
| AppendBytes (b v : string)
    (* [b = abi.encodePacked(b, v);] *)
| NewBytes (v : string)
    (* [bytes memory v = "";] *)
| For (i arr : string) (body : list stmt)
    (* [for (uint256 i = 0; i < arr.length; i++) { body }] *)
.

(** One [case] of the tag-dispatch switch. *)
Record decodeCase : Type := mkCase {
  caseTag : Z;
  braced : bool;
  caseBody : list stmt
}.

(** *** Printing *)

Definition renderOperand (op : operand) : string :=
  match op with
  | Member x => x
  | Element arr i => arr ++ "[" ++ i ++ "]"
  end.

Definition renderTag (hex : bool) (tag : Z) : string :=
  if hex then "0x" ++ Js.toString16 tag else Js.toString tag.

Fixpoint render (indent : string) (s : stmt) : list string :=
  let block := fun body => flat_map (render (indent ++ "  ")) body in
  match s with
  | DeclareNum x => [indent ++ "uint64 " ++ x ++ ";"]
  | DeclareTyped ty x => [indent ++ ty ++ " " ++ x ++ ";"]
  | DecodeInto x f =>
      [indent ++ "(" ++ x ++ ", pos) = ProtobufRuntime." ++ f ++ "(data, pos);"]
  | ReadVarint x =>
      [indent ++ "(" ++ x
         ++ ", pos) = ProtobufRuntime._decode_varint(data, pos);"]
  | ReadKey x =>
      [indent ++ "(" ++ x ++ ", pos) = ProtobufRuntime._decode_key(data, pos);"]
  | Slice sub len =>
      [indent ++ "bytes memory " ++ sub
         ++ " = ProtobufRuntime._slice(data, pos, pos + uint256(" ++ len
         ++ "));"]
  | EndOf e len =>
      [indent ++ "uint256 " ++ e ++ " = pos + uint256(" ++ len ++ ");"]
  | AssignDecoded x codec sub =>
      [indent ++ x ++ " = " ++ codec ++ ".decode(" ++ sub ++ ");"]
  | PushDecoded arr codec sub =>
      [indent ++ arr ++ ".push(" ++ codec ++ ".decode(" ++ sub ++ "));"]
  | Push arr x => [indent ++ arr ++ ".push(" ++ x ++ ");"]
  | Advance len => [indent ++ "pos += uint256(" ++ len ++ ");"]
  | While e body =>
      List.app [indent ++ "while (pos < " ++ e ++ ") {"]
        (List.app (block body) [indent ++ "}"])
  | IfTag tv t1 b1 t2 b2 els =>
      List.app [indent ++ "if (" ++ tv ++ " == " ++ Js.toString t1 ++ ") {"]
        (List.app (block b1)
        (List.app [indent ++ "} else if (" ++ tv ++ " == " ++ Js.toString t2
                     ++ ") {"]
        (List.app (block b2)
        (List.app [indent ++ "} else {"]
        (List.app (block els) [indent ++ "}"])))))
  | Revert reason => [indent ++ "revert(" ++ dq ++ reason ++ dq ++ ");"]
  | AppendKey b hex tag =>
      [indent ++ b ++ " = abi.encodePacked(" ++ b
         ++ ", ProtobufRuntime._encode_key(" ++ renderTag hex tag ++ "));"]
  | AppendPrim b f op =>
      [indent ++ b ++ " = abi.encodePacked(" ++ b ++ ", ProtobufRuntime." ++ f
         ++ "(" ++ renderOperand op ++ "));"]
  | EncodeTo v codec op =>
      [indent ++ "bytes memory " ++ v ++ " = " ++ codec ++ ".encode("
         ++ renderOperand op ++ ");"]
  | AppendLength b v =>
      [indent ++ b ++ " = abi.encodePacked(" ++ b
         ++ ", ProtobufRuntime._encode_varint(uint64(" ++ v ++ ".length)));"]
  | AppendBytes b v =>
      [indent ++ b ++ " = abi.encodePacked(" ++ b ++ ", " ++ v ++ ");"]
  | NewBytes v => [indent ++ "bytes memory " ++ v ++ " = " ++ dq ++ dq ++ ";"]
  | For i arr body =>
      List.app
        [indent ++ "for (uint256 " ++ i ++ " = 0; " ++ i ++ " < " ++ arr
           ++ ".length; " ++ i ++ "++) {"]
        (List.app (block body) [indent ++ "}"])
  end.

(** An encode fragment is printed at the depth of a function body. *)
Definition renderEncode (body : list stmt) : string :=
  Js.join nl (flat_map (render "    ") body).

(** A decode fragment is one [case] of the switch. *)
Definition renderCase (c : decodeCase) : string :=
  Js.join nl
    (List.app [ "        case " ++ Js.toString (caseTag c) ++ ":" ]
    (List.app
       (if braced c
        then List.app [ "          {" ]
               (List.app (flat_map (render "            ") (caseBody c))
                         [ "          }" ])
        else flat_map (render "          ") (caseBody c))
       [ "          break;" ])).

(** *** The statements each emitter prints *)

Definition scalarEncode (solName encodeFunc : string) (tag : Z) : list stmt :=
  [ AppendKey "buf" true tag;
    AppendPrim "buf" encodeFunc (Member ("msg." ++ solName)) ].

Definition messageEncode (solName nestedCodec : string) (tag : Z)
  : list stmt :=
  [ AppendKey "buf" true tag;
    EncodeTo (solName ++ "_encoded") nestedCodec (Member ("msg." ++ solName));
    AppendLength "buf" (solName ++ "_encoded");
    AppendBytes "buf" (solName ++ "_encoded") ].

Definition repeatedScalarEncode (solName encodeFunc : string) (tag : Z)
  : list stmt :=
  [ For ("_i_" ++ solName) ("msg." ++ solName)
      [ AppendKey "buf" true tag;
        AppendPrim "buf" encodeFunc
          (Element ("msg." ++ solName) ("_i_" ++ solName)) ] ].

Definition repeatedMessageEncode (solName nestedCodec : string) (tag : Z)
  : list stmt :=
  [ For ("_i_" ++ solName) ("msg." ++ solName)
      [ AppendKey "buf" true tag;
        EncodeTo "_elem" nestedCodec
          (Element ("msg." ++ solName) ("_i_" ++ solName));
        AppendLength "buf" "_elem";
        AppendBytes "buf" "_elem" ] ].

(** The loop of a repeated field, for either kind of element. *)
Definition repeatedEncode (solName : string) (nestedCodec : option string)
  (encodeFunc : string) (tag : Z) : list stmt :=
  match nestedCodec with
  | Some codec => repeatedMessageEncode solName codec tag
  | None => repeatedScalarEncode solName encodeFunc tag
  end.

(** The statements of a field that is neither repeated nor a map. *)
Definition singularEncode (solName : string) (nestedCodec : option string)
  (encodeFunc : string) (tag : Z) : list stmt :=
  match nestedCodec with
  | Some codec => messageEncode solName codec tag
  | None => scalarEncode solName encodeFunc tag
  end.

(** The value half of a map entry: a nested message or a primitive. *)
Definition mapValueEncode (solName : string) (nestedCodec : option string)
  (valTag : Z) (valEncode : string) : list stmt :=
  let value := Element ("msg." ++ solName ++ "_values") ("_i_" ++ solName) in
  match nestedCodec with
  | Some codec =>
      [ EncodeTo "_val" codec value;
        AppendKey "_entry" false valTag;
        AppendLength "_entry" "_val";
        AppendBytes "_entry" "_val" ]
  | None =>
      [ AppendKey "_entry" false valTag;
        AppendPrim "_entry" valEncode value ]
  end.

Definition mapEncode (solName : string) (keyTag : Z) (keyEncode : string)
  (nestedCodec : option string) (valTag : Z) (valEncode : string) (tag : Z)
  : list stmt :=
  [ For ("_i_" ++ solName) ("msg." ++ solName ++ "_keys")
      (List.app
        [ NewBytes "_entry";
          AppendKey "_entry" false keyTag;
          AppendPrim "_entry" keyEncode
            (Element ("msg." ++ solName ++ "_keys") ("_i_" ++ solName)) ]
      (List.app (mapValueEncode solName nestedCodec valTag valEncode)
        [ AppendKey "buf" true tag;
          AppendLength "buf" "_entry";
          AppendBytes "buf" "_entry" ])) ].

Definition scalarDecode (solName decodeFunc : string) (tag : Z) : decodeCase :=
  {| caseTag := tag;
     braced := false;
     caseBody := [ DecodeInto ("msg." ++ solName) decodeFunc ] |}.

Definition messageDecode (solName nestedCodec : string) (tag : Z)
  : decodeCase :=
  {| caseTag := tag;
     braced := true;
     caseBody :=
       [ DeclareNum "_len";
         ReadVarint "_len";
         Slice "_sub" "_len";
         AssignDecoded ("msg." ++ solName) nestedCodec "_sub";
         Advance "_len" ] |}.

(** The case of a field that is neither repeated nor a map. *)
Definition singularDecode (solName : string) (nestedCodec : option string)
  (decodeFunc : string) (tag : Z) : decodeCase :=
  match nestedCodec with
  | Some codec => messageDecode solName codec tag
  | None => scalarDecode solName decodeFunc tag
  end.

Definition repeatedMessageDecode (solName nestedCodec : string) (tag : Z)
  : decodeCase :=
  {| caseTag := tag;
     braced := true;
     caseBody :=
       [ DeclareNum "_len";
         ReadVarint "_len";
         Slice "_sub" "_len";
         PushDecoded ("msg." ++ solName) nestedCodec "_sub";
         Advance "_len" ] |}.

Definition repeatedScalarDecode (solName elemType decodeFunc : string)
  (tag : Z) : decodeCase :=
  {| caseTag := tag;
     braced := true;
     caseBody :=
       [ DeclareTyped elemType "_elem";
         DecodeInto "_elem" decodeFunc;
         Push ("msg." ++ solName) "_elem" ] |}.

(** The case of a repeated field, for either kind of element. *)
Definition repeatedDecode (solName elemType : string)
  (nestedCodec : option string) (decodeFunc : string) (tag : Z)
  : decodeCase :=
  match nestedCodec with
  | Some codec => repeatedMessageDecode solName codec tag
  | None => repeatedScalarDecode solName elemType decodeFunc tag
  end.

Definition mapValueDecode (nestedCodec : option string) (valDecode : string)
  : list stmt :=
  match nestedCodec with
  | Some codec =>
      [ DeclareNum "_vLen";
        ReadVarint "_vLen";
        Slice "_vSub" "_vLen";
        AssignDecoded "_val" codec "_vSub";
        Advance "_vLen" ]
  | None => [ DecodeInto "_val" valDecode ]
  end.

Definition mapEntryLoop (keyTag : Z) (keyDecode : string)
  (nestedCodec : option string) (valTag : Z) (valDecode : string) : stmt :=
  While "_entryEnd"
    [ DeclareNum "_entryTag";
      ReadKey "_entryTag";
      IfTag "_entryTag"
        keyTag [ DecodeInto "_key" keyDecode ]
        valTag (mapValueDecode nestedCodec valDecode)
        [ Revert "Unknown map entry tag" ] ].

Definition mapDecode (solName keySol valSol : string) (keyTag : Z)
  (keyDecode : string) (nestedCodec : option string) (valTag : Z)
  (valDecode : string) (tag : Z) : decodeCase :=
  {| caseTag := tag;
     braced := true;
     caseBody :=
       [ DeclareNum "_entryLen";
         ReadVarint "_entryLen";
         EndOf "_entryEnd" "_entryLen";
         DeclareTyped keySol "_key";
         DeclareTyped valSol "_val";
         mapEntryLoop keyTag keyDecode nestedCodec valTag valDecode;
         Push ("msg." ++ solName ++ "_keys") "_key";
         Push ("msg." ++ solName ++ "_values") "_val" ] |}.

(** *** Types

    The emitted statements are Solidity text: the compiler checks them
    before anything runs.  What the check needs is read off the text: the
    types the struct members and the locals are declared with, and the
    signatures of the runtime library. *)

Inductive ty : Type :=
| TUint (bits : Z)
| TInt (bits : Z)
| TBool
| TString
| TBytes
| TStruct (name : string).

(** The type a printed type name denotes: one of the elementary types the
    table names, or the struct of that name.  The empty name, which
    [resolveSolType] returns for a message field without a type name,
    denotes nothing. *)
Definition typeOf (name : string) : option ty :=
  if String.eqb name "uint64" then Some (TUint 64)
  else if String.eqb name "uint32" then Some (TUint 32)
  else if String.eqb name "int64" then Some (TInt 64)
  else if String.eqb name "int32" then Some (TInt 32)
  else if String.eqb name "bool" then Some TBool
  else if String.eqb name "string" then Some TString
  else if String.eqb name "bytes" then Some TBytes
  else if String.eqb name "" then None
  else Some (TStruct name).

(** Implicit conversion, as an argument is passed or a result assigned:
    between integers of the same signedness when the target is at least
    as wide, and from a type to itself. *)
Definition converts (from to : ty) : bool :=
  match from, to with
  | TUint a, TUint b => (a <=? b)%Z
  | TInt a, TInt b => (a <=? b)%Z
  | TBool, TBool => true
  | TString, TString => true
  | TBytes, TBytes => true
  | TStruct a, TStruct b => String.eqb a b
  | _, _ => false
  end.

(** A local of a value type is declared by [ty x;]; a string, a byte
    array or a struct needs a data location, which the emitters do not
    print. *)
Definition isValueType (t : ty) : bool :=
  match t with
  | TUint _ | TInt _ | TBool => true
  | _ => false
  end.

(** A number literal where a [uint64] is expected ([_encode_key(tag)],
    [_entryTag == tag], [case tag:]): it has to be one.  A negative number
    is printed with a minus sign, also behind [0x]. *)
Definition fitsUint64 (literal : Z) : bool :=
  (0 <=? literal)%Z && (literal <? 2 ^ 64)%Z.

(** The primitives of [ProtobufRuntime.sol], by the part of their name
    behind [_encode_] or [_decode_], and the type each encoder takes and
    each decoder returns (lines 254 to 458). *)
Inductive primitive : Type :=
| Pvarint | Pbool | Pzigzag32 | Pzigzag64
| Pfixed64 | Psfixed64 | Pfixed32 | Psfixed32
| Pbytes | Pstring.

Definition primitiveOf (suffix : string) : option primitive :=
  if String.eqb suffix "varint" then Some Pvarint
  else if String.eqb suffix "bool" then Some Pbool
  else if String.eqb suffix "zigzag32" then Some Pzigzag32
  else if String.eqb suffix "zigzag64" then Some Pzigzag64
  else if String.eqb suffix "fixed64" then Some Pfixed64
  else if String.eqb suffix "sfixed64" then Some Psfixed64
  else if String.eqb suffix "fixed32" then Some Pfixed32
  else if String.eqb suffix "sfixed32" then Some Psfixed32
  else if String.eqb suffix "bytes" then Some Pbytes
  else if String.eqb suffix "string" then Some Pstring
  else None.

Fixpoint stripPrefix (prefix s : string) : option string :=
  match prefix, s with
  | EmptyString, _ => Some s
  | String a prefix', String b s' =>
      if Ascii.eqb a b then stripPrefix prefix' s' else None
  | _, _ => None
  end.

Definition encoderNamed (f : string) : option primitive :=
  match stripPrefix "_encode_" f with
  | Some suffix => primitiveOf suffix
  | None => None
  end.

Definition decoderNamed (f : string) : option primitive :=
  match stripPrefix "_decode_" f with
  | Some suffix => primitiveOf suffix
  | None => None
  end.

Definition primType (p : primitive) : ty :=
  match p with
  | Pvarint => TUint 64
  | Pbool => TBool
  | Pzigzag32 => TInt 32
  | Pzigzag64 => TInt 64
  | Pfixed64 => TUint 64
  | Psfixed64 => TInt 64
  | Pfixed32 => TUint 32
  | Psfixed32 => TInt 32
  | Pbytes => TBytes
  | Pstring => TString
  end.

Definition update {A : Type} (m : string -> A) (x : string) (a : A)
  : string -> A :=
  fun y => if String.eqb x y then a else m y.

(** The declarations in sight of a statement: the type of each variable
    that holds one value ([msg.x], a local), and the element type of each
    array member. *)
Record scope : Type := mkScope {
  varTy : string -> option ty;
  arrTy : string -> option ty
}.

Definition noScope : scope :=
  {| varTy := fun _ => None; arrTy := fun _ => None |}.

Definition declareVar (x : string) (t : ty) (sc : scope) : scope :=
  {| varTy := update (varTy sc) x (Some t); arrTy := arrTy sc |}.

Definition declareArr (x : string) (t : ty) (sc : scope) : scope :=
  {| varTy := varTy sc; arrTy := update (arrTy sc) x (Some t) |}.

Definition operandTy (sc : scope) (op : operand) : option ty :=
  match op with
  | Member x => varTy sc x
  | Element arr _ => arrTy sc arr
  end.

Definition isUint (t : option ty) : bool :=
  match t with
  | Some (TUint _) => true
  | _ => false
  end.

(** Whether [codec] is the codec library of the struct [t]: its [encode]
    takes, and its [decode] returns, a [t memory]. *)
Definition codecOf (t : option ty) (codec : string) : bool :=
  match t with
  | Some (TStruct name) => String.eqb codec (name ++ "Codec")
  | _ => false
  end.

(** The check of one statement: [None] when the compiler refuses it,
    otherwise the scope with what the statement declares.  The buffers
    ([bytes memory]) and [pos] have the type their statements need by
    construction; what can go wrong is an argument or a result of another
    type than the member or local it meets, a local without data
    location, and a literal that is no [uint64]. *)
Fixpoint check (sc : scope) (s : stmt) : option scope :=
  let block :=
    fix block (sc : scope) (body : list stmt) : bool :=
      match body with
      | [] => true
      | s :: rest =>
          match check sc s with
          | Some sc' => block sc' rest
          | None => false
          end
      end in
  let guard := fun (b : bool) (sc : scope) => if b then Some sc else None in
  match s with
  | DeclareNum x => Some (declareVar x (TUint 64) sc)
  | DeclareTyped tyName x =>
      match typeOf tyName with
      | Some t => guard (isValueType t) (declareVar x t sc)
      | None => None
      end
  | DecodeInto x f =>
      match decoderNamed f, varTy sc x with
      | Some p, Some t => guard (converts (primType p) t) sc
      | _, _ => None
      end
  | ReadVarint x | ReadKey x =>
      match varTy sc x with
      | Some t => guard (converts (TUint 64) t) sc
      | None => None
      end
  | Slice sub len => guard (isUint (varTy sc len)) sc
  | EndOf e len => guard (isUint (varTy sc len)) (declareVar e (TUint 256) sc)
  | AssignDecoded x codec sub => guard (codecOf (varTy sc x) codec) sc
  | PushDecoded arr codec sub => guard (codecOf (arrTy sc arr) codec) sc
  | Push arr x =>
      match varTy sc x, arrTy sc arr with
      | Some t, Some elem => guard (converts t elem) sc
      | _, _ => None
      end
  | Advance len => guard (isUint (varTy sc len)) sc
  | While e body => guard (isUint (varTy sc e) && block sc body) sc
  | IfTag tv t1 b1 t2 b2 els =>
      guard (isUint (varTy sc tv) && fitsUint64 t1 && fitsUint64 t2
             && block sc b1 && block sc b2 && block sc els) sc
  | Revert _ => Some sc
  | AppendKey b _ tag => guard (fitsUint64 tag) sc
  | AppendPrim b f op =>
      match encoderNamed f, operandTy sc op with
      | Some p, Some t => guard (converts t (primType p)) sc
      | _, _ => None
      end
  | EncodeTo v codec op => guard (codecOf (operandTy sc op) codec) sc
  | AppendLength b v => Some sc
  | AppendBytes b v => Some sc
  | NewBytes v => Some sc
  | For i arr body =>
      match arrTy sc arr with
      | Some _ => guard (block sc body) sc
      | None => None
      end
  end.

Fixpoint accepts (sc : scope) (body : list stmt) : bool :=
  match body with
  | [] => true
  | s :: rest =>
      match check sc s with
      | Some sc' => accepts sc' rest
      | None => false
      end
  end.

Definition acceptsCase (sc : scope) (c : decodeCase) : bool :=
  fitsUint64 (caseTag c) && accepts sc (caseBody c).

(** Whether the call that writes a value of type [t] is well-typed: the
    nested codec is the codec of [t], or the runtime's encoder takes what
    [t] converts to. *)
Definition encodeCallTyped (t : option ty) (nestedCodec : option string)
  (encodeFunc : string) : bool :=
  match nestedCodec with
  | Some codec => codecOf t codec
  | None =>
      match encoderNamed encodeFunc, t with
      | Some p, Some t => converts t (primType p)
      | _, _ => false
      end
  end.

(** The same for the call that reads one: the nested codec is the codec
    of [t], or what the runtime's decoder returns converts to [t]. *)
Definition decodeCallTyped (t : option ty) (nestedCodec : option string)
  (decodeFunc : string) : bool :=
  match nestedCodec with
  | Some codec => codecOf t codec
  | None =>
      match decoderNamed decodeFunc, t with
      | Some p, Some t => converts (primType p) t
      | _, _ => false
      end
  end.

(** A slot of a decode case: a local declared with the printed type, which
    is assigned what the decoder or the nested codec returns and pushed
    onto an array of [elem]. *)
Definition slotTyped (tyName : string) (nestedCodec : option string)
  (decodeFunc : string) (elem : option ty) : bool :=
  match typeOf tyName, elem with
  | Some t, Some elem =>
      isValueType t && decodeCallTyped (Some t) nestedCodec decodeFunc
      && converts t elem
  | _, _ => false
  end.

(** The records of the elements of a sequence, in order; none when one
    element has none. *)
Fixpoint recordList {A : Type} (record : A -> option (list Z)) (l : list A)
  : option (list (list Z)) :=
  match l with
  | [] => Some []
  | a :: rest =>
      match record a, recordList record rest with
      | Some r, Some rs => Some (r :: rs)
      | _, _ => None
      end
  end.

(** Where each of the records starts when they lie one behind the other
    from [start] on. *)
Fixpoint offsets (start : nat) (records : list (list Z)) : list nat :=
  match records with
  | [] => []
  | r :: rest => start :: offsets (start + List.length r) rest
  end.

(** *** Running the statements

    A value is what a member, an array element or a typed local holds: a
    number, a [bool], the bytes of a [string] or [bytes], or a message of
    another struct type.  The messages ([M]) and the codecs of their
    structs, which [message.ts] generates, are named by the emitted code
    and left open here; a codec's [encode] or [decode] may revert. *)

Section Semantics.

Variable M : Type.
(** [Codec.encode(value)]. *)
Variable codecEncode : string -> M -> option (list Z).
(** [Codec.decode(sub)]. *)
Variable codecDecode : string -> list Z -> option M.

Inductive value : Type :=
| Num (z : Z)
| Flag (b : bool)
| Blob (bytes : list Z)
| Message (m : M).

Definition isByte (z : Z) : bool := (0 <=? z)%Z && (z <? 256)%Z.

(** The values of a type. *)
Definition inType (t : ty) (v : value) : bool :=
  match t, v with
  | TUint bits, Num z => (0 <=? z)%Z && (z <? 2 ^ bits)%Z
  | TInt bits, Num z =>
      (- 2 ^ (bits - 1) <=? z)%Z && (z <? 2 ^ (bits - 1))%Z
  | TBool, Flag _ => true
  | TString, Blob bytes => forallb isByte bytes
  | TBytes, Blob bytes => forallb isByte bytes
  | TStruct _, Message _ => true
  | _, _ => false
  end.

(** The zero value a local starts with. *)
Definition zeroOf (t : ty) : option value :=
  match t with
  | TUint _ | TInt _ => Some (Num 0)
  | TBool => Some (Flag false)
  | _ => None
  end.

(** [ProtobufRuntime._encode_<p>(value)], for a value of the parameter's
    type. *)
Definition primEncode (p : primitive) (v : value) : option (list Z) :=
  if inType (primType p) v then
    match p, v with
    | Pvarint, Num z => Some (Runtime._encode_varint z)
    | Pbool, Flag b => Some (Runtime._encode_bool b)
    | Pzigzag32, Num z => Some (Runtime._encode_zigzag32 z)
    | Pzigzag64, Num z => Some (Runtime._encode_zigzag64 z)
    | Pfixed64, Num z => Some (Runtime._encode_fixed64 z)
    | Psfixed64, Num z => Some (Runtime._encode_sfixed64 z)
    | Pfixed32, Num z => Some (Runtime._encode_fixed32 z)
    | Psfixed32, Num z => Some (Runtime._encode_sfixed32 z)
    | Pbytes, Blob bytes => Some (Runtime._encode_bytes bytes)
    | Pstring, Blob bytes => Some (Runtime._encode_string bytes)
    | _, _ => None
    end
  else None.

Definition tagged {A : Type} (wrap : A -> value) (r : option (A * nat))
  : option (value * nat) :=
  match r with
  | Some (a, newPos) => Some (wrap a, newPos)
  | None => None
  end.

(** [ProtobufRuntime._decode_<p>(data, pos)]; [None] is a revert. *)
Definition primDecode (p : primitive) (data : Runtime.Memory) (pos : nat)
  : option (value * nat) :=
  match p with
  | Pvarint => tagged Num (Runtime._decode_varint data pos)
  | Pbool => tagged Flag (Runtime._decode_bool data pos)
  | Pzigzag32 => tagged Num (Runtime._decode_zigzag32 data pos)
  | Pzigzag64 => tagged Num (Runtime._decode_zigzag64 data pos)
  | Pfixed64 => tagged Num (Runtime._decode_fixed64 data pos)
  | Psfixed64 => tagged Num (Runtime._decode_sfixed64 data pos)
  | Pfixed32 => tagged Num (Runtime._decode_fixed32 data pos)
  | Psfixed32 => tagged Num (Runtime._decode_sfixed32 data pos)
  | Pbytes => tagged Blob (Runtime._decode_bytes data pos)
  | Pstring => tagged Blob (Runtime._decode_string data pos)
  end.

(** The variables in scope, by their printed name: [pos], the [uint64]
    and [uint256] locals, the typed locals and scalar members, the array
    members, and the [bytes memory] locals. *)
Record state : Type := mkState {
  pos : nat;
  nums : string -> Z;
  vals : string -> value;
  arrs : string -> list value;
  bufs : string -> list Z
}.

Definition setPos (p : nat) (st : state) : state :=
  {| pos := p; nums := nums st; vals := vals st; arrs := arrs st;
     bufs := bufs st |}.
Definition setNum (x : string) (z : Z) (st : state) : state :=
  {| pos := pos st; nums := update (nums st) x z; vals := vals st;
     arrs := arrs st; bufs := bufs st |}.
Definition setVal (x : string) (v : value) (st : state) : state :=
  {| pos := pos st; nums := nums st; vals := update (vals st) x v;
     arrs := arrs st; bufs := bufs st |}.
Definition setArr (x : string) (l : list value) (st : state) : state :=
  {| pos := pos st; nums := nums st; vals := vals st;
     arrs := update (arrs st) x l; bufs := bufs st |}.
Definition setBuf (x : string) (b : list Z) (st : state) : state :=
  {| pos := pos st; nums := nums st; vals := vals st; arrs := arrs st;
     bufs := update (bufs st) x b |}.

(** How a run ends: normally, by a revert or panic, without an answer
    because the fuel ran out, or not at all because the text is not
    well-typed Solidity. *)
Inductive outcome : Type :=
| Done (st : state)
| Reverted
| OutOfFuel
| Rejected.

Definition andThen (o : outcome) (k : state -> outcome) : outcome :=
  match o with
  | Done st => k st
  | Reverted => Reverted
  | OutOfFuel => OutOfFuel
  | Rejected => Rejected
  end.

Fixpoint execSeq (run : stmt -> state -> outcome) (body : list stmt)
  (st : state) : outcome :=
  match body with
  | [] => Done st
  | s :: rest => andThen (run s st) (execSeq run rest)
  end.

(** At most [n] rounds of [while (cond) { body }]. *)
Fixpoint loop (n : nat) (cond : state -> bool) (body : state -> outcome)
  (st : state) : outcome :=
  match n with
  | O => OutOfFuel
  | S n' => if cond st then andThen (body st) (loop n' cond body) else Done st
  end.

(** An index past the end of an array is a panic. *)
Definition evalOperand (st : state) (op : operand) : option value :=
  match op with
  | Member x => Some (vals st x)
  | Element arr i => nth_error (arrs st arr) (Z.to_nat (nums st i))
  end.

Definition orRevert {A : Type} (x : option A) (k : A -> outcome) : outcome :=
  match x with
  | Some a => k a
  | None => Reverted
  end.

Definition orReject {A : Type} (x : option A) (k : A -> outcome) : outcome :=
  match x with
  | Some a => k a
  | None => Rejected
  end.

(** What each statement does once the check has passed.  An operation
    that meets a value it has no meaning for (a primitive that is not in
    the library, a number where a message is encoded) answers [Rejected]:
    the check rules these out for values of the declared types. *)
Fixpoint exec (data : Runtime.Memory) (fuel : nat) (s : stmt) (st : state)
  : outcome :=
  match fuel with
  | O => OutOfFuel
  | S k =>
      match s with
      | DeclareNum x => Done (setNum x 0 st)
      | DeclareTyped tyName x =>
          orReject (match typeOf tyName with
                    | Some t => zeroOf t
                    | None => None
                    end)
            (fun zero => Done (setVal x zero st))
      | DecodeInto x f =>
          orReject (decoderNamed f)
            (fun p =>
               orRevert (primDecode p data (pos st))
                 (fun r => Done (setPos (snd r) (setVal x (fst r) st))))
      | ReadVarint x =>
          orRevert (Runtime._decode_varint data (pos st))
            (fun r => Done (setPos (snd r) (setNum x (fst r) st)))
      | ReadKey x =>
          orRevert (Runtime._decode_key data (pos st))
            (fun r => Done (setPos (snd r) (setNum x (fst r) st)))
      | Slice sub len =>
          orRevert
            (Runtime._slice data (pos st)
               (pos st + Z.to_nat (nums st len))%nat)
            (fun b => Done (setBuf sub b st))
      | EndOf e len =>
          Done (setNum e (Z.of_nat (pos st) + nums st len) st)
      | AssignDecoded x codec sub =>
          orRevert (codecDecode codec (bufs st sub))
            (fun m => Done (setVal x (Message m) st))
      | PushDecoded arr codec sub =>
          orRevert (codecDecode codec (bufs st sub))
            (fun m =>
               Done (setArr arr (List.app (arrs st arr) [Message m]) st))
      | Push arr x =>
          Done (setArr arr (List.app (arrs st arr) [vals st x]) st)
      | Advance len => Done (setPos (pos st + Z.to_nat (nums st len))%nat st)
      | While e body =>
          loop k (fun st => (Z.of_nat (pos st) <? nums st e)%Z)
            (execSeq (exec data k) body) st
      | IfTag tv t1 b1 t2 b2 els =>
          if (nums st tv =? t1)%Z then execSeq (exec data k) b1 st
          else if (nums st tv =? t2)%Z then execSeq (exec data k) b2 st
          else execSeq (exec data k) els st
      | Revert _ => Reverted
      | AppendKey b _ tag =>
          if fitsUint64 tag
          then Done (setBuf b (List.app (bufs st b) (Runtime._encode_key tag))
                       st)
          else Rejected
      | AppendPrim b f op =>
          orReject (encoderNamed f)
            (fun p =>
               orRevert (evalOperand st op)
                 (fun v =>
                    orReject (primEncode p v)
                      (fun bytes =>
                         Done (setBuf b (List.app (bufs st b) bytes) st))))
      | EncodeTo v codec op =>
          orRevert (evalOperand st op)
            (fun x =>
               match x with
               | Message m =>
                   orRevert (codecEncode codec m)
                     (fun encoded => Done (setBuf v encoded st))
               | _ => Rejected
               end)
      | AppendLength b v =>
          Done (setBuf b
                  (List.app (bufs st b)
                     (Runtime._encode_varint
                        (Z.of_nat (List.length (bufs st v)) mod 2 ^ 64))) st)
      | AppendBytes b v =>
          Done (setBuf b (List.app (bufs st b) (bufs st v)) st)
      | NewBytes v => Done (setBuf v [] st)
      | For i arr body =>
          loop k
            (fun st => (nums st i <? Z.of_nat (List.length (arrs st arr)))%Z)
            (fun st =>
               andThen (execSeq (exec data k) body st)
                 (fun st => Done (setNum i (nums st i + 1) st)))
            (setNum i 0 st)
      end
  end.

(** A fragment runs if the compiler accepts it. *)
Definition run (sc : scope) (data : Runtime.Memory) (fuel : nat)
  (body : list stmt) (st : state) : outcome :=
  if accepts sc body then execSeq (exec data fuel) body st else Rejected.

(** A case runs, after its label was matched, if its label and its body
    are accepted. *)
Definition runCase (sc : scope) (data : Runtime.Memory) (fuel : nat)
  (c : decodeCase) (st : state) : outcome :=
  if acceptsCase sc c then execSeq (exec data fuel) (caseBody c) st
  else Rejected.

(** The bytes of a length-delimited record: key, length, payload. *)
Definition delimited (tag : Z) (payload : list Z) : list Z :=
  List.app (Runtime._encode_key tag)
    (List.app
       (Runtime._encode_varint (Z.of_nat (List.length payload) mod 2 ^ 64))
       payload).

(** What one value contributes behind its key: a primitive as its encoder
    writes it, a nested message as its codec writes it behind its
    length.  [None] when there are no such bytes: the codec reverts, or
    the value is not one the encoder takes. *)
Definition valueBytes (nestedCodec : option string) (encodeFunc : string)
  (v : value) : option (list Z) :=
  match nestedCodec with
  | Some codec =>
      match v with
      | Message m =>
          match codecEncode codec m with
          | Some encoded =>
              Some (List.app
                      (Runtime._encode_varint
                         (Z.of_nat (List.length encoded) mod 2 ^ 64))
                      encoded)
          | None => None
          end
      | _ => None
      end
  | None =>
      match encoderNamed encodeFunc with
      | Some p => primEncode p v
      | None => None
      end
  end.

(** Reading one element or one map value off the wire: a primitive is
    read by its runtime decoder; a nested message is a length, that many
    bytes, and the referenced codec's [decode] of them. *)
Definition readElement (nestedCodec : option string) (decodeFunc : string)
  (data : Runtime.Memory) (p : nat) : option (value * nat) :=
  match nestedCodec with
  | None =>
      match decoderNamed decodeFunc with
      | Some prim => primDecode prim data p
      | None => None
      end
  | Some codec =>
      match Runtime._decode_varint data p with
      | None => None
      | Some (len, p1) =>
          match Runtime._slice data p1 (p1 + Z.to_nat len)%nat with
          | None => None
          | Some sub =>
              match codecDecode codec sub with
              | None => None
              | Some m => Some (Message m, (p1 + Z.to_nat len)%nat)
              end
          end
      end
  end.

(** What reading a value back takes from outside the fragment: a length
    is written as a [uint64], so it has to fit one; and the codec of the
    nested message, which another contract provides, has to decode what
    it encoded. *)
Definition delegated (nestedCodec : option string) (v : value) : Prop :=
  match nestedCodec, v with
  | Some codec, Message m =>
      forall encoded,
        codecEncode codec m = Some encoded ->
        (Z.of_nat (List.length encoded) < 2 ^ 64)%Z
        /\ codecDecode codec encoded = Some m
  | None, Blob bytes => (Z.of_nat (List.length bytes) < 2 ^ 64)%Z
  | _, _ => True
  end.

(** The members hold values of the types they are declared with. *)
Definition conforms (sc : scope) (st : state) : Prop :=
  (forall x t, varTy sc x = Some t -> inType t (vals st x) = true)
  /\ (forall x t, arrTy sc x = Some t ->
        Forall (fun v => inType t v = true) (arrs st x)).

(** The record of one value under [tag]. *)
Definition fieldBytes (nestedCodec : option string) (encodeFunc : string)
  (tag : Z) (v : value) : option (list Z) :=
  match valueBytes nestedCodec encodeFunc v with
  | Some bytes => Some (List.app (Runtime._encode_key tag) bytes)
  | None => None
  end.

(** The bytes of one map entry, as the protobuf wire format lays it out:
    the key as field 1, the value as field 2; and the record of the entry
    under the map field's tag. *)
Definition mapEntryBytes (keyTag : Z) (keyEncode : string)
  (nestedCodec : option string) (valTag : Z) (valEncode : string)
  (entry : value * value) : option (list Z) :=
  match valueBytes None keyEncode (fst entry),
        valueBytes nestedCodec valEncode (snd entry) with
  | Some keyBytes, Some valBytes =>
      Some (List.app (Runtime._encode_key keyTag)
              (List.app keyBytes
                 (List.app (Runtime._encode_key valTag) valBytes)))
  | _, _ => None
  end.

Definition mapRecord (tag keyTag : Z) (keyEncode : string)
  (nestedCodec : option string) (valTag : Z) (valEncode : string)
  (entry : value * value) : option (list Z) :=
  match mapEntryBytes keyTag keyEncode nestedCodec valTag valEncode entry with
  | Some bytes => Some (delimited tag bytes)
  | None => None
  end.

(** Entering a case at each of the positions [keys], in order: the key
    read there has to be the case's label, and the case runs behind it.
    This is what dispatching on the tag amounts to for the records of one
    field, wherever in a buffer they lie. *)
Fixpoint enterAt (sc : scope) (data : Runtime.Memory) (fuel : nat)
  (c : decodeCase) (keys : list nat) (st : state) : outcome :=
  match keys with
  | [] => Done st
  | q :: rest =>
      orRevert (Runtime._decode_key data q)
        (fun r =>
           if (fst r =? caseTag c)%Z
           then andThen (runCase sc data fuel c (setPos (snd r) st))
                  (enterAt sc data fuel c rest)
           else Reverted)
  end.

(** The bytes of one map entry, from [p] to [end_], read field by field:
    the keys met, in order, and what the entry amounts to -- the position
    reached with the last key and the last value read ([Some]), or an
    entry that cannot be read ([None]): it holds a key other than the two
    it may hold, or a key or a value the runtime reverts on. *)
Inductive EntryScan (data : Runtime.Memory) (end_ : nat)
  (keyTag : Z) (readKey : nat -> option (value * nat))
  (valTag : Z) (readValue : nat -> option (value * nat))
  : nat -> value -> value -> list Z -> option (nat * value * value) -> Prop :=
| scan_end (p : nat) (k v : value) :
    (end_ <= p)%nat ->
    EntryScan data end_ keyTag readKey valTag readValue p k v []
      (Some (p, k, v))
| scan_key (p p1 p2 : nat) (k k' v : value) (tags : list Z)
    (r : option (nat * value * value)) :
    (p < end_)%nat ->
    Runtime._decode_key data p = Some (keyTag, p1) ->
    readKey p1 = Some (k', p2) ->
    EntryScan data end_ keyTag readKey valTag readValue p2 k' v tags r ->
    EntryScan data end_ keyTag readKey valTag readValue p k v
      (keyTag :: tags) r
| scan_value (p p1 p2 : nat) (k v v' : value) (tags : list Z)
    (r : option (nat * value * value)) :
    (p < end_)%nat ->
    valTag <> keyTag ->
    Runtime._decode_key data p = Some (valTag, p1) ->
    readValue p1 = Some (v', p2) ->
    EntryScan data end_ keyTag readKey valTag readValue p2 k v' tags r ->
    EntryScan data end_ keyTag readKey valTag readValue p k v
      (valTag :: tags) r
| scan_unknown (p p1 : nat) (k v : value) (t : Z) :
    (p < end_)%nat ->
    Runtime._decode_key data p = Some (t, p1) ->
    t <> keyTag ->
    t <> valTag ->
    EntryScan data end_ keyTag readKey valTag readValue p k v [t] None
| scan_no_tag (p : nat) (k v : value) :
    (p < end_)%nat ->
    Runtime._decode_key data p = None ->
    EntryScan data end_ keyTag readKey valTag readValue p k v [] None
| scan_no_key (p p1 : nat) (k v : value) :
    (p < end_)%nat ->
    Runtime._decode_key data p = Some (keyTag, p1) ->
    readKey p1 = None ->
    EntryScan data end_ keyTag readKey valTag readValue p k v [keyTag] None
| scan_no_value (p p1 : nat) (k v : value) :
    (p < end_)%nat ->
    valTag <> keyTag ->
    Runtime._decode_key data p = Some (valTag, p1) ->
    readValue p1 = None ->
    EntryScan data end_ keyTag readKey valTag readValue p k v [valTag] None.

End Semantics.

Arguments Num {M} z.
Arguments Flag {M} b.
Arguments Blob {M} bytes.
Arguments Message {M} m.
Arguments inType {M} t v.
Arguments zeroOf {M} t.
Arguments primEncode {M} p v.
Arguments primDecode {M} p data pos.
Arguments Done {M} st.
Arguments Reverted {M}.
Arguments OutOfFuel {M}.
Arguments Rejected {M}.
Arguments mkState {M} pos nums vals arrs bufs.
Arguments pos {M} s.
Arguments nums {M} s _.
Arguments vals {M} s _.
Arguments arrs {M} s _.
Arguments bufs {M} s _.
Arguments setPos {M} p st.
Arguments setNum {M} x z st.
Arguments setVal {M} x v st.
Arguments setArr {M} x l st.
Arguments setBuf {M} x b st.
Arguments andThen {M} o k.
Arguments execSeq {M} run body st.
Arguments loop {M} n cond body st.
Arguments evalOperand {M} st op.
Arguments orRevert {M A} x k.
Arguments orReject {M A} x k.
Arguments exec {M} codecEncode codecDecode data fuel s st.
Arguments run {M} codecEncode codecDecode sc data fuel body st.
Arguments runCase {M} codecEncode codecDecode sc data fuel c st.
Arguments valueBytes {M} codecEncode nestedCodec encodeFunc v.
Arguments readElement {M} codecDecode nestedCodec decodeFunc data p.
Arguments delegated {M} codecEncode codecDecode nestedCodec v.
Arguments conforms {M} sc st.
Arguments fieldBytes {M} codecEncode nestedCodec encodeFunc tag v.
Arguments mapEntryBytes {M} codecEncode keyTag keyEncode nestedCodec valTag
  valEncode entry.
Arguments mapRecord {M} codecEncode tag keyTag keyEncode nestedCodec valTag
  valEncode entry.
Arguments enterAt {M} codecEncode codecDecode sc data fuel c keys st.
Arguments EntryScan {M} data end_ keyTag readKey valTag readValue _ _ _ _ _.
Arguments scan_end {M data end_ keyTag readKey valTag readValue} p k v _.
Arguments scan_key {M data end_ keyTag readKey valTag readValue}
  p p1 p2 k k' v tags r _ _ _ _.
Arguments scan_value {M data end_ keyTag readKey valTag readValue}
  p p1 p2 k v v' tags r _ _ _ _ _.
Arguments scan_unknown {M data end_ keyTag readKey valTag readValue}
  p p1 k v t _ _ _ _.

End Sol.

(** ** The members a fragment meets

    The scope an emitted fragment is checked in holds the member or
    members [genStructMember] declares for the field, with the types it
    prints: one value, an array when the field is repeated, the two
    parallel arrays of a map. *)

Definition typeNamed (r : Js.result string) : option Sol.ty :=
  match r with
  | Js.Ok tyName => Sol.typeOf tyName
  | Js.Throw _ => None
  end.

Definition declareAs
  (declare : string -> Sol.ty -> Sol.scope -> Sol.scope) (x : string)
  (t : option Sol.ty) (sc : Sol.scope) : Sol.scope :=
  match t with
  | Some t => declare x t sc
  | None => sc
  end.

Definition memberScope (field : FieldInfo) : Sol.scope :=
  let solName := snakeToCamel (name field) in
  match mapEntry field with
  | Some me =>
      declareAs Sol.declareArr ("msg." ++ solName ++ "_keys")
        (typeNamed (resolveSolType (keyType me) None))
        (declareAs Sol.declareArr ("msg." ++ solName ++ "_values")
           (typeNamed (resolveSolType (valueType me) (valueTypeName me)))
           Sol.noScope)
  | None =>
      declareAs (if isRepeated field then Sol.declareArr else Sol.declareVar)
        ("msg." ++ solName)
        (typeNamed (resolveSolType (type field) (typeName field)))
        Sol.noScope
  end.

(** ** [names.ts], continued *)

(** [parts[parts.length - 1]] of [fqn.split(".")]. *)
Definition protoNameToSol (fqn : string) : string :=
  last (Js.split "." fqn) "".

(** A name [snakeToCamel] has nothing to do on: no underscore stands
    directly before a lowercase letter. *)
Fixpoint settled (s : string) : bool :=
  match s with
  | EmptyString => true
  | String c rest =>
      negb (Ascii.eqb c "_" && isLowerAt (firstChar rest)) && settled rest
  end.

(** [s.charAt(0).toUpperCase() + s.slice(1)]; as [toUpperCase], exact on
    ASCII names. *)
Definition capitalize (s : string) : string :=
  match s with
  | EmptyString => EmptyString
  | String c rest => String (toUpperCase c) rest
  end.

Definition isNameSeparator (c : ascii) : bool :=
  Ascii.eqb c "_" || Ascii.eqb c "-" || Ascii.eqb c ".".

Definition protoFileToSolFile (protoFile : string) (packageName : string)
  : string :=
  let base := Js.stripSuffix ".proto" protoFile in
  let parts := Js.split "/" base in
  let filename := last parts "" in
  let pascal :=
    Js.join "" (map capitalize (Js.splitBy isNameSeparator filename)) in
  let solBasename := pascal ++ ".pb.sol" in
  match packageName with
  | EmptyString => solBasename
  | _ =>
      let dir := Js.join "/" (Js.split "." packageName) in
      dir ++ "/" ++ solBasename
  end.

(** A package name with a slash for every dot, and whether a name has a
    slash, for comparison with [protoFileToSolFile]. *)
Fixpoint slashesForDots (s : string) : string :=
  match s with
  | EmptyString => EmptyString
  | String c rest =>
      String (if Ascii.eqb c "." then "/"%char else c) (slashesForDots rest)
  end.

Fixpoint hasSlash (s : string) : bool :=
  match s with
  | EmptyString => false
  | String c rest => Ascii.eqb c "/" || hasSlash rest
  end.

(** ** [plugin.ts] *)

(** The decoded request objects; a member the wire left out is [None]. *)
Record FieldDescriptorProto : Type := mkFieldProto {
  fp_name : option string;
  fp_number : option Z;
  fp_label : option Z;
  fp_type : option Z;
  fp_type_name : option string;
  fp_oneof_index : option Z
}.

Record MessageOptions : Type := mkOptions {
  map_entry : option bool
}.

Inductive DescriptorProto : Type :=
| mkDescriptorProto
    (d_name : option string)
    (d_field : option (list FieldDescriptorProto))
    (d_nested_type : option (list DescriptorProto))
    (d_options : option MessageOptions).

Definition d_name (d : DescriptorProto) : option string :=
  match d with mkDescriptorProto n _ _ _ => n end.
Definition d_field (d : DescriptorProto) : option (list FieldDescriptorProto) :=
  match d with mkDescriptorProto _ f _ _ => f end.
Definition d_nested_type (d : DescriptorProto) : option (list DescriptorProto) :=
  match d with mkDescriptorProto _ _ n _ => n end.
Definition d_options (d : DescriptorProto) : option MessageOptions :=
  match d with mkDescriptorProto _ _ _ o => o end.

Record FileDescriptorProto : Type := mkFileProto {
  file_name : option string;
  file_package : option string;
  message_type : option (list DescriptorProto)
}.

Record CodeGeneratorRequest : Type := mkRequest {
  file_to_generate : option (list string);
  parameter : option string;
  proto_file : option (list FileDescriptorProto)
}.

(** The generator's descriptor model. *)
Inductive MessageDescriptor : Type :=
| mkMessage
    (msgName : string)
    (fullName : string)
    (fields : list FieldInfo)
    (nestedMessages : list MessageDescriptor)
    (isMapEntry : bool).

Definition msgName (m : MessageDescriptor) : string :=
  match m with mkMessage n _ _ _ _ => n end.
Definition fullName (m : MessageDescriptor) : string :=
  match m with mkMessage _ fq _ _ _ => fq end.
Definition fields (m : MessageDescriptor) : list FieldInfo :=
  match m with mkMessage _ _ fs _ _ => fs end.
Definition nestedMessages (m : MessageDescriptor) : list MessageDescriptor :=
  match m with mkMessage _ _ _ ns _ => ns end.
Definition isMapEntry (m : MessageDescriptor) : bool :=
  match m with mkMessage _ _ _ _ b => b end.

(** The object literal built for each element of [desc.field]. *)
Definition convertField (f : FieldDescriptorProto) : FieldInfo :=
  {| name := Js.orElse (fp_name f) "";
     number := Js.orElse (fp_number f) 0;
     type := Js.orElse (fp_type f) 0;
     typeName := fp_type_name f;
     label := Js.orElse (fp_label f) 1;
     oneofIndex := fp_oneof_index f;
     mapEntry := None |}.

(** What copying a field amounts to, for comparison with [convertField]:
    every attribute the descriptor hands over arrives in the field built
    from it, and the field has no map metadata. *)
Definition copiedFrom (f : FieldDescriptorProto) (g : FieldInfo) : Prop :=
  (forall n, fp_name f = Some n -> name g = n)
  /\ (forall n, fp_number f = Some n -> number g = n)
  /\ (forall t, fp_type f = Some t -> type g = t)
  /\ typeName g = fp_type_name f
  /\ (forall l, fp_label f = Some l -> label g = l)
  /\ oneofIndex g = fp_oneof_index f
  /\ mapEntry g = None.

(** [desc.options?.map_entry === true]. *)
Definition mapEntryOption (options : option MessageOptions) : bool :=
  match options with
  | Some o =>
      match map_entry o with
      | Some true => true
      | _ => false
      end
  | None => false
  end.

Fixpoint convertDescriptor (desc : DescriptorProto) (parentFqn : string)
  : MessageDescriptor :=
  match desc with
  | mkDescriptorProto d_name d_field d_nested_type d_options =>
      let name := Js.orElse d_name "" in
      let fullName :=
        match parentFqn with
        | EmptyString => name
        | _ => parentFqn ++ "." ++ name
        end in
      let isMapEntry := mapEntryOption d_options in
      let fields := map convertField (Js.orElse d_field []) in
      let nestedMessages :=
        match d_nested_type with
        | Some nested =>
            map (fun nested => convertDescriptor nested fullName) nested
        | None => []
        end in
      mkMessage name fullName fields nestedMessages isMapEntry
  end.

Definition extractMessages (protoFile : FileDescriptorProto)
  (packageName : string) : list MessageDescriptor :=
  map (fun msg => convertDescriptor msg packageName)
      (Js.orElse (message_type protoFile) []).

(** Every field of a descriptor and of the descriptors nested in it. *)
Fixpoint allFields (m : MessageDescriptor) : list FieldInfo :=
  match m with
  | mkMessage _ _ fs nested _ => List.app fs (flat_map allFields nested)
  end.

(** A descriptor and every descriptor nested in it. *)
Fixpoint allMessages (m : MessageDescriptor) : list MessageDescriptor :=
  match m with
  | mkMessage _ _ _ nested _ => m :: flat_map allMessages nested
  end.

(** Message names as protoc hands them over: an identifier has no dot. *)
Fixpoint plainNames (d : DescriptorProto) : bool :=
  match d with
  | mkDescriptorProto n _ nested _ =>
      negb (hasDot (Js.orElse n ""))
      && match nested with
         | Some ns => forallb plainNames ns
         | None => true
         end
  end.

(** The full name of a message called [local] below [scope], as
    [convertDescriptor] builds it. *)
Definition qualified (scope local : string) : string :=
  match scope with
  | EmptyString => local
  | _ => scope ++ "." ++ local
  end.

(** A message whose full name leads back to its own name, and whose nested
    messages are named after it. *)
Definition wellNamed (m : MessageDescriptor) : Prop :=
  resolveSolType 11 (Some ("." ++ fullName m)) = Js.Ok (msgName m)
  /\ protoNameToSol (fullName m) = msgName m
  /\ Forall (fun nested =>
               fullName nested = qualified (fullName m) (msgName nested))
       (nestedMessages m).

(** The reading under test for map fields, in the spec's words
    (section 4.2): a field whose referenced message type is marked
    [isMapEntry] carries [mapEntry] metadata, taken from the two fields
    of that message. *)
Definition references (f : FieldInfo) (m : MessageDescriptor) : bool :=
  match typeName f with
  | Some tn => String.eqb (stripLeadingDot tn) (fullName m)
  | None => false
  end.

Definition entryMetadata (entry : MessageDescriptor) : option MapEntry :=
  match fields entry with
  | [key; value] =>
      Some {| keyType := type key;
              valueType := type value;
              valueTypeName := typeName value |}
  | _ => None
  end.

Definition populatesMapEntries (m : MessageDescriptor) : Prop :=
  forall f entry,
    In f (fields m) ->
    In entry (nestedMessages m) ->
    isMapEntry entry = true ->
    references f entry = true ->
    mapEntry f <> None /\ mapEntry f = entryMetadata entry.

Record OutputFile : Type := mkFile {
  out_name : string;
  out_content : string
}.

Record PluginResult : Type := mkResult {
  files : list OutputFile;
  error : option string
}.

(** What [encodeResponse] hands to the protobuf encoder. *)
Record ResponsePayload : Type := mkPayload {
  supported_features : Z;
  payload_file : list OutputFile;
  payload_error : option string
}.

Definition Buffer : Type := list Byte.byte.

Section Plugin.

(** The collaborators of [plugin.ts] that are not part of it: protobufjs'
    decoder and encoder for the plugin protocol, the text of the runtime
    library ([generateRuntime]) and the message-level emitter
    ([generateSolFile] of [message.ts]), which may throw. *)
Variable decodeRequest : Buffer -> Js.result CodeGeneratorRequest.
Variable encodePayload : ResponsePayload -> Buffer.
Variable generateRuntime : string.
Variable generateSolFile :
  list MessageDescriptor -> string -> Js.result string.

(** The [for ... of protoFiles] loop of [processRequest]; [acc] is the
    local array [files].  A throw leaves the loop and the function. *)
Fixpoint generateEach (filesToGenerate : list string)
  (protoFiles : list FileDescriptorProto) (acc : list OutputFile)
  : Js.result (list OutputFile) :=
  match protoFiles with
  | [] => Js.Ok acc
  | protoFile :: rest =>
      let fileName := Js.orElse (file_name protoFile) "" in
      if negb (existsb (String.eqb fileName) filesToGenerate) then
        generateEach filesToGenerate rest acc
      else
        let messages :=
          extractMessages protoFile (Js.orElse (file_package protoFile) "") in
        match messages with
        | [] => generateEach filesToGenerate rest acc
        | _ =>
            let solFileName :=
              protoFileToSolFile fileName
                (Js.orElse (file_package protoFile) "") in
            solContent <- generateSolFile messages fileName ;;
            generateEach filesToGenerate rest
              (List.app acc [mkFile solFileName solContent])
        end
  end.

(** The same loop described file by file, for comparison: the files it
    passes over, what it emits for one it does not, and the emission of
    all of them, stopping at the first throw. *)
Definition isGenerated (filesToGenerate : list string)
  (protoFile : FileDescriptorProto) : bool :=
  existsb (String.eqb (Js.orElse (file_name protoFile) "")) filesToGenerate
  && match extractMessages protoFile
             (Js.orElse (file_package protoFile) "") with
     | [] => false
     | _ => true
     end.

Definition emitFile (protoFile : FileDescriptorProto)
  : Js.result OutputFile :=
  let fileName := Js.orElse (file_name protoFile) "" in
  let package := Js.orElse (file_package protoFile) "" in
  solContent <- generateSolFile (extractMessages protoFile package) fileName ;;
  Js.Ok (mkFile (protoFileToSolFile fileName package) solContent).

Fixpoint emitAll (protoFiles : list FileDescriptorProto)
  : Js.result (list OutputFile) :=
  match protoFiles with
  | [] => Js.Ok []
  | protoFile :: rest =>
      file <- emitFile protoFile ;;
      files <- emitAll rest ;;
      Js.Ok (file :: files)
  end.

(** Parameter parsing only sets the log level, and logging only writes to
    stderr; neither changes the result. *)
Definition processRequest (stdin : Buffer) : Js.result PluginResult :=
  request <- decodeRequest stdin ;;
  let filesToGenerate := Js.orElse (file_to_generate request) [] in
  let protoFiles := Js.orElse (proto_file request) [] in
  let files := [mkFile "ProtobufRuntime.sol" generateRuntime] in
  files <- generateEach filesToGenerate protoFiles files ;;
  Js.Ok {| files := files; error := None |}.

(** The value of [result] after the [try] / [catch] of [runPlugin]. *)
Definition caughtResult (stdin : Buffer) : PluginResult :=
  match processRequest stdin with
  | Js.Ok result => result
  | Js.Throw err => {| files := []; error := Some (Js.message err) |}
  end.

Definition responsePayload (result : PluginResult) : ResponsePayload :=
  {| supported_features := 1;
     payload_file := map (fun f => mkFile (out_name f) (out_content f))
                         (files result);
     payload_error :=
       if Js.truthy (error result) then error result else None |}.

Definition encodeResponse (result : PluginResult) : Buffer :=
  encodePayload (responsePayload result).

Definition runPlugin (stdin : Buffer) : Buffer :=
  encodeResponse (caughtResult stdin).

End Plugin.

(** ** Sample inputs *)

(** A [group] field: type code 10 has no entry in the table. *)
Definition groupField : FieldInfo :=
  mkField "legacy_group" 3 10 None 1 None None.

(** [message Cart { map<string, int32> items = 1; }] of package [shop],
    as protoc describes it: a repeated field of the synthesized nested
    type [ItemsEntry], whose options mark it a map entry. *)
Definition cartDescriptor : DescriptorProto :=
  mkDescriptorProto (Some "Cart")
    (Some [ mkFieldProto (Some "items") (Some 1) (Some 3) (Some 11)
              (Some ".shop.Cart.ItemsEntry") None ])
    (Some [ mkDescriptorProto (Some "ItemsEntry")
              (Some [ mkFieldProto (Some "key") (Some 1) (Some 1) (Some 9)
                        None None;
                      mkFieldProto (Some "value") (Some 2) (Some 1) (Some 5)
                        None None ])
              None
              (Some (mkOptions (Some true))) ])
    None.

(** The same message with an entry type that lacks its value field: no
    map entry of protoc's, and still a descriptor the plugin can be
    handed. *)
Definition lonelyEntryDescriptor : DescriptorProto :=
  mkDescriptorProto (Some "Cart")
    (Some [ mkFieldProto (Some "items") (Some 1) (Some 3) (Some 11)
              (Some ".shop.Cart.ItemsEntry") None ])
    (Some [ mkDescriptorProto (Some "ItemsEntry")
              (Some [ mkFieldProto (Some "key") (Some 1) (Some 1) (Some 9)
                        None None ])
              None
              (Some (mkOptions (Some true))) ])
    None.

(** A message-typed field, a repeated scalar field and a map field. *)
Definition ownerField : FieldInfo :=
  mkField "owner_info" 2 11 (Some ".shop.v1.Customer") 1 None None.

Definition scoresField : FieldInfo :=
  mkField "scores" 4 5 None 3 None None.

Definition itemsField : FieldInfo :=
  mkField "items" 1 11 (Some ".shop.Cart.ItemsEntry") 3 None
    (Some (mkMapEntry 5 13 None)).

Definition int32Info : SolTypeInfo :=
  mkInfo "int32" Varint "_encode_varint" "_decode_varint" "0".

Definition uint32Info : SolTypeInfo :=
  mkInfo "uint32" Varint "_encode_varint" "_decode_varint" "0".

Definition messageInfo : SolTypeInfo :=
  mkInfo "" LengthDelimited "" "" "".

(** The message field with the first field number whose tag no longer
    fits 32 bits. *)
Definition farField : FieldInfo :=
  mkField "owner_info" 268435456 11 (Some ".shop.v1.Customer") 1 None None.

(** Fields of the same shapes whose members have the type the runtime's
    primitive takes: [repeated sint32 points = 4], [uint64 total = 3],
    [map<uint64, sint32> stock = 5]; and a map with the commonest key
    type, [map<string, string> labels = 6]. *)
Definition pointsField : FieldInfo :=
  mkField "points" 4 17 None 3 None None.

Definition totalField : FieldInfo :=
  mkField "total" 3 4 None 1 None None.

Definition stockField : FieldInfo :=
  mkField "stock" 5 11 (Some ".shop.Cart.StockEntry") 3 None
    (Some (mkMapEntry 4 17 None)).

Definition labelsField : FieldInfo :=
  mkField "labels" 6 11 (Some ".shop.Cart.LabelsEntry") 3 None
    (Some (mkMapEntry 9 9 None)).

(** A singular [uint32] field. *)
Definition ageField : FieldInfo :=
  mkField "user_age" 3 13 None 1 None None.

(** Nested messages that are the bytes their codec writes: a codec that
    copies, and reverts on an empty message. *)
Definition copyEncode (codec : string) (m : list Z) : option (list Z) :=
  match m with
  | [] => None
  | _ => Some m
  end.

Definition copyDecode (codec : string) (sub : list Z) : option (list Z) :=
  match sub with
  | [] => None
  | _ => Some sub
  end.

Definition emptyState : Sol.state (list Z) :=
  Sol.mkState 0 (fun _ => 0) (fun _ => Sol.Num 0) (fun _ => [])
    (fun _ => []).

(** A request for [shop/cart.proto] that also carries a schema file it
    does not ask for, and two message-level emitters that differ on that
    file only. *)
Definition cartFile : FileDescriptorProto :=
  mkFileProto (Some "shop/cart.proto") (Some "shop") (Some [cartDescriptor]).

Definition otherFile : FileDescriptorProto :=
  mkFileProto (Some "other.proto") None (Some [cartDescriptor]).

Definition cartRequest : CodeGeneratorRequest :=
  mkRequest (Some ["shop/cart.proto"]) None (Some [cartFile; otherFile]).

Definition emitName (messages : list MessageDescriptor) (fileName : string)
  : Js.result string :=
  Js.Ok fileName.

Definition emitNameButOther (messages : list MessageDescriptor)
  (fileName : string) : Js.result string :=
  if String.eqb fileName "other.proto"
  then Js.Throw (Js.Error "not generated")
  else Js.Ok fileName.

(** An emitter that throws an exception without a message, and a stand-in
    for protobufjs' encoder that keeps what tells responses apart first:
    whether an error is set, and one byte per file. *)
Definition emitThrowsUnnamed (messages : list MessageDescriptor)
  (fileName : string) : Js.result string :=
  Js.Throw (Js.Error "").

Definition summaryEncoder (payload : ResponsePayload) : Buffer :=
  (match payload_error payload with
   | Some _ => Byte.x01
   | None => Byte.x00
   end)
  :: map (fun _ => Byte.x02) (payload_file payload).

(* ================================================================== *)
(** * Part II: theorems                                                *)
(* ================================================================== *)

(** ** Bit arithmetic of tags *)

Lemma toInt32_small (z : Z) :
  - 2 ^ 31 <= z < 2 ^ 31 -> Js.toInt32 z = z.
Proof.
  intros H. unfold Js.toInt32.
  rewrite Z.mod_small; lia.
Qed.

Lemma toInt32_mod8 (z : Z) : Js.toInt32 z mod 8 = z mod 8.
Proof.
  unfold Js.toInt32.
  replace (2 ^ 32) with (8 * 2 ^ 29) by reflexivity.
  replace (2 ^ 31) with (8 * 2 ^ 28) by reflexivity.
  remember (2 ^ 29) as k eqn:Hk.
  remember (2 ^ 28) as j eqn:Hj.
  assert (Hkpos : 0 < k) by (subst k; reflexivity).
  rewrite <- (Zminus_mod_idemp_l _ (8 * j)).
  rewrite Z.rem_mul_r by lia.
  rewrite (Z.mul_comm 8 (_ mod k)), Z_mod_plus_full, Z.mod_mod by lia.
  rewrite Zminus_mod_idemp_l.
  replace (z + 8 * j - 8 * j) with z by lia.
  reflexivity.
Qed.

Lemma land_7_mod8 (z : Z) : Z.land z 7 = z mod 8.
Proof.
  change 7 with (Z.ones 3). rewrite Z.land_ones by lia. reflexivity.
Qed.

Lemma wireCode_range (w : WireType) : 0 <= wireCode w < 8.
Proof. destruct w; simpl; lia. Qed.

Lemma wireCode_in_categories (w : WireType) :
  In (wireCode w) [0; 1; 2; 5].
Proof. destruct w; simpl; auto. Qed.

Lemma lor_mul8_small (a c : Z) :
  0 <= c < 8 -> Z.lor (a * 8) c = a * 8 + c.
Proof.
  intros Hc.
  assert (Hland : Z.land (a * 8) c = 0).
  { apply Z.bits_inj'. intros i Hi. rewrite Z.land_spec, Z.bits_0.
    change 8 with (2 ^ 3). rewrite <- Z.shiftl_mul_pow2 by lia.
    destruct (Z.ltb_spec i 3) as [Hlt | Hge].
    - rewrite Z.shiftl_spec_low by lia. reflexivity.
    - replace (Z.testbit c i) with false; [apply andb_false_r |].
      symmetry. destruct (Z.eq_dec c 0) as [-> | Hnz]; [apply Z.bits_0 |].
      apply Z.bits_above_log2; [lia |].
      apply Z.log2_lt_pow2; [lia |].
      apply Z.lt_le_trans with (2 ^ 3); [simpl; lia |].
      apply Z.pow_le_mono_r; lia. }
  pose proof (Z.add_lor_land (a * 8) c) as Hadd.
  rewrite Hland in Hadd. lia.
Qed.

(** The three low bits of a tag are the wire category, whatever the field
    number. *)
Lemma fieldTag_low_bits (n : Z) (w : WireType) :
  Js.and (fieldTag n w) 7 = wireCode w.
Proof.
  pose proof (wireCode_range w) as Hw.
  unfold Js.and, fieldTag, Js.or, Js.shl.
  change (Z.land 3 31) with 3.
  rewrite (toInt32_small 7) by (simpl; lia).
  rewrite land_7_mod8, toInt32_mod8.
  rewrite <- land_7_mod8, Z.land_lor_distr_l, !land_7_mod8.
  rewrite !toInt32_mod8.
  rewrite Z.shiftl_mul_pow2 by lia. change (2 ^ 3) with 8.
  rewrite Z.mod_mul by lia.
  rewrite Z.mod_small by lia. apply Z.lor_0_l.
Qed.

(** Below 2^28 the shift does not overflow: the tag is [8 n + c] and both
    components are read back by [>> 3] and [& 7]. *)
Lemma fieldTag_below_2_28 (n : Z) (w : WireType) :
  0 <= n < 2 ^ 28 ->
  fieldTag n w = n * 8 + wireCode w
  /\ Js.sar (fieldTag n w) 3 = n
  /\ Js.and (fieldTag n w) 7 = wireCode w.
Proof.
  intros Hn.
  pose proof (wireCode_range w) as Hw.
  assert (H28 : 2 ^ 28 = 268435456) by reflexivity.
  assert (H31 : 2 ^ 31 = 2147483648) by reflexivity.
  assert (Htag : fieldTag n w = n * 8 + wireCode w).
  { unfold fieldTag, Js.or, Js.shl.
    change (Z.land 3 31) with 3.
    rewrite (toInt32_small n) by lia.
    rewrite Z.shiftl_mul_pow2 by lia. change (2 ^ 3) with 8.
    rewrite (toInt32_small (n * 8)) by lia.
    rewrite (toInt32_small (n * 8)) by lia.
    rewrite (toInt32_small (wireCode w)) by lia.
    apply lor_mul8_small; assumption. }
  split; [exact Htag |]. split; [| apply fieldTag_low_bits].
  rewrite Htag. unfold Js.sar. change (Z.land 3 31) with 3.
  rewrite toInt32_small by lia.
  rewrite Z.shiftr_div_pow2 by lia. change (2 ^ 3) with 8.
  symmetry. apply Z.div_unique with (r := wireCode w); lia.
Qed.

(** X1.  Field numbers below 2^28 round-trip through the tag:
    [fieldTag] computes [(n << 3) | c] without overflow, and [>> 3] and
    [& 7] give [n] and [c] back. *)
Theorem fieldTag_roundtrips_below_overflow (n : Z) (w : WireType) :
  0 <= n < 2 ^ 28 ->
  In (wireCode w) [0; 1; 2; 5]
  /\ fieldTag n w = Z.lor (Z.shiftl n 3) (wireCode w)
  /\ (Js.sar (fieldTag n w) 3, Js.and (fieldTag n w) 7) = (n, wireCode w).
Proof.
  intros Hn.
  destruct (fieldTag_below_2_28 n w Hn) as (Htag & Hnum & Hcat).
  split; [apply wireCode_in_categories |]. split.
  - rewrite Htag, Z.shiftl_mul_pow2 by lia. change (2 ^ 3) with 8.
    symmetry. apply lor_mul8_small. apply wireCode_range.
  - rewrite Hnum, Hcat. reflexivity.
Qed.

Lemma fieldTag_roundtrips_witness :
  0 <= 150 < 2 ^ 28
  /\ (Js.sar (fieldTag 150 LengthDelimited) 3,
      Js.and (fieldTag 150 LengthDelimited) 7) = (150, 2).
Proof.
  assert (Hn : 0 <= 150 < 2 ^ 28) by (split; [lia | reflexivity]).
  split; [exact Hn |].
  exact (proj2 (proj2 (fieldTag_roundtrips_below_overflow 150 LengthDelimited
                         Hn))).
Defined.

(** C1, evaluated where it breaks.  Field number 2^28 = 268435456 is a
    legal protobuf field number (the maximum is 2^29 - 1), yet
    [268435456 << 3] overflows the 32-bit result of JavaScript's shift:
    the tag comes out negative, [tag >> 3] does not give the field number
    back, and the emitted key literal is ["0x-80000000"]. *)
Theorem fieldTag_wraps_at_2_28 :
  fieldTag 268435456 Varint = -2147483648
  /\ Js.sar (fieldTag 268435456 Varint) 3 = -268435456
  /\ Js.and (fieldTag 268435456 Varint) 7 = 0
  /\ "0x" ++ Js.toString16 (fieldTag 268435456 Varint) = "0x-80000000".
Proof. repeat split; vm_compute; reflexivity. Qed.

(** ** [resolveSolType] *)

Lemma resolveSolType_unsupported (t : Z) (tn : option string) :
  PROTO_TYPE_MAP t = None ->
  resolveSolType t tn =
    Js.Throw (Js.Error ("Unsupported protobuf field type: " ++ Js.toString t)).
Proof.
  intros Hnone. unfold resolveSolType.
  destruct (Z.eqb_spec t 11) as [-> | Hne].
  - discriminate Hnone.
  - simpl. rewrite Hnone. reflexivity.
Qed.

(** [resolveSolType] throws exactly for the type codes that have no table
    entry. *)
Lemma resolveSolType_returned (t : Z) (tn : option string) :
  Js.returned (resolveSolType t tn) =
    match PROTO_TYPE_MAP t with Some _ => true | None => false end.
Proof.
  unfold resolveSolType.
  destruct (Z.eqb_spec t 11) as [-> | Hne].
  - destruct (Js.truthy tn); reflexivity.
  - simpl. destruct (PROTO_TYPE_MAP t); reflexivity.
Qed.

(** C9.  A message-typed field (type 11) whose [typeName] is absent or
    empty resolves to the empty string, the table entry's [solType]; and
    [resolveSolType] throws exactly for the type codes that have no table
    entry. *)
Theorem resolveSolType_message_without_name :
  resolveSolType 11 None = Js.Ok ""
  /\ resolveSolType 11 (Some "") = Js.Ok ""
  /\ (forall t tn,
        Js.returned (resolveSolType t tn) =
          match PROTO_TYPE_MAP t with Some _ => true | None => false end)
  /\ (forall t tn,
        match PROTO_TYPE_MAP t with
        | Some _ => True
        | None =>
            resolveSolType t tn =
              Js.Throw (Js.Error ("Unsupported protobuf field type: "
                                  ++ Js.toString t))
        end).
Proof.
  split; [reflexivity |]. split; [reflexivity |].
  split; [exact resolveSolType_returned |].
  intros t tn. destruct (PROTO_TYPE_MAP t) eqn:Hinfo; [exact I |].
  apply resolveSolType_unsupported. exact Hinfo.
Qed.

(** ** [snakeToCamel] *)

Lemma isLower_not_underscore (c : ascii) :
  isLower c = true -> Ascii.eqb c "_" = false.
Proof.
  intros Hl. destruct (Ascii.eqb_spec c "_") as [-> | Hne]; [| reflexivity].
  discriminate Hl.
Qed.

Lemma toUpperCase_lower (c : ascii) :
  isLower c = true -> toUpperCase c = ascii_of_nat (nat_of_ascii c - 32).
Proof. intros Hl. unfold toUpperCase. rewrite Hl. reflexivity. Qed.

Lemma snakeToCamel_match (d : ascii) (rest : string) :
  isLower d = true ->
  snakeToCamel (String "_" (String d rest)) =
    String (ascii_of_nat (nat_of_ascii d - 32)) (snakeToCamel rest).
Proof.
  intros Hd. simpl. rewrite Hd, (toUpperCase_lower d Hd). reflexivity.
Qed.

Lemma snakeToCamel_lone_underscore (rest : string) :
  isLowerAt (firstChar rest) = false ->
  snakeToCamel (String "_" rest) = String "_" (snakeToCamel rest).
Proof.
  intros Hrest. destruct rest as [| d rest']; [reflexivity |].
  simpl in Hrest. simpl. rewrite Hrest. reflexivity.
Qed.

Lemma snakeToCamel_other (c : ascii) (rest : string) :
  Ascii.eqb c "_" = false ->
  snakeToCamel (String c rest) = String c (snakeToCamel rest).
Proof. intros Hc. simpl. rewrite Hc. reflexivity. Qed.

Lemma camelFrom_cons (prev : option ascii) (c : ascii) (rest : string) :
  camelFrom prev (String c rest) =
    camelChar prev c (firstChar rest) ++ camelFrom (Some c) rest.
Proof. reflexivity. Qed.

(** The scan and the position-wise reading agree from any position that
    is not the letter of a match already consumed. *)
Lemma camelFrom_scan (n : nat) :
  forall (s : string) (prev : option ascii),
    (String.length s <= n)%nat ->
    isUnderscore prev && isLowerAt (firstChar s) = false ->
    camelFrom prev s = snakeToCamel s.
Proof.
  induction n as [| n IH]; intros s prev Hlen Hprev.
  - destruct s; [reflexivity | simpl in Hlen; lia].
  - destruct s as [| c rest]; [reflexivity |].
    simpl in Hlen. rewrite camelFrom_cons. unfold camelChar.
    destruct (Ascii.eqb c "_") eqn:Hc.
    + (* an underscore *)
      apply Ascii.eqb_eq in Hc. subst c.
      destruct (isLowerAt (firstChar rest)) eqn:Hnext.
      * (* the pair is a match: the letter is uppercased next *)
        destruct rest as [| d rest']; [discriminate Hnext |].
        simpl in Hnext.
        rewrite (snakeToCamel_match d rest' Hnext).
        rewrite camelFrom_cons. unfold camelChar.
        rewrite (isLower_not_underscore d Hnext), Hnext.
        simpl. f_equal.
        apply IH; [simpl in Hlen; lia |].
        simpl. rewrite (isLower_not_underscore d Hnext). reflexivity.
      * (* the underscore stays *)
        rewrite (snakeToCamel_lone_underscore rest Hnext).
        simpl. f_equal.
        apply IH; [lia |].
        simpl. exact Hnext.
    + (* any other character *)
      rewrite (snakeToCamel_other c rest Hc).
      assert (Hkeep : isLower c && isUnderscore prev = false).
      { rewrite andb_comm. exact Hprev. }
      simpl. rewrite Hkeep. simpl. f_equal.
      apply IH; [lia |].
      simpl. rewrite Hc. reflexivity.
Qed.

(** C10.  [snakeToCamel] is the position-wise conversion: a character is
    uppercased only when it is a lowercase ASCII letter right after an
    underscore, and that underscore is removed; an underscore followed by
    anything else (a digit, an uppercase letter, another underscore, the
    end of the name) stays, as does every other character. *)
Theorem snakeToCamel_positionwise :
  (forall name, snakeToCamel name = camelFrom None name)
  /\ (forall d rest,
        snakeToCamel (String "_" (String d rest)) =
          if isLower d
          then String (ascii_of_nat (nat_of_ascii d - 32)) (snakeToCamel rest)
          else String "_" (snakeToCamel (String d rest)))
  /\ snakeToCamel "_" = "_"
  /\ snakeToCamel "field_1" = "field_1"
  /\ snakeToCamel "a__b" = "a_B".
Proof.
  split.
  { intros name. symmetry.
    apply (camelFrom_scan (String.length name)); [lia | reflexivity]. }
  split.
  { intros d rest. destruct (isLower d) eqn:Hd.
    - apply snakeToCamel_match; exact Hd.
    - apply snakeToCamel_lone_underscore. exact Hd. }
  repeat split; reflexivity.
Qed.

(** ** The emitted text is the printed syntax *)

Lemma append_assoc (a b c : string) : (a ++ b) ++ c = a ++ (b ++ c).
Proof.
  induction a as [| x a IH]; simpl; [reflexivity | rewrite IH; reflexivity].
Qed.

(** Both sides are concatenations of the same pieces, grouped
    differently. *)
Lemma lines_eq (a b : string) (l m : list string) :
  a = b -> l = m -> cons a l = cons b m.
Proof. intros -> ->. reflexivity. Qed.

Ltac same_text :=
  cbv - [String.append String.concat Js.toString Js.toString16 fieldTag
         codecLibName snakeToCamel];
  try (apply (f_equal (@Js.Ok string)));
  apply (f_equal (String.concat _));
  repeat (apply lines_eq;
          [first [reflexivity | rewrite ?append_assoc; reflexivity] |]);
  reflexivity.

Lemma genScalarDecode_text (solName : string) (info : SolTypeInfo) (tag : Z) :
  genScalarDecode solName info tag =
    Sol.renderCase (Sol.scalarDecode solName (decodeFunc info) tag).
Proof. same_text. Qed.

Lemma genMessageDecode_text (field : FieldInfo) (solName : string) (tag : Z) :
  genMessageDecode field solName tag =
    (resolved <- resolveSolType (type field) (typeName field) ;;
     Js.Ok (Sol.renderCase
              (Sol.messageDecode solName (codecLibName resolved) tag))).
Proof.
  unfold genMessageDecode.
  destruct (resolveSolType (type field) (typeName field)) as [resolved | e];
    [| reflexivity].
  cbn [Js.bind]. same_text.
Qed.

Lemma genRepeatedDecode_text (field : FieldInfo) (solName : string)
  (info : SolTypeInfo) (tag : Z) :
  genRepeatedDecode field solName info tag =
    (resolved <- resolveSolType (type field) (typeName field) ;;
     Js.Ok (Sol.renderCase
              (if isMessage field
               then Sol.repeatedMessageDecode solName (codecLibName resolved)
                      tag
               else Sol.repeatedScalarDecode solName resolved
                      (decodeFunc info) tag))).
Proof.
  unfold genRepeatedDecode.
  destruct (isMessage field);
    (destruct (resolveSolType (type field) (typeName field))
       as [resolved | e]; [| reflexivity]);
    cbn [Js.bind]; same_text.
Qed.

Lemma genScalarEncode_text (solName : string) (info : SolTypeInfo) (tag : Z) :
  genScalarEncode solName info ("0x" ++ Js.toString16 tag) =
    Sol.renderEncode (Sol.scalarEncode solName (encodeFunc info) tag).
Proof. same_text. Qed.

Lemma genMessageEncode_text (field : FieldInfo) (solName : string) (tag : Z) :
  genMessageEncode field solName ("0x" ++ Js.toString16 tag) =
    (resolved <- resolveSolType (type field) (typeName field) ;;
     Js.Ok (Sol.renderEncode
              (Sol.messageEncode solName (codecLibName resolved) tag))).
Proof.
  unfold genMessageEncode.
  destruct (resolveSolType (type field) (typeName field)) as [resolved | e];
    [| reflexivity].
  cbn [Js.bind]. same_text.
Qed.

Lemma genRepeatedEncode_text (field : FieldInfo) (solName : string)
  (info : SolTypeInfo) (tag : Z) :
  genRepeatedEncode field solName info ("0x" ++ Js.toString16 tag) =
    if isMessage field then
      resolved <- resolveSolType (type field) (typeName field) ;;
      Js.Ok (Sol.renderEncode
               (Sol.repeatedMessageEncode solName (codecLibName resolved) tag))
    else
      Js.Ok (Sol.renderEncode
               (Sol.repeatedScalarEncode solName (encodeFunc info) tag)).
Proof.
  unfold genRepeatedEncode.
  destruct (isMessage field).
  - destruct (resolveSolType (type field) (typeName field))
      as [resolved | e]; [| reflexivity].
    cbn [Js.bind]. same_text.
  - cbn [Js.bind]. same_text.
Qed.

Lemma resolveSolType_supported (t : Z) (tn : option string)
  (info : SolTypeInfo) :
  PROTO_TYPE_MAP t = Some info ->
  exists resolved, resolveSolType t tn = Js.Ok resolved.
Proof.
  intros Hinfo.
  pose proof (resolveSolType_returned t tn) as Hret. rewrite Hinfo in Hret.
  destruct (resolveSolType t tn) as [resolved | e];
    [exists resolved; reflexivity | discriminate Hret].
Qed.

Lemma genMapEncode_text (field : FieldInfo) (tag : Z)
  (me : MapEntry) (keyInfo valInfo : SolTypeInfo) :
  mapEntry field = Some me ->
  PROTO_TYPE_MAP (keyType me) = Some keyInfo ->
  PROTO_TYPE_MAP (valueType me) = Some valInfo ->
  exists valSol,
    resolveSolType (valueType me) (valueTypeName me) = Js.Ok valSol
    /\ genMapEncode field ("0x" ++ Js.toString16 tag) =
         Js.Ok (Sol.renderEncode
           (Sol.mapEncode (snakeToCamel (name field))
              (fieldTag 1 (wireType keyInfo)) (encodeFunc keyInfo)
              (if (valueType me =? 11)%Z
               then Some (codecLibName valSol) else None)
              (if (valueType me =? 11)%Z
               then fieldTag 2 LengthDelimited
               else fieldTag 2 (wireType valInfo))
              (encodeFunc valInfo) tag)).
Proof.
  intros Hme Hk Hv.
  destruct (resolveSolType_supported _ (valueTypeName me) _ Hv)
    as [valSol Hvs].
  exists valSol. split; [exact Hvs |].
  unfold genMapEncode. rewrite Hme, Hk, Hv. cbn [Js.bind].
  destruct (valueType me =? 11)%Z.
  - rewrite ?Hvs. cbn [Js.bind]. same_text.
  - cbn [Js.bind]. same_text.
Qed.

Lemma genMapDecode_text (field : FieldInfo) (solName : string) (tag : Z)
  (me : MapEntry) (keyInfo valInfo : SolTypeInfo) :
  mapEntry field = Some me ->
  PROTO_TYPE_MAP (keyType me) = Some keyInfo ->
  PROTO_TYPE_MAP (valueType me) = Some valInfo ->
  exists keySol valSol,
    resolveSolType (keyType me) None = Js.Ok keySol
    /\ resolveSolType (valueType me) (valueTypeName me) = Js.Ok valSol
    /\ genMapDecode field solName tag =
         Js.Ok (Sol.renderCase
           (Sol.mapDecode solName keySol valSol
              (fieldTag 1 (wireType keyInfo)) (decodeFunc keyInfo)
              (if (valueType me =? 11)%Z
               then Some (codecLibName valSol) else None)
              (if (valueType me =? 11)%Z
               then fieldTag 2 LengthDelimited
               else fieldTag 2 (wireType valInfo))
              (decodeFunc valInfo) tag)).
Proof.
  intros Hme Hk Hv.
  destruct (resolveSolType (keyType me) None) as [keySol | e] eqn:Hks.
  2:{ pose proof (resolveSolType_returned (keyType me) None) as Hret.
      rewrite Hks, Hk in Hret. discriminate Hret. }
  destruct (resolveSolType (valueType me) (valueTypeName me))
    as [valSol | e] eqn:Hvs.
  2:{ pose proof (resolveSolType_returned (valueType me) (valueTypeName me))
        as Hret.
      rewrite Hvs, Hv in Hret. discriminate Hret. }
  exists keySol, valSol. split; [reflexivity |]. split; [reflexivity |].
  unfold genMapDecode. rewrite Hme, Hk, Hv, Hks, Hvs. cbn [Js.bind].
  destruct (valueType me =? 11)%Z.
  - cbn [Js.bind]. same_text.
  - cbn [Js.bind]. same_text.
Qed.

(** ** The nested codec's name *)

Lemma split_without_dot (s : string) :
  hasDot s = false -> Js.split "." s = [s].
Proof.
  unfold Js.split. induction s as [| c rest IH]; intros Hdot; [reflexivity |].
  simpl in Hdot. apply orb_false_elim in Hdot as [Hc Hrest].
  simpl. rewrite Hc, (IH Hrest). reflexivity.
Qed.

Lemma split_with_dot (s : string) :
  hasDot s = true -> exists h a t, Js.split "." s = h :: a :: t.
Proof.
  unfold Js.split. induction s as [| c rest IH]; intros Hdot;
    [discriminate Hdot |].
  simpl in Hdot. simpl.
  destruct (Ascii.eqb c ".") eqn:Hc.
  - destruct rest as [| d rest'].
    + exists "", "", []. reflexivity.
    + destruct (Js.splitBy (fun c => Ascii.eqb c ".") (String d rest'))
        as [| a t] eqn:Hs.
      * simpl in Hs. destruct (Ascii.eqb d "."); [discriminate Hs |].
        destruct (Js.splitBy (fun c => Ascii.eqb c ".") rest');
          discriminate Hs.
      * exists "", a, t. reflexivity.
  - simpl in Hdot. destruct (IH Hdot) as (h & a & t & Hs).
    rewrite Hs. exists (String c h), a, t. reflexivity.
Qed.

Lemma lastSegment_cons (c : ascii) (rest : string) :
  lastSegment (String c rest) =
    if hasDot (String c rest) then lastSegment rest else String c rest.
Proof. reflexivity. Qed.

Lemma last_split_is_lastSegment (s : string) :
  last (Js.split "." s) "" = lastSegment s.
Proof.
  induction s as [| c rest IH]; [reflexivity |].
  rewrite lastSegment_cons.
  destruct (hasDot (String c rest)) eqn:Hdot.
  - rewrite <- IH.
    unfold Js.split. simpl Js.splitBy.
    destruct (Ascii.eqb c ".") eqn:Hc.
    + fold (Js.split "." rest).
      destruct (Js.split "." rest) as [| a t] eqn:Hs; [| reflexivity].
      destruct (hasDot rest) eqn:Hr.
      * destruct (split_with_dot rest Hr) as (h & a & t & Hs').
        rewrite Hs in Hs'. discriminate Hs'.
      * rewrite (split_without_dot rest Hr) in Hs. discriminate Hs.
    + simpl in Hdot. rewrite Hc in Hdot. simpl in Hdot.
      destruct (split_with_dot rest Hdot) as (h & a & t & Hs).
      fold (Js.split "." rest). rewrite Hs. reflexivity.
  - rewrite (split_without_dot _ Hdot). reflexivity.
Qed.

Lemma lastSegment_stripLeadingDot (s : string) :
  lastSegment (stripLeadingDot s) = lastSegment s.
Proof.
  destruct s as [| c rest]; [reflexivity |].
  unfold stripLeadingDot.
  destruct c as [[] [] [] [] [] [] [] []]; reflexivity.
Qed.

(** For a message-typed field the resolved name is the last segment of
    the referenced name (the empty name when none is given). *)
Lemma resolveSolType_message (typeName : option string) :
  resolveSolType 11 typeName = Js.Ok (lastSegment (Js.orElse typeName "")).
Proof.
  unfold resolveSolType. simpl andb.
  destruct typeName as [[| c rest] |]; try reflexivity.
  cbn [Js.truthy Js.orElse]. cbv iota.
  rewrite last_split_is_lastSegment, lastSegment_stripLeadingDot.
  reflexivity.
Qed.

(** What [lastSegment] returns is the part of the name after its last
    dot: it has no dot, and what precedes it is empty or ends in a dot. *)
Lemma lastSegment_after_last_dot (s : string) :
  hasDot (lastSegment s) = false
  /\ exists before,
       s = before ++ lastSegment s
       /\ (before = "" \/ exists b, before = b ++ ".").
Proof.
  induction s as [| c rest (IHdot & before & IHeq & IHbefore)].
  - split; [reflexivity |]. exists "". split; [reflexivity | left; reflexivity].
  - rewrite lastSegment_cons.
    destruct (hasDot (String c rest)) eqn:Hdot.
    + split; [exact IHdot |].
      exists (String c before). split.
      * simpl. rewrite <- IHeq. reflexivity.
      * right. destruct IHbefore as [-> | (b & ->)].
        -- simpl in IHeq. simpl in Hdot.
           destruct (Ascii.eqb_spec c ".") as [-> | Hne].
           ++ exists "". reflexivity.
           ++ simpl in Hdot. rewrite IHeq, IHdot in Hdot. discriminate Hdot.
        -- exists (String c b). reflexivity.
    + split; [exact Hdot |].
      exists "". split; [reflexivity | left; reflexivity].
Qed.

(** ** Names of variables *)

Lemma length_append (a b : string) :
  String.length (a ++ b) = (String.length a + String.length b)%nat.
Proof.
  induction a as [| c a IH]; simpl; [reflexivity | rewrite IH; reflexivity].
Qed.

Lemma eqb_length_neq (a b : string) :
  String.length a <> String.length b -> String.eqb a b = false.
Proof.
  intros Hlen. apply String.eqb_neq. intros ->. apply Hlen. reflexivity.
Qed.

Lemma update_same {A : Type} (m : string -> A) (x : string) (a : A) :
  Sol.update m x a x = a.
Proof. unfold Sol.update. rewrite String.eqb_refl. reflexivity. Qed.

Lemma update_other {A : Type} (m : string -> A) (x y : string) (a : A) :
  String.eqb x y = false -> Sol.update m x a y = m y.
Proof. intros Hxy. unfold Sol.update. rewrite Hxy. reflexivity. Qed.

Lemma encoded_is_not_buf (solName : string) :
  String.eqb (solName ++ "_encoded") "buf" = false.
Proof.
  apply eqb_length_neq. rewrite length_append. simpl. lia.
Qed.

Lemma buf_is_not_encoded (solName : string) :
  String.eqb "buf" (solName ++ "_encoded") = false.
Proof.
  apply eqb_length_neq. rewrite length_append. simpl. lia.
Qed.

(** ** The statements printed for each kind of field *)

Lemma resolveSolType_primitive (t : Z) (tn : option string)
  (info : SolTypeInfo) :
  t <> 11 -> PROTO_TYPE_MAP t = Some info ->
  resolveSolType t tn = Js.Ok (solType info).
Proof.
  intros Hne Hinfo. unfold resolveSolType.
  destruct (Z.eqb_spec t 11) as [Heq | _]; [contradiction |].
  simpl. rewrite Hinfo. reflexivity.
Qed.

Lemma resolveSolType_resolvedType (t : Z) (tn : option string)
  (info : SolTypeInfo) :
  PROTO_TYPE_MAP t = Some info ->
  resolveSolType t tn = Js.Ok (resolvedType t tn info).
Proof.
  intros Hinfo. unfold resolvedType.
  destruct (Z.eqb_spec t 11) as [-> | Hne].
  - apply resolveSolType_message.
  - apply resolveSolType_primitive; assumption.
Qed.

Lemma resolveSolType_unnamed (t : Z) (info : SolTypeInfo) :
  PROTO_TYPE_MAP t = Some info ->
  resolveSolType t None = Js.Ok (solType info).
Proof.
  intros Hinfo. unfold resolveSolType. simpl Js.truthy.
  rewrite andb_false_r, Hinfo. reflexivity.
Qed.

(** The statements printed for a map field. *)
Lemma genFieldEncode_map_text (field : FieldInfo) (me : MapEntry)
  (info keyInfo valInfo : SolTypeInfo) :
  mapEntry field = Some me ->
  PROTO_TYPE_MAP (type field) = Some info ->
  PROTO_TYPE_MAP (keyType me) = Some keyInfo ->
  PROTO_TYPE_MAP (valueType me) = Some valInfo ->
  genFieldEncode field =
    Js.Ok (Sol.renderEncode
      (Sol.mapEncode (snakeToCamel (name field))
         (fieldTag 1 (wireType keyInfo)) (encodeFunc keyInfo)
         (nestedCodecOf (valueType me) (valueTypeName me))
         (fieldTag 2 (wireType valInfo)) (encodeFunc valInfo)
         (fieldTag (number field) LengthDelimited))).
Proof.
  intros Hme Hinfo Hk Hv.
  unfold genFieldEncode. rewrite Hinfo, Hme.
  destruct (genMapEncode_text field (fieldTag (number field) LengthDelimited)
              me keyInfo valInfo Hme Hk Hv) as (valSol & Hvs & Htext).
  rewrite Htext. unfold nestedCodecOf.
  destruct (Z.eqb_spec (valueType me) 11) as [H11 | Hne]; [| reflexivity].
  rewrite H11 in Hv, Hvs. injection Hv as <-.
  rewrite resolveSolType_message in Hvs. injection Hvs as <-.
  reflexivity.
Qed.

(** The case printed for a map field. *)
Lemma genFieldDecode_map_text (field : FieldInfo) (me : MapEntry)
  (info keyInfo valInfo : SolTypeInfo) :
  mapEntry field = Some me ->
  PROTO_TYPE_MAP (type field) = Some info ->
  PROTO_TYPE_MAP (keyType me) = Some keyInfo ->
  PROTO_TYPE_MAP (valueType me) = Some valInfo ->
  genFieldDecode field =
    Js.Ok (Sol.renderCase
      (Sol.mapDecode (snakeToCamel (name field)) (solType keyInfo)
         (resolvedType (valueType me) (valueTypeName me) valInfo)
         (fieldTag 1 (wireType keyInfo)) (decodeFunc keyInfo)
         (nestedCodecOf (valueType me) (valueTypeName me))
         (fieldTag 2 (wireType valInfo)) (decodeFunc valInfo)
         (fieldTag (number field) LengthDelimited))).
Proof.
  intros Hme Hinfo Hk Hv.
  unfold genFieldDecode. rewrite Hinfo, Hme.
  destruct (genMapDecode_text field (snakeToCamel (name field))
              (fieldTag (number field) LengthDelimited)
              me keyInfo valInfo Hme Hk Hv)
    as (keySol & valSol & Hks & Hvs & Htext).
  rewrite Htext.
  rewrite (resolveSolType_unnamed _ keyInfo Hk) in Hks. injection Hks as <-.
  rewrite (resolveSolType_resolvedType _ _ valInfo Hv) in Hvs.
  injection Hvs as <-.
  unfold nestedCodecOf, resolvedType.
  destruct (Z.eqb_spec (valueType me) 11) as [H11 | Hne]; [| reflexivity].
  rewrite H11 in Hv. injection Hv as <-. reflexivity.
Qed.

(** The case printed for a repeated field. *)
Lemma genFieldDecode_repeated_text (field : FieldInfo) (info : SolTypeInfo) :
  isRepeated field = true ->
  mapEntry field = None ->
  PROTO_TYPE_MAP (type field) = Some info ->
  genFieldDecode field =
    Js.Ok (Sol.renderCase
      (Sol.repeatedDecode (snakeToCamel (name field)) (solType info)
         (nestedCodecOf (type field) (typeName field)) (decodeFunc info)
         (fieldTag (number field) (wireType info)))).
Proof.
  intros Hrep Hmap Hinfo.
  unfold genFieldDecode. rewrite Hinfo, Hmap, Hrep.
  rewrite genRepeatedDecode_text.
  unfold isMessage, nestedCodecOf, Sol.repeatedDecode.
  destruct (Z.eqb_spec (type field) 11) as [H11 | Hne].
  - rewrite H11, resolveSolType_message. reflexivity.
  - rewrite (resolveSolType_primitive _ _ info Hne Hinfo). reflexivity.
Qed.

Lemma genFieldEncode_repeated_text (field : FieldInfo) (info : SolTypeInfo) :
  isRepeated field = true ->
  mapEntry field = None ->
  PROTO_TYPE_MAP (type field) = Some info ->
  genFieldEncode field =
    Js.Ok (Sol.renderEncode
      (Sol.repeatedEncode (snakeToCamel (name field))
         (nestedCodecOf (type field) (typeName field)) (encodeFunc info)
         (fieldTag (number field) (wireType info)))).
Proof.
  intros Hrep Hmap Hinfo.
  unfold genFieldEncode. rewrite Hinfo, Hmap, Hrep.
  rewrite genRepeatedEncode_text.
  unfold isMessage, nestedCodecOf, Sol.repeatedEncode.
  destruct (Z.eqb_spec (type field) 11) as [H11 | Hne]; [| reflexivity].
  rewrite H11, resolveSolType_message. reflexivity.
Qed.

Lemma genFieldDecode_singular_text (field : FieldInfo) (info : SolTypeInfo) :
  isRepeated field = false ->
  mapEntry field = None ->
  PROTO_TYPE_MAP (type field) = Some info ->
  genFieldDecode field =
    Js.Ok (Sol.renderCase
      (Sol.singularDecode (snakeToCamel (name field))
         (nestedCodecOf (type field) (typeName field)) (decodeFunc info)
         (fieldTag (number field) (wireType info)))).
Proof.
  intros Hrep Hmap Hinfo.
  unfold genFieldDecode. rewrite Hinfo, Hmap, Hrep.
  unfold isMessage, nestedCodecOf, Sol.singularDecode.
  destruct (Z.eqb_spec (type field) 11) as [H11 | Hne].
  - rewrite genMessageDecode_text, H11, resolveSolType_message. reflexivity.
  - rewrite genScalarDecode_text. reflexivity.
Qed.

Lemma genFieldEncode_singular_text (field : FieldInfo) (info : SolTypeInfo) :
  isRepeated field = false ->
  mapEntry field = None ->
  PROTO_TYPE_MAP (type field) = Some info ->
  genFieldEncode field =
    Js.Ok (Sol.renderEncode
      (Sol.singularEncode (snakeToCamel (name field))
         (nestedCodecOf (type field) (typeName field)) (encodeFunc info)
         (fieldTag (number field) (wireType info)))).
Proof.
  intros Hrep Hmap Hinfo.
  unfold genFieldEncode. rewrite Hinfo, Hmap, Hrep.
  unfold isMessage, nestedCodecOf, Sol.singularEncode.
  destruct (Z.eqb_spec (type field) 11) as [H11 | Hne].
  - rewrite genMessageEncode_text, H11, resolveSolType_message. reflexivity.
  - rewrite genScalarEncode_text. reflexivity.
Qed.

(** ** The emitted statements as Solidity *)

(** C4, at a map with [int32] keys.  For [map<int32, uint32> items = 1]
    the struct declares [int32[] items_keys], and the loop the emitter
    returns hands each key to [_encode_varint], which takes a [uint64].
    Solidity converts no [int32] to a [uint64] implicitly, so the compiler
    refuses the loop and no entry is ever built or written.  The same loop
    is accepted where the key's member has the type its encoder takes, as
    the [uint64] keys and [sint32] values of [stock] have. *)
Theorem genFieldEncode_map_rejects_int32_keys :
  genStructMember itemsField =
    Js.Ok ("    int32[] items_keys;
    uint32[] items_values;")
  /\ genFieldEncode itemsField =
       Js.Ok ("    for (uint256 _i_items = 0; _i_items < msg.items_keys.length; _i_items++) {
      bytes memory _entry = " ++ dq ++ dq ++ ";
      _entry = abi.encodePacked(_entry, ProtobufRuntime._encode_key(8));
      _entry = abi.encodePacked(_entry, ProtobufRuntime._encode_varint(msg.items_keys[_i_items]));
      _entry = abi.encodePacked(_entry, ProtobufRuntime._encode_key(16));
      _entry = abi.encodePacked(_entry, ProtobufRuntime._encode_varint(msg.items_values[_i_items]));
      buf = abi.encodePacked(buf, ProtobufRuntime._encode_key(0xa));
      buf = abi.encodePacked(buf, ProtobufRuntime._encode_varint(uint64(_entry.length)));
      buf = abi.encodePacked(buf, _entry);
    }")
  /\ genFieldEncode itemsField =
       Js.Ok (Sol.renderEncode
                (Sol.mapEncode "items" 8 "_encode_varint" None 16
                   "_encode_varint" 10))
  /\ Sol.arrTy (memberScope itemsField) "msg.items_keys" = Some (Sol.TInt 32)
  /\ Sol.encoderNamed "_encode_varint" = Some Sol.Pvarint
  /\ Sol.primType Sol.Pvarint = Sol.TUint 64
  /\ Sol.converts (Sol.TInt 32) (Sol.TUint 64) = false
  /\ Sol.check (memberScope itemsField)
       (Sol.AppendPrim "_entry" "_encode_varint"
          (Sol.Element "msg.items_keys" "_i_items")) = None
  /\ (forall (M : Type) (codecEncode : string -> M -> option (list Z))
        (codecDecode : string -> list Z -> option M)
        (data : Runtime.Memory) (fuel : nat) (st : Sol.state M),
        Sol.run codecEncode codecDecode (memberScope itemsField) data fuel
          (Sol.mapEncode "items" 8 "_encode_varint" None 16 "_encode_varint"
             10) st = Sol.Rejected)
  /\ genFieldEncode stockField =
       Js.Ok (Sol.renderEncode
                (Sol.mapEncode "stock" 8 "_encode_varint" None 16
                   "_encode_zigzag32" 42))
  /\ Sol.accepts (memberScope stockField)
       (Sol.mapEncode "stock" 8 "_encode_varint" None 16 "_encode_zigzag32"
          42) = true.
Proof.
  repeat split; try reflexivity.
Qed.


(** C6, at the first field number whose tag overflows.  For the message
    field [owner_info = 268435456] the tag [fieldTag] computes is
    negative (the wrap-around of the 32-bit shift), and the key statement
    the emitter prints holds the text [0x-7ffffffe], which is no number
    literal and no [uint64]: the compiler refuses the fragment, so the
    field's tag is never written and nothing after it is.  The codec is
    named as it should be, and the same field with the number 2 is
    accepted. *)
Theorem genFieldEncode_message_key_overflows :
  fieldTag (number farField) LengthDelimited = -2147483646
  /\ genFieldEncode farField =
       Js.Ok ("    buf = abi.encodePacked(buf, ProtobufRuntime._encode_key(0x-7ffffffe));
    bytes memory ownerInfo_encoded = CustomerCodec.encode(msg.ownerInfo);
    buf = abi.encodePacked(buf, ProtobufRuntime._encode_varint(uint64(ownerInfo_encoded.length)));
    buf = abi.encodePacked(buf, ownerInfo_encoded);")
  /\ genFieldEncode farField =
       Js.Ok (Sol.renderEncode
                (Sol.messageEncode "ownerInfo" "CustomerCodec" (-2147483646)))
  /\ Sol.fitsUint64 (-2147483646) = false
  /\ Sol.check (memberScope farField)
       (Sol.AppendKey "buf" true (-2147483646)) = None
  /\ (forall (M : Type) (codecEncode : string -> M -> option (list Z))
        (codecDecode : string -> list Z -> option M)
        (data : Runtime.Memory) (fuel : nat) (st : Sol.state M),
        Sol.run codecEncode codecDecode (memberScope farField) data fuel
          (Sol.messageEncode "ownerInfo" "CustomerCodec" (-2147483646)) st
        = Sol.Rejected)
  /\ genFieldEncode ownerField =
       Js.Ok (Sol.renderEncode
                (Sol.messageEncode "ownerInfo" "CustomerCodec" 18))
  /\ Sol.accepts (memberScope ownerField)
       (Sol.messageEncode "ownerInfo" "CustomerCodec" 18) = true.
Proof.
  repeat split; try reflexivity.
Qed.

(** ** Unsupported field types *)

Lemma genFieldEncode_unsupported (field : FieldInfo) :
  PROTO_TYPE_MAP (type field) = None ->
  genFieldEncode field =
    Js.Ok ("    // TODO: unsupported field type " ++ Js.toString (type field)
           ++ " for " ++ name field).
Proof. intros Hnone. unfold genFieldEncode. rewrite Hnone. reflexivity. Qed.

Lemma genFieldDecode_unsupported (field : FieldInfo) :
  PROTO_TYPE_MAP (type field) = None ->
  genFieldDecode field =
    Js.Ok ("      // TODO: unsupported field type " ++ Js.toString (type field)
           ++ " for " ++ name field).
Proof. intros Hnone. unfold genFieldDecode. rewrite Hnone. reflexivity. Qed.

Lemma genStructMember_unsupported (field : FieldInfo) :
  PROTO_TYPE_MAP (type field) = None ->
  genStructMember field =
    Js.Throw (Js.Error ("Unsupported protobuf field type: "
                        ++ Js.toString (type field))).
Proof.
  intros Hnone. unfold genStructMember.
  rewrite (resolveSolType_unsupported _ _ Hnone). reflexivity.
Qed.

(** X2.  A field of an unsupported type gets the marker comment from
    [genFieldEncode] and from [genFieldDecode]; [genStructMember] throws
    on it. *)
Theorem unsupported_field_emitters (field : FieldInfo) :
  PROTO_TYPE_MAP (type field) = None ->
  genFieldEncode field =
    Js.Ok ("    // TODO: unsupported field type " ++ Js.toString (type field)
           ++ " for " ++ name field)
  /\ genFieldDecode field =
       Js.Ok ("      // TODO: unsupported field type "
              ++ Js.toString (type field) ++ " for " ++ name field)
  /\ genStructMember field =
       Js.Throw (Js.Error ("Unsupported protobuf field type: "
                           ++ Js.toString (type field))).
Proof.
  intros Hnone.
  split; [exact (genFieldEncode_unsupported _ Hnone) |].
  split; [exact (genFieldDecode_unsupported _ Hnone) |].
  exact (genStructMember_unsupported _ Hnone).
Qed.

Lemma unsupported_field_emitters_witness :
  PROTO_TYPE_MAP (type groupField) = None
  /\ Js.returned (genFieldEncode groupField) = true
  /\ Js.returned (genFieldDecode groupField) = true
  /\ Js.returned (genStructMember groupField) = false.
Proof.
  split; [reflexivity |].
  destruct (unsupported_field_emitters groupField eq_refl)
    as (Hencode & Hdecode & Hmember).
  rewrite Hencode, Hdecode, Hmember. repeat split; reflexivity.
Defined.

(** C2, evaluated on a [group] field (type code 10).  The encode and the
    decode emitter return the marker comment; the struct-member emitter
    does not: it resolves the type first, and [resolveSolType] throws. *)
Theorem genStructMember_throws_on_group :
  genFieldEncode groupField =
    Js.Ok "    // TODO: unsupported field type 10 for legacy_group"
  /\ genFieldDecode groupField =
       Js.Ok "      // TODO: unsupported field type 10 for legacy_group"
  /\ genStructMember groupField =
       Js.Throw (Js.Error "Unsupported protobuf field type: 10").
Proof. repeat split; reflexivity. Qed.

(** ** Descriptor conversion *)

Lemma DescriptorProto_nested_ind (P : DescriptorProto -> Prop) :
  (forall n f nested o,
      (forall ns, nested = Some ns -> Forall P ns) ->
      P (mkDescriptorProto n f nested o)) ->
  forall d, P d.
Proof.
  intros Hstep. fix IH 1. intros [n f nested o].
  apply Hstep. intros ns Hns. destruct nested as [l |]; [| discriminate Hns].
  injection Hns as <-.
  induction l as [| d l IHl]; constructor; [apply IH | exact IHl].
Qed.

Lemma convertField_mapEntry (f : FieldDescriptorProto) :
  mapEntry (convertField f) = None.
Proof. reflexivity. Qed.

Lemma allFields_convertDescriptor (desc : DescriptorProto) :
  forall parentFqn,
    Forall (fun f => mapEntry f = None)
      (allFields (convertDescriptor desc parentFqn)).
Proof.
  induction desc as [n f nested o IH] using DescriptorProto_nested_ind.
  intros parentFqn. cbn [convertDescriptor allFields].
  apply Forall_app. split.
  - apply Forall_map. apply Forall_forall. intros x _.
    apply convertField_mapEntry.
  - destruct nested as [ns |]; [| constructor].
    specialize (IH ns eq_refl).
    apply Forall_flat_map. apply Forall_map.
    apply Forall_forall. intros d Hd.
    rewrite Forall_forall in IH. apply (IH d Hd).
Qed.

Lemma convertField_copies (f : FieldDescriptorProto) :
  copiedFrom f (convertField f).
Proof.
  unfold copiedFrom, convertField. cbn [name number type typeName label
                                        oneofIndex mapEntry].
  repeat split; try reflexivity; intros x Hx; rewrite Hx; reflexivity.
Qed.

Lemma fields_copied (fs : list FieldDescriptorProto) :
  Forall2 copiedFrom fs (map convertField fs).
Proof.
  induction fs as [| f fs IH]; constructor;
    [apply convertField_copies | exact IH].
Qed.



(** ** The plugin boundary *)

Section PluginBoundary.

Variable decodeRequest : Buffer -> Js.result CodeGeneratorRequest.
Variable encodePayload : ResponsePayload -> Buffer.
Variable generateRuntime : string.
Variable generateSolFile :
  list MessageDescriptor -> string -> Js.result string.

(** The loop emits the generated files in order after what it was given,
    or throws what the first failing file throws. *)
Lemma generateEach_emitAll (filesToGenerate : list string)
  (protoFiles : list FileDescriptorProto) :
  forall acc,
    generateEach generateSolFile filesToGenerate protoFiles acc =
      (files <- emitAll generateSolFile
                  (filter (isGenerated filesToGenerate) protoFiles) ;;
       Js.Ok (List.app acc files)).
Proof.
  induction protoFiles as [| protoFile rest IH]; intros acc.
  - cbn. rewrite List.app_nil_r. reflexivity.
  - cbn [generateEach filter]. unfold isGenerated at 1.
    destruct (existsb (String.eqb (Js.orElse (file_name protoFile) ""))
                filesToGenerate); cbn [negb andb].
    + destruct (extractMessages protoFile
                  (Js.orElse (file_package protoFile) "")) as [| m ms] eqn:Hms.
      * apply IH.
      * cbn [emitAll]. unfold emitFile. rewrite Hms.
        destruct (generateSolFile (m :: ms)
                    (Js.orElse (file_name protoFile) "")) as [content | e];
          cbn [Js.bind]; [| reflexivity].
        rewrite IH.
        destruct (emitAll generateSolFile
                    (filter (isGenerated filesToGenerate) rest))
          as [files | e]; cbn [Js.bind]; [| reflexivity].
        rewrite <- List.app_assoc. reflexivity.
    + apply IH.
Qed.

Lemma emitAll_length (protoFiles : list FileDescriptorProto)
  (files : list OutputFile) :
  emitAll generateSolFile protoFiles = Js.Ok files ->
  List.length files = List.length protoFiles.
Proof.
  revert files. induction protoFiles as [| protoFile rest IH];
    intros files Hemit.
  - injection Hemit as <-. reflexivity.
  - cbn [emitAll] in Hemit.
    destruct (emitFile generateSolFile protoFile) as [file | e];
      [| discriminate Hemit].
    destruct (emitAll generateSolFile rest) as [files' | e];
      [| discriminate Hemit].
    cbn [Js.bind] in Hemit. injection Hemit as <-.
    cbn [List.length]. rewrite (IH files' eq_refl). reflexivity.
Qed.

Lemma copied_files (files : list OutputFile) :
  map (fun f => mkFile (out_name f) (out_content f)) files = files.
Proof.
  induction files as [| [n c] files IH]; [reflexivity |].
  cbn [map out_name out_content]. rewrite IH. reflexivity.
Qed.

(** C8, as the code has it.  The bytes [runPlugin] returns encode one of
    two responses.  Either nothing was thrown: the response has no error
    and holds the runtime library followed by one file for each requested
    schema file that has messages, in order.  Or decoding the request or
    generating a file threw: the response holds no file, whatever had
    been generated before the throw, and its error is the exception's
    message when that message is not empty; an empty message leaves the
    response without an error. *)
Theorem runPlugin_complete_or_error (stdin : Buffer) :
  (exists request generated,
     decodeRequest stdin = Js.Ok request
     /\ emitAll generateSolFile
          (filter (isGenerated (Js.orElse (file_to_generate request) []))
             (Js.orElse (proto_file request) []))
        = Js.Ok generated
     /\ List.length generated =
          List.length
            (filter (isGenerated (Js.orElse (file_to_generate request) []))
               (Js.orElse (proto_file request) []))
     /\ runPlugin decodeRequest encodePayload generateRuntime generateSolFile
          stdin
        = encodePayload
            {| supported_features := 1;
               payload_file :=
                 mkFile "ProtobufRuntime.sol" generateRuntime :: generated;
               payload_error := None |})
  \/ (exists err,
        (decodeRequest stdin = Js.Throw err
         \/ exists request,
              decodeRequest stdin = Js.Ok request
              /\ emitAll generateSolFile
                   (filter
                      (isGenerated (Js.orElse (file_to_generate request) []))
                      (Js.orElse (proto_file request) []))
                 = Js.Throw err)
        /\ runPlugin decodeRequest encodePayload generateRuntime
             generateSolFile stdin
           = encodePayload
               {| supported_features := 1;
                  payload_file := [];
                  payload_error :=
                    match Js.message err with
                    | EmptyString => None
                    | message => Some message
                    end |}).
Proof.
  unfold runPlugin, encodeResponse, responsePayload, caughtResult,
    processRequest.
  destruct (decodeRequest stdin) as [request | err] eqn:Hreq; cbn [Js.bind].
  - rewrite generateEach_emitAll.
    destruct (emitAll generateSolFile
                (filter (isGenerated (Js.orElse (file_to_generate request) []))
                   (Js.orElse (proto_file request) [])))
      as [generated | err] eqn:Hemit; cbn [Js.bind].
    + left. exists request, generated.
      split; [reflexivity |]. split; [exact Hemit |].
      split; [apply (emitAll_length _ _ Hemit) |].
      cbn [files error Js.truthy List.app]. rewrite copied_files.
      reflexivity.
    + right. exists err. split.
      * right. exists request. split; [reflexivity | exact Hemit].
      * cbn [files error map]. destruct (Js.message err); reflexivity.
  - right. exists err. split; [left; reflexivity |].
    cbn [files error map]. destruct (Js.message err); reflexivity.
Qed.

End PluginBoundary.


(** C8, as stated, fails for an exception without a message: the schema
    file [shop/cart.proto] is requested, its emitter throws, and the
    response that reaches the caller holds neither a file (the runtime
    library, which every complete output starts with, is dropped too) nor
    an error. *)
Lemma runPlugin_unnamed_exception_leaves_no_error :
  processRequest (fun _ => Js.Ok cartRequest) "library" emitThrowsUnnamed []
    = Js.Throw (Js.Error "")
  /\ responsePayload
       (caughtResult (fun _ => Js.Ok cartRequest) "library" emitThrowsUnnamed
          [])
     = {| supported_features := 1; payload_file := []; payload_error := None |}
  /\ runPlugin (fun _ => Js.Ok cartRequest) summaryEncoder "library"
       emitThrowsUnnamed []
     = summaryEncoder
         {| supported_features := 1; payload_file := [];
            payload_error := None |}
  /\ summaryEncoder
       {| supported_features := 1; payload_file := []; payload_error := None |}
     = [Byte.x00].
Proof. repeat split; reflexivity. Qed.
(** ** The runtime's primitives *)

Lemma lor_low_high (a c k : Z) :
  0 <= k -> 0 <= a < 2 ^ k -> Z.lor a (c * 2 ^ k) = a + c * 2 ^ k.
Proof.
  intros Hk Ha.
  assert (Hland : Z.land a (c * 2 ^ k) = 0).
  { apply Z.bits_inj'. intros i Hi. rewrite Z.land_spec, Z.bits_0.
    rewrite <- Z.shiftl_mul_pow2 by assumption.
    destruct (Z.ltb_spec i k) as [Hlt | Hge].
    - rewrite Z.shiftl_spec_low by assumption. apply andb_false_r.
    - replace (Z.testbit a i) with false; [reflexivity |].
      symmetry. destruct (Z.eq_dec a 0) as [-> | Hnz]; [apply Z.bits_0 |].
      apply Z.bits_above_log2; [lia |].
      apply Z.log2_lt_pow2; [lia |].
      apply Z.lt_le_trans with (2 ^ k); [lia |].
      apply Z.pow_le_mono_r; lia. }
  pose proof (Z.add_lor_land a (c * 2 ^ k)) as Hadd.
  rewrite Hland in Hadd. lia.
Qed.

Lemma land_127 (v : Z) : Z.land v 127 = v mod 128.
Proof. change 127 with (Z.ones 7). rewrite Z.land_ones by lia. reflexivity. Qed.

Lemma land_255 (v : Z) : Z.land v 255 = v mod 256.
Proof. change 255 with (Z.ones 8). rewrite Z.land_ones by lia. reflexivity. Qed.

Lemma continuation_payload (x : Z) :
  0 <= x < 128 -> Z.land (Z.lor x 128) 127 = x.
Proof.
  intros Hx. rewrite Z.land_lor_distr_l. change (Z.land 128 127) with 0.
  rewrite Z.lor_0_r, land_127. apply Z.mod_small. exact Hx.
Qed.

Lemma continuation_bit (x : Z) :
  0 <= x -> (Z.land (Z.lor x 128) 128 =? 0)%Z = false.
Proof.
  intros Hx. apply Z.eqb_neq. intros H.
  apply (f_equal (fun z => Z.testbit z 7)) in H.
  rewrite Z.land_spec, Z.lor_spec, Z.bits_0 in H.
  change (Z.testbit 128 7) with true in H.
  rewrite orb_true_r in H. discriminate H.
Qed.

Lemma final_bit (x : Z) :
  0 <= x < 128 -> (Z.land x 128 =? 0)%Z = true.
Proof.
  intros Hx. apply Z.eqb_eq.
  apply Z.bits_inj'. intros i Hi. rewrite Z.land_spec, Z.bits_0.
  destruct (Z.eq_dec i 7) as [-> | Hne].
  - replace (Z.testbit x 7) with false; [reflexivity |].
    symmetry. destruct (Z.eq_dec x 0) as [-> | Hnz]; [apply Z.bits_0 |].
    apply Z.bits_above_log2; [lia |].
    apply Z.log2_lt_pow2; [lia |]. change (2 ^ 7) with 128. lia.
  - replace (Z.testbit 128 i) with false; [apply andb_false_r |].
    symmetry. change 128 with (2 ^ 7). apply Z.pow2_bits_false. lia.
Qed.

Lemma holds_head data p b bs :
  Runtime.holds data p (b :: bs) -> Runtime.byteAt data p = b.
Proof.
  intros H. specialize (H 0%nat). rewrite Nat.add_0_r in H.
  apply H. simpl. lia.
Qed.

Lemma holds_tail data p b bs :
  Runtime.holds data p (b :: bs) -> Runtime.holds data (S p) bs.
Proof.
  intros H i Hi. specialize (H (S i)).
  rewrite Nat.add_succ_r in H. simpl. apply H. simpl. lia.
Qed.

Lemma holds_app data p xs ys :
  Runtime.holds data p (List.app xs ys) ->
  Runtime.holds data p xs /\ Runtime.holds data (p + List.length xs) ys.
Proof.
  intros H. split; intros i Hi.
  - rewrite (H i) by (rewrite length_app; lia).
    apply app_nth1. exact Hi.
  - rewrite <- Nat.add_assoc. rewrite (H (List.length xs + i)%nat)
      by (rewrite length_app; lia).
    rewrite app_nth2 by lia. f_equal. lia.
Qed.

Lemma holds_ofList pre bs post :
  Runtime.holds (Runtime.ofList (List.app pre (List.app bs post)))
    (List.length pre) bs.
Proof.
  intros i Hi. unfold Runtime.ofList. simpl.
  rewrite app_nth2 by lia.
  replace (List.length pre + i - List.length pre)%nat with i by lia.
  apply app_nth1. exact Hi.
Qed.

Lemma decodeVarintLoop_last fuel data p r s :
  (Z.land (Runtime.byteAt data p) 128 =? 0)%Z = true ->
  Runtime.decodeVarintLoop (S fuel) data p r s =
  Some (Z.lor r (Z.shiftl (Z.land (Runtime.byteAt data p) 127) s), S p).
Proof. intros H. cbn [Runtime.decodeVarintLoop]. rewrite H. reflexivity. Qed.

Lemma decodeVarintLoop_more fuel data p r s :
  (Z.land (Runtime.byteAt data p) 128 =? 0)%Z = false ->
  (s + 7 >? 63) = false ->
  Runtime.decodeVarintLoop (S fuel) data p r s =
  Runtime.decodeVarintLoop fuel data (S p)
    (Z.lor r (Z.shiftl (Z.land (Runtime.byteAt data p) 127) s)) (s + 7).
Proof.
  intros H Hs. cbn [Runtime.decodeVarintLoop]. rewrite H, Hs. reflexivity.
Qed.

Lemma decodeVarintLoop_overlong fuel data p r s :
  (Z.land (Runtime.byteAt data p) 128 =? 0)%Z = false ->
  (s + 7 >? 63) = true ->
  Runtime.decodeVarintLoop (S fuel) data p r s = None.
Proof.
  intros H Hs. cbn [Runtime.decodeVarintLoop]. rewrite H, Hs. reflexivity.
Qed.

Lemma encodeVarintLoop_last fuel v :
  0 <= v < 128 -> Runtime.encodeVarintLoop (S fuel) v = [v].
Proof.
  intros Hv. cbn [Runtime.encodeVarintLoop].
  replace (v >? 127) with false by (symmetry; rewrite Z.gtb_ltb; apply Z.ltb_ge; lia).
  rewrite land_127, Z.mod_small by lia. reflexivity.
Qed.

Lemma encodeVarintLoop_more fuel v :
  128 <= v ->
  Runtime.encodeVarintLoop (S fuel) v =
  Z.lor (v mod 128) 128 :: Runtime.encodeVarintLoop fuel (v / 128).
Proof.
  intros Hv. cbn [Runtime.encodeVarintLoop].
  replace (v >? 127) with true by (symmetry; rewrite Z.gtb_ltb; apply Z.ltb_lt; lia).
  rewrite land_127, Z.shiftr_div_pow2 by lia. reflexivity.
Qed.

(** The decoding loop undoes the encoding loop: started with the low
    [shift] bits in [result], it returns [result] with [v] above them. *)
Lemma decodeVarintLoop_encodeVarintLoop (fuel : nat) :
  forall (more : nat) (v : Z) (data : Runtime.Memory) (p : nat) (r s : Z),
    0 <= s ->
    0 <= r < 2 ^ s ->
    0 <= v < 2 ^ (7 * Z.of_nat (S fuel)) ->
    v < 2 ^ (64 - s) ->
    Runtime.holds data p (Runtime.encodeVarintLoop (S fuel) v) ->
    Runtime.decodeVarintLoop (S fuel + more) data p r s =
    Some (r + v * 2 ^ s,
          (p + List.length (Runtime.encodeVarintLoop (S fuel) v))%nat).
Proof.
  induction fuel as [| fuel IH]; intros more v data p r s Hs Hr Hv Hv64 Hdata.
  all: assert (Hs64 : s <= 64)
    by (destruct (Z.le_gt_cases s 64) as [H | H]; [exact H | exfalso];
        rewrite Z.pow_neg_r in Hv64 by lia; lia).
  - change (2 ^ (7 * Z.of_nat 1)) with 128 in Hv.
    rewrite encodeVarintLoop_last in * by exact Hv.
    pose proof (holds_head _ _ _ _ Hdata) as Hb.
    change (1 + more)%nat with (S more).
    rewrite decodeVarintLoop_last by (rewrite Hb; apply final_bit; exact Hv).
    rewrite Hb, land_127, (Z.mod_small v 128), Z.shiftl_mul_pow2,
      lor_low_high by lia.
    repeat f_equal. simpl. lia.
  - assert (Hpow : 2 ^ (7 * Z.of_nat (S (S fuel))) =
                   128 * 2 ^ (7 * Z.of_nat (S fuel))).
    { replace (7 * Z.of_nat (S (S fuel))) with (7 + 7 * Z.of_nat (S fuel))
        by lia.
      rewrite Z.pow_add_r by lia. reflexivity. }
    destruct (Z.lt_ge_cases v 128) as [Hlow | Hhigh].
    + rewrite encodeVarintLoop_last in * by lia.
      pose proof (holds_head _ _ _ _ Hdata) as Hb.
      change (S (S fuel) + more)%nat with (S (S fuel + more)).
      rewrite decodeVarintLoop_last by (rewrite Hb; apply final_bit; lia).
      rewrite Hb, land_127, (Z.mod_small v 128), Z.shiftl_mul_pow2,
        lor_low_high by lia.
      repeat f_equal. simpl. lia.
    + rewrite encodeVarintLoop_more in * by exact Hhigh.
      pose proof (holds_head _ _ _ _ Hdata) as Hb.
      pose proof (holds_tail _ _ _ _ Hdata) as Hrest.
      pose proof (Z.mod_pos_bound v 128 ltac:(lia)) as Hmod.
      assert (Hshift : s < 57).
      { destruct (Z.lt_ge_cases s 57) as [H | H]; [exact H | exfalso].
        assert (2 ^ (64 - s) <= 2 ^ 7) by (apply Z.pow_le_mono_r; lia).
        change (2 ^ 7) with 128 in *. lia. }
      change (S (S fuel) + more)%nat with (S (S fuel + more)).
      rewrite decodeVarintLoop_more;
        [| rewrite Hb; apply continuation_bit; lia
         | rewrite Z.gtb_ltb; apply Z.ltb_ge; lia].
      rewrite Hb, continuation_payload, Z.shiftl_mul_pow2, lor_low_high
        by lia.
      assert (Hs7 : 2 ^ (s + 7) = 128 * 2 ^ s).
      { rewrite Z.pow_add_r by lia. change (2 ^ 7) with 128. lia. }
      rewrite (IH more (v / 128)); [| lia | | | | exact Hrest].
      * f_equal. f_equal.
        -- rewrite Hs7.
           pose proof (Z.div_mod v 128 ltac:(lia)) as Hdm. nia.
        -- simpl List.length. lia.
      * rewrite Hs7. nia.
      * split; [apply Z.div_pos; lia |].
        apply Z.div_lt_upper_bound; lia.
      * apply Z.div_lt_upper_bound; [lia |].
        replace (64 - (s + 7)) with (64 - s - 7) by lia.
        replace (128 * 2 ^ (64 - s - 7)) with (2 ^ (64 - s)); [exact Hv64 |].
        replace (64 - s) with (7 + (64 - s - 7)) at 1 by lia.
        rewrite Z.pow_add_r by lia. reflexivity.
Qed.

Lemma encode_varint_loop (v : Z) :
  0 <= v -> Runtime._encode_varint v = Runtime.encodeVarintLoop 10 v.
Proof.
  intros Hv. unfold Runtime._encode_varint.
  destruct (Z.ltb_spec v 128) as [Hlt | Hge]; [| reflexivity].
  symmetry. apply encodeVarintLoop_last. lia.
Qed.

(** On what the encoder wrote the loop leaves the value itself: no bit
    above 63 is set. *)
Lemma decode_word_inverts (data : Runtime.Memory) (p : nat) (v : Z) :
  0 <= v < 2 ^ 64 ->
  Runtime.holds data p (Runtime._encode_varint v) ->
  Runtime.decodeVarintWord data p =
  Some (v, (p + List.length (Runtime._encode_varint v))%nat).
Proof.
  intros Hv Hdata. rewrite encode_varint_loop in * by lia.
  unfold Runtime.decodeVarintWord.
  assert (Hv70 : 0 <= v < 2 ^ (7 * Z.of_nat 10))
    by (split; [lia |]; apply Z.lt_trans with (2 ^ 64); [lia | reflexivity]).
  pose proof (decodeVarintLoop_encodeVarintLoop 9 0 v data p 0 0
                ltac:(lia) ltac:(simpl; lia) Hv70 (proj2 Hv) Hdata) as H.
  change (10 + 0)%nat with 10%nat in H. rewrite H.
  f_equal. f_equal. simpl. lia.
Qed.

Lemma decode_varint_inverts (data : Runtime.Memory) (p : nat) (v : Z) :
  0 <= v < 2 ^ 64 ->
  Runtime.holds data p (Runtime._encode_varint v) ->
  Runtime._decode_varint data p =
  Some (v, (p + List.length (Runtime._encode_varint v))%nat).
Proof.
  intros Hv Hdata. unfold Runtime._decode_varint.
  rewrite (decode_word_inverts data p v Hv Hdata).
  rewrite (Z.mod_small v (2 ^ 64)) by exact Hv. reflexivity.
Qed.

(** What a caller written in Solidity reads is the word's low 64 bits,
    and the call reverts exactly when the loop does. *)
Lemma decode_varint_of_word (data : Runtime.Memory) (p : nat) (v : Z)
  (q : nat) :
  Runtime._decode_varint data p = Some (v, q) <->
  exists word,
    Runtime.decodeVarintWord data p = Some (word, q) /\ v = word mod 2 ^ 64.
Proof.
  unfold Runtime._decode_varint.
  destruct (Runtime.decodeVarintWord data p) as [[word q'] |]; split.
  - intros H. injection H as <- <-. exists word. split; reflexivity.
  - intros (word' & H & ->). injection H as <- <-. reflexivity.
  - discriminate.
  - intros (word' & H & _). discriminate H.
Qed.

Lemma decode_varint_reverts_with_word (data : Runtime.Memory) (p : nat) :
  Runtime._decode_varint data p = None <->
  Runtime.decodeVarintWord data p = None.
Proof.
  unfold Runtime._decode_varint.
  destruct (Runtime.decodeVarintWord data p) as [[word q] |];
    split; (discriminate || reflexivity).
Qed.

Lemma lor_128 (x : Z) : 0 <= x < 128 -> Z.lor x 128 = x + 128.
Proof.
  intros Hx. change 128 with (1 * 2 ^ 7) at 1.
  rewrite lor_low_high; [reflexivity | lia | exact Hx].
Qed.

Lemma encodeVarintLoop_shape (fuel : nat) :
  forall v, 0 <= v < 2 ^ (7 * Z.of_nat (S fuel)) ->
    exists init final,
      Runtime.encodeVarintLoop (S fuel) v = List.app init [final] /\
      0 <= final < 128 /\
      Forall (fun b => 128 <= b < 256) init /\
      (List.length init <= fuel)%nat.
Proof.
  induction fuel as [| fuel IH]; intros v Hv.
  - exists [], v. rewrite encodeVarintLoop_last by exact Hv.
    repeat split; try lia; constructor.
  - destruct (Z.lt_ge_cases v 128) as [Hlow | Hhigh].
    + exists [], v. rewrite encodeVarintLoop_last by lia.
      repeat split; try lia; [constructor | simpl; lia].
    + rewrite encodeVarintLoop_more by exact Hhigh.
      destruct (IH (v / 128)) as (init & final & Heq & Hfinal & Hinit & Hlen).
      { split; [apply Z.div_pos; lia |].
        apply Z.div_lt_upper_bound; [lia |].
        replace (7 * Z.of_nat (S (S fuel))) with (7 + 7 * Z.of_nat (S fuel))
          in Hv by lia.
        rewrite Z.pow_add_r in Hv by lia. exact (proj2 Hv). }
      pose proof (Z.mod_pos_bound v 128 ltac:(lia)) as Hmod.
      exists (Z.lor (v mod 128) 128 :: init), final.
      rewrite Heq. repeat split; try lia.
      * constructor; [rewrite lor_128 by lia; lia | exact Hinit].
      * simpl. lia.
Qed.

(** Every byte read contributes seven bits above those already there. *)
Lemma decodeVarintLoop_range fuel :
  forall data p r s word q,
    0 <= s ->
    0 <= r < 2 ^ s ->
    Runtime.decodeVarintLoop fuel data p r s = Some (word, q) ->
    (p < q)%nat /\ 0 <= word < 2 ^ (s + 7 * Z.of_nat (q - p)).
Proof.
  induction fuel as [| fuel IH]; intros data p r s word q Hs Hr H;
    [discriminate H |].
  cbn [Runtime.decodeVarintLoop] in H.
  pose proof (Z.mod_pos_bound (Runtime.byteAt data p) 128 ltac:(lia)) as Hb.
  assert (Hnext :
            Z.lor r (Z.shiftl (Z.land (Runtime.byteAt data p) 127) s) =
            r + Runtime.byteAt data p mod 128 * 2 ^ s).
  { rewrite land_127, Z.shiftl_mul_pow2 by exact Hs.
    apply lor_low_high; assumption. }
  assert (Hpow : 2 ^ (s + 7) = 128 * 2 ^ s).
  { rewrite Z.pow_add_r by lia. change (2 ^ 7) with 128. lia. }
  rewrite Hnext in H.
  destruct (Z.land (Runtime.byteAt data p) 128 =? 0)%Z.
  - injection H as <- <-. split; [lia |].
    replace (S p - p)%nat with 1%nat by lia.
    change (7 * Z.of_nat 1) with 7. rewrite Hpow.
    assert (H2s : 0 < 2 ^ s) by (apply Z.pow_pos_nonneg; lia). nia.
  - destruct (s + 7 >? 63); [discriminate H |].
    assert (H2s : 0 < 2 ^ s) by (apply Z.pow_pos_nonneg; lia).
    assert (Hr' : 0 <= r + Runtime.byteAt data p mod 128 * 2 ^ s
                  < 2 ^ (s + 7)) by (rewrite Hpow; nia).
    assert (Hs7 : 0 <= s + 7) by lia.
    destruct (IH _ _ _ _ _ _ Hs7 Hr' H) as [Hq Hword].
    split; [lia |].
    replace (s + 7 * Z.of_nat (q - p))
      with (s + 7 + 7 * Z.of_nat (q - S p)) by lia.
    exact Hword.
Qed.

(** Ten bytes at most: the loop is entered with [shift = 7 * k] for the
    [k]-th byte, and the check [shift > 63] fires after the tenth. *)
Lemma decodeVarintLoop_reverts (fuel : nat) :
  forall data p r,
    (fuel <= 10)%nat ->
    Runtime.decodeVarintLoop fuel data p r (7 * Z.of_nat (10 - fuel)) = None
    <->
    (forall i, (i < fuel)%nat ->
       Z.land (Runtime.byteAt data (p + i)) 128 <> 0).
Proof.
  induction fuel as [| fuel IH]; intros data p r Hfuel.
  - split; [intros _ i Hi; lia | reflexivity].
  - destruct (Z.land (Runtime.byteAt data p) 128 =? 0)%Z eqn:Hbit.
    + rewrite decodeVarintLoop_last by exact Hbit.
      split; [discriminate |]. intros H. exfalso.
      apply (H 0%nat); [lia |]. rewrite Nat.add_0_r.
      apply Z.eqb_eq. exact Hbit.
    + assert (Hhere : Z.land (Runtime.byteAt data p) 128 <> 0)
        by (apply Z.eqb_neq; exact Hbit).
      destruct fuel as [| fuel].
      * rewrite decodeVarintLoop_overlong; [| exact Hbit | reflexivity].
        split; [| reflexivity]. intros _ i Hi.
        replace i with 0%nat by lia. rewrite Nat.add_0_r. exact Hhere.
      * rewrite decodeVarintLoop_more;
          [| exact Hbit | rewrite Z.gtb_ltb; apply Z.ltb_ge; lia].
        replace (7 * Z.of_nat (10 - S (S fuel)) + 7)
          with (7 * Z.of_nat (10 - S fuel)) by lia.
        rewrite IH by lia. split; intros H i Hi.
        -- destruct i as [| i]; [rewrite Nat.add_0_r; exact Hhere |].
           rewrite Nat.add_succ_r. apply (H i). lia.
        -- specialize (H (S i)). rewrite Nat.add_succ_r in H.
           apply H. lia.
Qed.

Lemma decodeVarintLoop_stops (fuel : nat) :
  forall data p r s v q,
    Runtime.decodeVarintLoop fuel data p r s = Some (v, q) ->
    (p < q <= p + fuel)%nat /\
    Z.land (Runtime.byteAt data (q - 1)) 128 = 0 /\
    (forall i, (p <= i < q - 1)%nat ->
       Z.land (Runtime.byteAt data i) 128 <> 0).
Proof.
  induction fuel as [| fuel IH]; intros data p r s v q H; [discriminate H |].
  cbn [Runtime.decodeVarintLoop] in H.
  destruct (Z.land (Runtime.byteAt data p) 128 =? 0)%Z eqn:Hbit.
  - injection H as _ <-. replace (S p - 1)%nat with p by lia.
    split; [lia |]. split; [apply Z.eqb_eq; exact Hbit |].
    intros i Hi. lia.
  - destruct (s + 7 >? 63); [discriminate H |].
    destruct (IH _ _ _ _ _ _ H) as (Hq & Hlast & Hbefore).
    split; [lia |]. split; [exact Hlast |].
    intros i Hi. destruct (Nat.eq_dec i p) as [-> | Hne].
    + apply Z.eqb_neq. exact Hbit.
    + apply Hbefore. lia.
Qed.

Lemma land_1 (n : Z) : Z.land n 1 = n mod 2.
Proof. change 1 with (Z.ones 1) at 1. rewrite Z.land_ones by lia. reflexivity. Qed.

Lemma unzigzag_nonneg (v : Z) :
  0 <= v -> Z.lxor (Z.shiftr (2 * v) 1) (- Z.land (2 * v) 1) = v.
Proof.
  intros Hv. rewrite land_1, Z.shiftr_div_pow2 by lia.
  change (2 ^ 1) with 2.
  replace (2 * v mod 2) with 0 by (symmetry; rewrite Z.mul_comm; apply Z.mod_mul; lia).
  replace (2 * v / 2) with v by (symmetry; rewrite Z.mul_comm; apply Z.div_mul; lia).
  apply Z.lxor_0_r.
Qed.

Lemma unzigzag_neg (v : Z) :
  v < 0 ->
  Z.lxor (Z.shiftr (- 2 * v - 1) 1) (- Z.land (- 2 * v - 1) 1) = v.
Proof.
  intros Hv. rewrite land_1, Z.shiftr_div_pow2 by lia.
  change (2 ^ 1) with 2.
  replace (- 2 * v - 1) with (1 + (- v - 1) * 2) by lia.
  rewrite Z.mod_add, Z.div_add by lia.
  change (1 mod 2) with 1. change (1 / 2) with 0.
  rewrite Z.lxor_m1_r. unfold Z.lnot. lia.
Qed.

Lemma zigzag_nonneg (v k : Z) :
  0 <= k -> 0 <= v < 2 ^ k ->
  Z.lxor (Z.shiftl v 1) (Z.shiftr v k) = 2 * v.
Proof.
  intros Hk Hv. rewrite Z.shiftl_mul_pow2, Z.shiftr_div_pow2 by lia.
  rewrite Z.div_small by exact Hv. rewrite Z.lxor_0_r.
  change (2 ^ 1) with 2. lia.
Qed.

Lemma zigzag_neg (v k : Z) :
  0 <= k -> - 2 ^ k <= v < 0 ->
  Z.lxor (Z.shiftl v 1) (Z.shiftr v k) = - 2 * v - 1.
Proof.
  intros Hk Hv. rewrite Z.shiftl_mul_pow2, Z.shiftr_div_pow2 by lia.
  assert (Hdiv : v / 2 ^ k = -1).
  { symmetry. apply (Z.div_unique v (2 ^ k) (-1) (v + 2 ^ k)); lia. }
  rewrite Hdiv, Z.lxor_m1_r. unfold Z.lnot. change (2 ^ 1) with 2. lia.
Qed.

Lemma toInt64_small (v : Z) :
  - 2 ^ 63 <= v < 2 ^ 63 -> Runtime.toInt64 v = v.
Proof.
  intros Hv. unfold Runtime.toInt64.
  rewrite Z.mod_small; [lia |].
  change (2 ^ 64) with (2 ^ 63 + 2 ^ 63). lia.
Qed.

Lemma unzigzag32_zigzag32 (v : Z) :
  - 2 ^ 31 <= v < 2 ^ 31 ->
  0 <= Runtime.zigzag32 v < 2 ^ 32 /\
  Runtime.unzigzag32 (Runtime.zigzag32 v) = v.
Proof.
  intros Hv. unfold Runtime.zigzag32, Runtime.unzigzag32.
  split; [apply Z.mod_pos_bound; reflexivity |].
  destruct (Z.lt_ge_cases v 0) as [Hneg | Hpos].
  - rewrite zigzag_neg by lia.
    rewrite (Z.mod_small (- 2 * v - 1)) by lia.
    rewrite (unzigzag_neg v Hneg). apply toInt32_small. exact Hv.
  - rewrite zigzag_nonneg by lia.
    rewrite (Z.mod_small (2 * v)) by lia.
    rewrite (unzigzag_nonneg v Hpos). apply toInt32_small. exact Hv.
Qed.

Lemma unzigzag64_zigzag64 (v : Z) :
  - 2 ^ 63 <= v < 2 ^ 63 ->
  0 <= Runtime.zigzag64 v < 2 ^ 64 /\
  Runtime.unzigzag64 (Runtime.zigzag64 v) = v.
Proof.
  intros Hv. unfold Runtime.zigzag64, Runtime.unzigzag64.
  split; [apply Z.mod_pos_bound; reflexivity |].
  destruct (Z.lt_ge_cases v 0) as [Hneg | Hpos].
  - rewrite zigzag_neg by lia.
    rewrite (Z.mod_small (- 2 * v - 1)) by lia.
    rewrite (unzigzag_neg v Hneg). apply toInt64_small. exact Hv.
  - rewrite zigzag_nonneg by lia.
    rewrite (Z.mod_small (2 * v)) by lia.
    rewrite (unzigzag_nonneg v Hpos). apply toInt64_small. exact Hv.
Qed.

Ltac pow_lia :=
  change (2 ^ (48 - 32)) with 65536 in *;
  change (2 ^ 8) with 256 in *; change (2 ^ 16) with 65536 in *;
  change (2 ^ 24) with 16777216 in *; change (2 ^ 32) with 4294967296 in *;
  change (2 ^ 40) with 1099511627776 in *;
  change (2 ^ 48) with 281474976710656 in *;
  change (2 ^ 56) with 72057594037927936 in *;
  change (2 ^ 64) with 18446744073709551616 in *;
  lia.

Lemma byte_of (v k : Z) :
  0 <= k -> Z.land (Z.shiftr v k) 255 = (v / 2 ^ k) mod 256.
Proof. intros Hk. rewrite land_255, Z.shiftr_div_pow2 by exact Hk. reflexivity. Qed.

Lemma byte_range (x : Z) : 0 <= x mod 256 < 256.
Proof. apply Z.mod_pos_bound. reflexivity. Qed.

Lemma lor_bytes (lo hi k : Z) :
  0 <= k -> 0 <= lo < 2 ^ k -> Z.lor lo (Z.shiftl hi k) = lo + hi * 2 ^ k.
Proof.
  intros Hk Hlo. rewrite Z.shiftl_mul_pow2 by exact Hk.
  apply lor_low_high; assumption.
Qed.

Lemma fixed32_reassemble (v : Z) :
  0 <= v < 2 ^ 32 ->
  Z.lor
    (Z.lor (Z.land v 255) (Z.shiftl (Z.land (Z.shiftr v 8) 255) 8))
    (Z.lor (Z.shiftl (Z.land (Z.shiftr v 16) 255) 16)
           (Z.shiftl (Z.land (Z.shiftr v 24) 255) 24)) = v.
Proof.
  intros Hv.
  rewrite !byte_of by lia. rewrite land_255.
  pose proof (byte_range v) as H0.
  pose proof (byte_range (v / 2 ^ 8)) as H1.
  pose proof (byte_range (v / 2 ^ 16)) as H2.
  pose proof (byte_range (v / 2 ^ 24)) as H3.
  rewrite (lor_bytes (v mod 256)) by lia.
  rewrite <- (Z.shiftl_shiftl (_ mod 256) 8 16) by lia.
  rewrite <- Z.shiftl_lor.
  rewrite (lor_bytes ((v / 2 ^ 16) mod 256)) by lia.
  rewrite lor_bytes by lia.
  change (2 ^ 8) with 256 in *. change (2 ^ 16) with 65536 in *.
  change (2 ^ 24) with 16777216 in *. change (2 ^ 32) with 4294967296 in *.
  Z.div_mod_to_equations. lia.
Qed.

Lemma lor_shifted (a b k m : Z) :
  0 <= k <= m -> 0 <= a < 2 ^ (m - k) ->
  Z.lor (Z.shiftl a k) (Z.shiftl b m) = (a + b * 2 ^ (m - k)) * 2 ^ k.
Proof.
  intros Hk Ha.
  replace m with (m - k + k) at 1 by lia.
  rewrite <- (Z.shiftl_shiftl b (m - k) k) by lia.
  rewrite <- Z.shiftl_lor, lor_bytes by lia.
  apply Z.shiftl_mul_pow2. lia.
Qed.

Lemma fixed64_reassemble (v : Z) :
  0 <= v < 2 ^ 64 ->
  Z.lor
    (Z.lor
       (Z.lor (Z.land v 255) (Z.shiftl (Z.land (Z.shiftr v 8) 255) 8))
       (Z.lor (Z.shiftl (Z.land (Z.shiftr v 16) 255) 16)
              (Z.shiftl (Z.land (Z.shiftr v 24) 255) 24)))
    (Z.lor
       (Z.lor (Z.shiftl (Z.land (Z.shiftr v 32) 255) 32)
              (Z.shiftl (Z.land (Z.shiftr v 40) 255) 40))
       (Z.lor (Z.shiftl (Z.land (Z.shiftr v 48) 255) 48)
              (Z.shiftl (Z.land (Z.shiftr v 56) 255) 56))) = v.
Proof.
  intros Hv.
  rewrite !byte_of by lia. rewrite land_255.
  pose proof (byte_range v) as H0.
  pose proof (byte_range (v / 2 ^ 8)) as H1.
  pose proof (byte_range (v / 2 ^ 16)) as H2.
  pose proof (byte_range (v / 2 ^ 24)) as H3.
  pose proof (byte_range (v / 2 ^ 32)) as H4.
  pose proof (byte_range (v / 2 ^ 40)) as H5.
  pose proof (byte_range (v / 2 ^ 48)) as H6.
  pose proof (byte_range (v / 2 ^ 56)) as H7.
  rewrite (lor_bytes (v mod 256)) by pow_lia.
  rewrite (lor_shifted _ _ 16 24), (lor_shifted _ _ 32 40),
    (lor_shifted _ _ 48 56) by pow_lia.
  change (2 ^ (24 - 16)) with 256. change (2 ^ (40 - 32)) with 256.
  change (2 ^ (56 - 48)) with 256.
  rewrite <- !(Z.shiftl_mul_pow2 _ 32), <- !(Z.shiftl_mul_pow2 _ 48) by lia.
  rewrite (lor_shifted _ _ 32 48) by pow_lia.
  rewrite (lor_low_high (v mod 256 + _) _ 16) by pow_lia.
  rewrite lor_low_high by pow_lia.
  clear H0 H1 H2 H3 H4 H5 H6 H7.
  change (2 ^ (48 - 32)) with 65536.
  change (2 ^ 8) with 256. change (2 ^ 16) with 65536.
  change (2 ^ 24) with 16777216. change (2 ^ 32) with 4294967296.
  change (2 ^ 40) with 1099511627776.
  change (2 ^ 48) with 281474976710656.
  change (2 ^ 56) with 72057594037927936.
  change (2 ^ 64) with 18446744073709551616 in Hv.
  Z.div_mod_to_equations. lia.
Qed.

Lemma toInt64_toUint64 (v : Z) :
  - 2 ^ 63 <= v < 2 ^ 63 ->
  0 <= Runtime.toUint64 v < 2 ^ 64 /\
  Runtime.toInt64 (Runtime.toUint64 v) = v.
Proof.
  intros Hv. unfold Runtime.toInt64, Runtime.toUint64.
  change (2 ^ 63) with 9223372036854775808 in *.
  change (2 ^ 64) with 18446744073709551616 in *.
  Z.div_mod_to_equations. lia.
Qed.

Lemma toInt32_toUint32 (v : Z) :
  - 2 ^ 31 <= v < 2 ^ 31 ->
  0 <= Runtime.toUint32 v < 2 ^ 32 /\
  Js.toInt32 (Runtime.toUint32 v) = v.
Proof.
  intros Hv. unfold Js.toInt32, Runtime.toUint32.
  change (2 ^ 31) with 2147483648 in *.
  change (2 ^ 32) with 4294967296 in *.
  Z.div_mod_to_equations. lia.
Qed.

Lemma decode_fixed32_inverts data p v :
  0 <= v < 2 ^ 32 ->
  Runtime.holds data p (Runtime._encode_fixed32 v) ->
  Runtime._decode_fixed32 data p = Some (v, (p + 4)%nat).
Proof.
  intros Hv Hdata. unfold Runtime._decode_fixed32.
  rewrite (Hdata 0%nat), (Hdata 1%nat), (Hdata 2%nat), (Hdata 3%nat)
    by (simpl; lia).
  cbn [nth Runtime._encode_fixed32].
  rewrite fixed32_reassemble by exact Hv. reflexivity.
Qed.

Lemma decode_fixed64_inverts data p v :
  0 <= v < 2 ^ 64 ->
  Runtime.holds data p (Runtime._encode_fixed64 v) ->
  Runtime._decode_fixed64 data p = Some (v, (p + 8)%nat).
Proof.
  intros Hv Hdata. unfold Runtime._decode_fixed64.
  rewrite (Hdata 0%nat), (Hdata 1%nat), (Hdata 2%nat), (Hdata 3%nat),
    (Hdata 4%nat), (Hdata 5%nat), (Hdata 6%nat), (Hdata 7%nat)
    by (simpl; lia).
  cbn [nth Runtime._encode_fixed64].
  rewrite fixed64_reassemble by exact Hv. reflexivity.
Qed.

Lemma slice_holds data :
  forall bs p,
    Runtime.holds data p bs ->
    map (Runtime.byteAt data) (seq p (List.length bs)) = bs.
Proof.
  induction bs as [| b bs IH]; intros p H; [reflexivity |].
  cbn [List.length seq map].
  rewrite (holds_head _ _ _ _ H), (IH (S p) (holds_tail _ _ _ _ H)).
  reflexivity.
Qed.

Lemma decode_bytes_inverts data p bs :
  Z.of_nat (List.length bs) < 2 ^ 64 ->
  Runtime.holds data p (Runtime._encode_bytes bs) ->
  (p + List.length (Runtime._encode_bytes bs) <= Runtime.dataLength data)%nat ->
  Runtime._decode_bytes data p =
  Some (bs, (p + List.length (Runtime._encode_bytes bs))%nat).
Proof.
  intros Hlen Hdata Hfit. unfold Runtime._encode_bytes in *.
  rewrite Z.mod_small in * by (split; [apply Nat2Z.is_nonneg | exact Hlen]).
  destruct (holds_app _ _ _ _ Hdata) as [Hprefix Hpayload].
  rewrite length_app in *.
  unfold Runtime._decode_bytes.
  rewrite (decode_varint_inverts data p _
             (conj (Nat2Z.is_nonneg _) Hlen) Hprefix).
  rewrite Nat2Z.id. unfold Runtime._slice.
  replace (_ <=? _)%nat with true by (symmetry; apply Nat.leb_le; lia).
  replace (_ <=? _)%nat with true by (symmetry; apply Nat.leb_le; lia).
  cbn [andb].
  match goal with |- context [seq ?a ?n] =>
    replace n with (List.length bs) by lia end.
  rewrite (slice_holds data bs _ Hpayload).
  f_equal. f_equal. lia.
Qed.

Lemma decode_bytes_truncated data p len q :
  Runtime._decode_varint data p = Some (len, q) ->
  (Runtime.dataLength data < q + Z.to_nat len)%nat ->
  Runtime._decode_bytes data p = None.
Proof.
  intros Hvar Hshort. unfold Runtime._decode_bytes. rewrite Hvar.
  unfold Runtime._slice.
  replace (q + Z.to_nat len <=? Runtime.dataLength data)%nat with false
    by (symmetry; apply Nat.leb_gt; exact Hshort).
  rewrite andb_false_r. reflexivity.
Qed.

(** X3.  [_decode_varint] inverts [_encode_varint] on every [uint64], at any
    offset of any buffer that holds the encoding, and stops right behind it;
    so a key written by [_encode_key] is read back by [_decode_key]. *)
Theorem decode_varint_encode_varint
  (data : Runtime.Memory) (p : nat) (v : Z) :
  0 <= v < 2 ^ 64 ->
  Runtime.holds data p (Runtime._encode_varint v) ->
  Runtime._decode_varint data p =
    Some (v, (p + List.length (Runtime._encode_varint v))%nat)
  /\ Runtime._decode_key data p =
       Some (v, (p + List.length (Runtime._encode_key v))%nat).
Proof.
  intros Hv Hdata. split; exact (decode_varint_inverts data p v Hv Hdata).
Qed.

Lemma decode_varint_encode_varint_witness :
  Runtime._encode_varint 300 = [172; 2]
  /\ Runtime._decode_varint (Runtime.ofList [8; 172; 2; 7]) 1 = Some (300, 3%nat).
Proof.
  split; [reflexivity |].
  refine (proj1 (decode_varint_encode_varint
                   (Runtime.ofList [8; 172; 2; 7]) 1 300 _ _)).
  - split; [lia | reflexivity].
  - exact (holds_ofList [8] [172; 2] [7]).
Defined.

(** X4.  The varint of a [uint64] is self-delimiting and at most ten bytes
    long: every byte but the last carries the continuation bit, the last
    one does not. *)
Theorem encode_varint_self_delimiting (v : Z) :
  0 <= v < 2 ^ 64 ->
  exists init final,
    Runtime._encode_varint v = List.app init [final]
    /\ 0 <= final < 128
    /\ Forall (fun b => 128 <= b < 256) init
    /\ (List.length init <= 9)%nat.
Proof.
  intros Hv. rewrite encode_varint_loop by lia.
  apply encodeVarintLoop_shape.
  split; [lia |]. apply Z.lt_trans with (2 ^ 64); [lia | reflexivity].
Qed.

Lemma encode_varint_self_delimiting_witness :
  exists init final,
    Runtime._encode_varint (2 ^ 64 - 1) = List.app init [final]
    /\ 0 <= final < 128
    /\ Forall (fun b => 128 <= b < 256) init
    /\ (List.length init <= 9)%nat.
Proof.
  apply encode_varint_self_delimiting. split; [discriminate | reflexivity].
Defined.

(** X5.  [_decode_varint] reads at most ten bytes and never looks at the
    length of the buffer.  It reverts exactly when ten bytes in a row carry
    the continuation bit; otherwise it stops behind the first byte without
    it.  The word its loop leaves in the return variable has seven bits
    for every byte read: it is the [uint64] itself unless ten bytes were
    read, and below 2^70 then.  Bits 64 to 69 are lost on a caller written
    in Solidity and seen by one that reads the variable in assembly: ten
    bytes that end in 2 read as 0, and as the [int64] -2^63 through
    [_decode_zigzag64]; [_decode_zigzag32] also sees bit 32 of a
    five-byte varint. *)
Theorem decode_varint_stops_within_ten_bytes
  (data : Runtime.Memory) (p : nat) :
  (Runtime._decode_varint data p = None <->
   forall i, (i < 10)%nat -> Z.land (Runtime.byteAt data (p + i)) 128 <> 0)
  /\ (forall v q,
        Runtime._decode_varint data p = Some (v, q) ->
        (p < q <= p + 10)%nat
        /\ Z.land (Runtime.byteAt data (q - 1)) 128 = 0
        /\ (forall i, (p <= i < q - 1)%nat ->
              Z.land (Runtime.byteAt data i) 128 <> 0)
        /\ exists word,
             Runtime.decodeVarintWord data p = Some (word, q)
             /\ v = word mod 2 ^ 64
             /\ 0 <= word < 2 ^ (7 * Z.of_nat (q - p))
             /\ ((q < p + 10)%nat -> v = word))
  /\ (let overlong :=
        Runtime.ofList [128; 128; 128; 128; 128; 128; 128; 128; 128; 2] in
      Runtime.decodeVarintWord overlong 0 = Some (2 ^ 64, 10%nat)
      /\ Runtime._decode_varint overlong 0 = Some (0, 10%nat)
      /\ Runtime._decode_zigzag64 overlong 0 = Some (- 2 ^ 63, 10%nat))
  /\ Runtime._decode_zigzag32 (Runtime.ofList [129; 128; 128; 128; 16]) 0 =
       Some (2 ^ 31 - 1, 5%nat).
Proof.
  split; [| split; [| split]].
  - rewrite decode_varint_reverts_with_word.
    exact (decodeVarintLoop_reverts 10 data p 0 (le_n 10)).
  - intros v q H. apply decode_varint_of_word in H as (word & H & ->).
    unfold Runtime.decodeVarintWord in H.
    destruct (decodeVarintLoop_stops _ _ _ _ _ _ _ H) as (Hq & Hlast & Hbefore).
    destruct (decodeVarintLoop_range 10 data p 0 0 word q
                (Z.le_refl 0) ltac:(simpl; lia) H) as [_ Hword].
    rewrite Z.add_0_l in Hword.
    split; [exact Hq |]. split; [exact Hlast |]. split; [exact Hbefore |].
    exists word. split; [exact H |]. split; [reflexivity |].
    split; [exact Hword |].
    intros Hshort. apply Z.mod_small. split; [lia |].
    apply Z.lt_le_trans with (2 ^ (7 * Z.of_nat (q - p))); [lia |].
    apply Z.pow_le_mono_r; lia.
  - repeat split; reflexivity.
  - reflexivity.
Qed.

(** X6.  ZigZag: [_decode_zigzag32] inverts [_encode_zigzag32] on every
    [int32] and [_decode_zigzag64] inverts [_encode_zigzag64] on every
    [int64], the extremes included. *)
Theorem decode_zigzag_encode_zigzag (data : Runtime.Memory) (p : nat) :
  (forall v,
     - 2 ^ 31 <= v < 2 ^ 31 ->
     Runtime.holds data p (Runtime._encode_zigzag32 v) ->
     Runtime._decode_zigzag32 data p =
     Some (v, (p + List.length (Runtime._encode_zigzag32 v))%nat))
  /\ (forall v,
        - 2 ^ 63 <= v < 2 ^ 63 ->
        Runtime.holds data p (Runtime._encode_zigzag64 v) ->
        Runtime._decode_zigzag64 data p =
        Some (v, (p + List.length (Runtime._encode_zigzag64 v))%nat)).
Proof.
  split; intros v Hv Hdata.
  - destruct (unzigzag32_zigzag32 v Hv) as [Hrange Hback].
    unfold Runtime._decode_zigzag32, Runtime._encode_zigzag32 in *.
    rewrite (decode_word_inverts data p (Runtime.zigzag32 v)); [| | exact Hdata].
    + rewrite Hback. reflexivity.
    + split; [lia |]. apply Z.lt_trans with (2 ^ 32); [lia | reflexivity].
  - destruct (unzigzag64_zigzag64 v Hv) as [Hrange Hback].
    unfold Runtime._decode_zigzag64, Runtime._encode_zigzag64 in *.
    rewrite (decode_word_inverts data p (Runtime.zigzag64 v) Hrange Hdata).
    rewrite Hback. reflexivity.
Qed.

Lemma decode_zigzag_encode_zigzag_witness :
  (Runtime._encode_zigzag32 (- 2 ^ 31) = [255; 255; 255; 255; 15]
   /\ Runtime._decode_zigzag32 (Runtime.ofList [255; 255; 255; 255; 15]) 0 =
      Some (- 2 ^ 31, 5%nat))
  /\ (Runtime._encode_zigzag64 (-1) = [1]
      /\ Runtime._decode_zigzag64 (Runtime.ofList [1]) 0 = Some (-1, 1%nat)).
Proof.
  pose proof (decode_zigzag_encode_zigzag
                (Runtime.ofList [255; 255; 255; 255; 15]) 0) as [H32 _].
  pose proof (decode_zigzag_encode_zigzag (Runtime.ofList [1]) 0) as [_ H64].
  split; (split; [reflexivity |]).
  - refine (H32 (- 2 ^ 31) _ _).
    + split; [apply Z.le_refl | reflexivity].
    + exact (holds_ofList [] [255; 255; 255; 255; 15] []).
  - refine (H64 (-1) _ _).
    + split; [discriminate | reflexivity].
    + exact (holds_ofList [] [1] []).
Defined.

(** X7.  The fixed-width codecs are little-endian inverses: four bytes for
    [fixed32] and [sfixed32], eight for [fixed64] and [sfixed64], over the
    whole unsigned and signed ranges. *)
Theorem decode_fixed_encode_fixed (data : Runtime.Memory) (p : nat) :
  (forall v, 0 <= v < 2 ^ 32 ->
     Runtime.holds data p (Runtime._encode_fixed32 v) ->
     Runtime._decode_fixed32 data p = Some (v, (p + 4)%nat))
  /\ (forall v, - 2 ^ 31 <= v < 2 ^ 31 ->
        Runtime.holds data p (Runtime._encode_sfixed32 v) ->
        Runtime._decode_sfixed32 data p = Some (v, (p + 4)%nat))
  /\ (forall v, 0 <= v < 2 ^ 64 ->
        Runtime.holds data p (Runtime._encode_fixed64 v) ->
        Runtime._decode_fixed64 data p = Some (v, (p + 8)%nat))
  /\ (forall v, - 2 ^ 63 <= v < 2 ^ 63 ->
        Runtime.holds data p (Runtime._encode_sfixed64 v) ->
        Runtime._decode_sfixed64 data p = Some (v, (p + 8)%nat)).
Proof.
  repeat split; intros v Hv Hdata.
  - exact (decode_fixed32_inverts data p v Hv Hdata).
  - destruct (toInt32_toUint32 v Hv) as [Hrange Hback].
    unfold Runtime._decode_sfixed32, Runtime._encode_sfixed32 in *.
    rewrite (decode_fixed32_inverts data p _ Hrange Hdata), Hback.
    reflexivity.
  - exact (decode_fixed64_inverts data p v Hv Hdata).
  - destruct (toInt64_toUint64 v Hv) as [Hrange Hback].
    unfold Runtime._decode_sfixed64, Runtime._encode_sfixed64 in *.
    rewrite (decode_fixed64_inverts data p _ Hrange Hdata), Hback.
    reflexivity.
Qed.

Lemma decode_fixed_encode_fixed_witness :
  (Runtime._encode_sfixed32 (-2) = [254; 255; 255; 255]
   /\ Runtime._decode_sfixed32 (Runtime.ofList [254; 255; 255; 255]) 0 =
      Some (-2, 4%nat))
  /\ (Runtime._encode_fixed64 (2 ^ 64 - 1) =
      [255; 255; 255; 255; 255; 255; 255; 255]
      /\ Runtime._decode_fixed64
           (Runtime.ofList [255; 255; 255; 255; 255; 255; 255; 255]) 0 =
         Some (2 ^ 64 - 1, 8%nat)).
Proof.
  pose proof (decode_fixed_encode_fixed
                (Runtime.ofList [254; 255; 255; 255]) 0) as (_ & H32 & _).
  pose proof (decode_fixed_encode_fixed
                (Runtime.ofList [255; 255; 255; 255; 255; 255; 255; 255]) 0)
    as (_ & _ & H64 & _).
  split; (split; [reflexivity |]).
  - refine (H32 (-2) _ _).
    + split; [discriminate | reflexivity].
    + exact (holds_ofList [] [254; 255; 255; 255] []).
  - refine (H64 (2 ^ 64 - 1) _ _).
    + split; [discriminate | reflexivity].
    + exact (holds_ofList [] [255; 255; 255; 255; 255; 255; 255; 255] []).
Defined.

(** X8.  Length-delimited values: [_decode_bytes] and [_decode_string]
    return what [_encode_bytes] and [_encode_string] wrote when the
    encoding lies inside the buffer, and revert when the declared length
    runs past the end of the buffer. *)
Theorem decode_bytes_encode_bytes (data : Runtime.Memory) (p : nat) :
  (forall bs,
     Z.of_nat (List.length bs) < 2 ^ 64 ->
     Runtime.holds data p (Runtime._encode_bytes bs) ->
     (p + List.length (Runtime._encode_bytes bs)
      <= Runtime.dataLength data)%nat ->
     Runtime._decode_bytes data p =
       Some (bs, (p + List.length (Runtime._encode_bytes bs))%nat)
     /\ Runtime._decode_string data p =
          Some (bs, (p + List.length (Runtime._encode_string bs))%nat))
  /\ (forall len q,
        Runtime._decode_varint data p = Some (len, q) ->
        (Runtime.dataLength data < q + Z.to_nat len)%nat ->
        Runtime._decode_bytes data p = None
        /\ Runtime._decode_string data p = None).
Proof.
  split.
  - intros bs Hlen Hdata Hfit.
    split; exact (decode_bytes_inverts data p bs Hlen Hdata Hfit).
  - intros len q Hvar Hshort.
    split; exact (decode_bytes_truncated data p len q Hvar Hshort).
Qed.

Lemma decode_bytes_encode_bytes_witness :
  (Runtime._encode_bytes [104; 105] = [2; 104; 105]
   /\ Runtime._decode_bytes (Runtime.ofList [18; 2; 104; 105]) 1 =
      Some ([104; 105], 4%nat))
  /\ Runtime._decode_bytes (Runtime.ofList [18; 2; 104]) 1 = None.
Proof.
  pose proof (decode_bytes_encode_bytes
                (Runtime.ofList [18; 2; 104; 105]) 1) as [Hback _].
  pose proof (decode_bytes_encode_bytes
                (Runtime.ofList [18; 2; 104]) 1) as [_ Hshort].
  split; [split; [reflexivity |] |].
  - refine (proj1 (Hback [104; 105] _ _ _)).
    + reflexivity.
    + exact (holds_ofList [18] [2; 104; 105] []).
    + exact (le_n 4).
  - refine (proj1 (Hshort 2 2%nat _ _)).
    + reflexivity.
    + exact (le_n 4).
Defined.

Lemma decode_bool_inverts data p (b : bool) :
  Runtime.holds data p (Runtime._encode_bool b) ->
  Runtime._decode_bool data p = Some (b, S p).
Proof.
  intros Hdata. unfold Runtime._decode_bool, Runtime._encode_bool in *.
  assert (Hv : 0 <= (if b then 1 else 0) < 2 ^ 64)
    by (destruct b; split; (discriminate || reflexivity)).
  assert (Henc : Runtime._encode_varint (if b then 1 else 0)
                 = [if b then 1 else 0]) by (destruct b; reflexivity).
  rewrite <- Henc in Hdata.
  rewrite (decode_varint_inverts data p _ Hv Hdata), Henc.
  destruct b; cbn [List.length]; rewrite Nat.add_1_r; reflexivity.
Qed.

(** X9.  [_decode_bool] inverts [_encode_bool], which writes one byte; and
    it takes every varint other than zero for [true]. *)
Theorem decode_bool_encode_bool (data : Runtime.Memory) (p : nat) :
  (forall b : bool,
     Runtime.holds data p (Runtime._encode_bool b) ->
     Runtime._decode_bool data p = Some (b, S p))
  /\ (forall v q,
        Runtime._decode_varint data p = Some (v, q) ->
        Runtime._decode_bool data p = Some (negb (v =? 0)%Z, q)).
Proof.
  split.
  - intros b Hdata. exact (decode_bool_inverts data p b Hdata).
  - intros v q H. unfold Runtime._decode_bool. rewrite H. reflexivity.
Qed.

Lemma decode_bool_encode_bool_witness :
  Runtime._decode_bool (Runtime.ofList [1]) 0 = Some (true, 1%nat)
  /\ Runtime._decode_bool (Runtime.ofList [172; 2]) 0 = Some (true, 2%nat).
Proof.
  pose proof (decode_bool_encode_bool (Runtime.ofList [1]) 0) as [Hback _].
  pose proof (decode_bool_encode_bool (Runtime.ofList [172; 2]) 0)
    as [_ Hany].
  split.
  - exact (Hback true (holds_ofList [] [1] [])).
  - exact (Hany 300 2%nat eq_refl).
Defined.

(** X10.  Skipping agrees with decoding on where the next field starts:
    [_skip_field] lands where [_decode_varint], [_decode_fixed64],
    [_decode_bytes] and [_decode_fixed32] land for wire types 0, 1, 2 and
    5.  For wire type 2 it does not check the declared length against the
    buffer, and every other wire type (groups among them) reverts. *)
Theorem skip_field_lands_where_decoding_lands
  (data : Runtime.Memory) (p : nat) :
  (forall v q, Runtime._decode_varint data p = Some (v, q) ->
     Runtime._skip_field data p 0 = Some q
     /\ Runtime._skip_field data p 2 = Some (q + Z.to_nat v)%nat)
  /\ (forall v q, Runtime._decode_fixed64 data p = Some (v, q) ->
        Runtime._skip_field data p 1 = Some q)
  /\ (forall v q, Runtime._decode_bytes data p = Some (v, q) ->
        Runtime._skip_field data p 2 = Some q)
  /\ (forall v q, Runtime._decode_fixed32 data p = Some (v, q) ->
        Runtime._skip_field data p 5 = Some q)
  /\ (forall w, w <> 0 -> w <> 1 -> w <> 2 -> w <> 5 ->
        Runtime._skip_field data p w = None).
Proof.
  split; [| split; [| split; [| split]]].
  - intros v q H. unfold Runtime._skip_field. cbn [Z.eqb Pos.eqb].
    rewrite H. split; reflexivity.
  - intros v q H. unfold Runtime._decode_fixed64 in H.
    injection H as _ <-. reflexivity.
  - intros v q H. unfold Runtime._decode_bytes in H.
    unfold Runtime._skip_field. cbn [Z.eqb Pos.eqb].
    destruct (Runtime._decode_varint data p) as [[len q'] |];
      [| discriminate H].
    destruct (Runtime._slice data q' (q' + Z.to_nat len));
      [| discriminate H].
    injection H as _ <-. reflexivity.
  - intros v q H. unfold Runtime._decode_fixed32 in H.
    injection H as _ <-. reflexivity.
  - intros w H0 H1 H2 H5. unfold Runtime._skip_field.
    rewrite (proj2 (Z.eqb_neq w 0) H0), (proj2 (Z.eqb_neq w 1) H1),
      (proj2 (Z.eqb_neq w 2) H2), (proj2 (Z.eqb_neq w 5) H5).
    reflexivity.
Qed.

(** ** Names of messages, members and files *)

Lemma lastSegment_without_dot (n : string) :
  hasDot n = false -> lastSegment n = n.
Proof.
  intros Hn. destruct n as [| c rest]; [reflexivity |].
  rewrite lastSegment_cons, Hn. reflexivity.
Qed.

Lemma hasDot_append (a b : string) :
  hasDot (a ++ b) = hasDot a || hasDot b.
Proof.
  induction a as [| c a IH]; [reflexivity |].
  simpl. rewrite IH. apply orb_assoc.
Qed.

Lemma lastSegment_qualified (q n : string) :
  hasDot n = false -> lastSegment (q ++ "." ++ n) = n.
Proof.
  intros Hn. induction q as [| c q IH].
  - change ("" ++ "." ++ n) with (String "." n).
    rewrite lastSegment_cons. simpl hasDot.
    apply lastSegment_without_dot. exact Hn.
  - change (String c q ++ "." ++ n) with (String c (q ++ "." ++ n)).
    rewrite lastSegment_cons.
    replace (hasDot (String c (q ++ "." ++ n))) with true; [exact IH |].
    symmetry. simpl hasDot. rewrite hasDot_append. simpl.
    rewrite orb_true_r. apply orb_true_r.
Qed.

(** X11.  [resolveSolType] on a message-typed field and [protoNameToSol]
    are the same function of the referenced name: the part after the last
    dot.  It has no dot, a leading dot makes no difference, and the scope
    is discarded, so that a local name stands for itself whatever it is
    nested in. *)
Theorem resolveSolType_is_protoNameToSol (typeName : string) :
  resolveSolType 11 (Some typeName) = Js.Ok (protoNameToSol typeName)
  /\ hasDot (protoNameToSol typeName) = false
  /\ protoNameToSol ("." ++ typeName) = protoNameToSol typeName
  /\ (forall scope local,
        hasDot local = false ->
        typeName = scope ++ "." ++ local ->
        protoNameToSol typeName = local).
Proof.
  unfold protoNameToSol. rewrite !last_split_is_lastSegment.
  split; [exact (resolveSolType_message (Some typeName)) |].
  split; [exact (proj1 (lastSegment_after_last_dot typeName)) |].
  split; [exact (lastSegment_stripLeadingDot (String "." typeName)) |].
  intros scope local Hlocal ->. apply lastSegment_qualified. exact Hlocal.
Qed.

(** ** [snakeToCamel] as a function on names *)

(** Induction two characters at a time, as the scan consumes them. *)
Lemma string_pair_ind (P : string -> Prop) :
  P "" ->
  (forall c, P (String c "")) ->
  (forall c d rest, P rest -> P (String d rest) -> P (String c (String d rest))) ->
  forall s, P s.
Proof.
  intros Hnil Hone Htwo s.
  assert (H : P s /\ forall c, P (String c s)).
  { induction s as [| d rest [IHrest IHcons]].
    - split; [exact Hnil | exact Hone].
    - split; [apply IHcons |].
      intros c. apply Htwo; [exact IHrest | apply IHcons]. }
  exact (proj1 H).
Qed.

Lemma toUpperCase_not_lower (c : ascii) :
  isLower c = true ->
  isLower (toUpperCase c) = false /\ Ascii.eqb (toUpperCase c) "_" = false.
Proof.
  destruct c as [[] [] [] [] [] [] [] []]; intros H;
    try discriminate H; split; reflexivity.
Qed.

Lemma underscore_not_lower : isLower "_" = false.
Proof. reflexivity. Qed.

Lemma snakeToCamel_cases (c : ascii) (rest : string) :
  snakeToCamel (String c rest) =
    if Ascii.eqb c "_" && isLowerAt (firstChar rest)
    then match rest with
         | String d rest' => String (toUpperCase d) (snakeToCamel rest')
         | EmptyString => EmptyString
         end
    else String c (snakeToCamel rest).
Proof.
  simpl. destruct (Ascii.eqb c "_"); [| reflexivity].
  destruct rest as [| d rest']; [reflexivity |].
  simpl. destruct (isLower d); reflexivity.
Qed.

Lemma firstChar_snakeToCamel (s : string) :
  isLowerAt (firstChar (snakeToCamel s)) = true ->
  isLowerAt (firstChar s) = true.
Proof.
  destruct s as [| c rest]; [intros H; exact H |].
  rewrite snakeToCamel_cases.
  destruct (Ascii.eqb c "_" && isLowerAt (firstChar rest)) eqn:Hmatch.
  - apply andb_prop in Hmatch as [_ Hlow].
    destruct rest as [| d rest']; [discriminate Hlow |].
    simpl in Hlow. simpl.
    rewrite (proj1 (toUpperCase_not_lower d Hlow)). discriminate.
  - intros H. exact H.
Qed.

Lemma settled_snakeToCamel (s : string) : settled (snakeToCamel s) = true.
Proof.
  induction s as [| c | c d rest IHrest IHcons] using string_pair_ind.
  - reflexivity.
  - simpl. destruct (Ascii.eqb c "_"); simpl;
      rewrite andb_false_r; reflexivity.
  - rewrite snakeToCamel_cases.
    destruct (Ascii.eqb c "_" && isLowerAt (firstChar (String d rest)))
      eqn:Hmatch.
    + apply andb_prop in Hmatch as [_ Hlow]. simpl in Hlow.
      cbn [settled]. rewrite (proj2 (toUpperCase_not_lower d Hlow)).
      exact IHrest.
    + cbn [settled]. rewrite IHcons, andb_true_r.
      apply negb_true_iff.
      destruct (Ascii.eqb c "_") eqn:Hc; [| reflexivity].
      cbn [andb firstChar isLowerAt] in Hmatch. cbn [andb].
      destruct (isLowerAt (firstChar (snakeToCamel (String d rest))))
        eqn:Hfirst; [| reflexivity].
      apply firstChar_snakeToCamel in Hfirst. simpl in Hfirst.
      rewrite Hfirst in Hmatch. discriminate Hmatch.
Qed.

Lemma snakeToCamel_settled (s : string) :
  settled s = true -> snakeToCamel s = s.
Proof.
  induction s as [| c rest IH]; [reflexivity |].
  cbn [settled]. intros H. apply andb_prop in H as [Hhere Hrest].
  rewrite snakeToCamel_cases.
  apply negb_true_iff in Hhere. rewrite Hhere, (IH Hrest). reflexivity.
Qed.

Lemma snakeToCamel_length (s : string) :
  (String.length (snakeToCamel s) <= String.length s)%nat
  /\ (settled s = false ->
      (String.length (snakeToCamel s) < String.length s)%nat).
Proof.
  induction s as [| c | c d rest IHrest IHcons] using string_pair_ind.
  - split; [apply le_n | discriminate].
  - split.
    + simpl. destruct (Ascii.eqb c "_"); apply le_n.
    + simpl. rewrite andb_false_r. discriminate.
  - rewrite snakeToCamel_cases. cbn [settled].
    destruct (Ascii.eqb c "_" && isLowerAt (firstChar (String d rest)))
      eqn:Hmatch.
    + cbn [String.length]. destruct IHrest as [Hle _]. split; [lia |].
      intros _. lia.
    + cbn [String.length negb andb]. destruct IHcons as [Hle Hlt].
      cbn [String.length] in Hle, Hlt. split; [lia |].
      intros Hns. specialize (Hlt Hns). lia.
Qed.

(** X12.  [snakeToCamel] is idempotent: its result has no underscore left
    directly before a lowercase letter.  It never makes a name longer, and
    it leaves a name unchanged exactly when the name has no such
    underscore. *)
Theorem snakeToCamel_idempotent (name : string) :
  snakeToCamel (snakeToCamel name) = snakeToCamel name
  /\ settled (snakeToCamel name) = true
  /\ (String.length (snakeToCamel name) <= String.length name)%nat
  /\ (snakeToCamel name = name <-> settled name = true).
Proof.
  split; [apply snakeToCamel_settled, settled_snakeToCamel |].
  split; [apply settled_snakeToCamel |].
  split; [exact (proj1 (snakeToCamel_length name)) |].
  split; [| apply snakeToCamel_settled].
  intros Hsame. destruct (settled name) eqn:Hs; [reflexivity |].
  pose proof (proj2 (snakeToCamel_length name) Hs) as Hlt.
  rewrite Hsame in Hlt. lia.
Qed.

Lemma snakeToCamel_append (a s : string) :
  isLowerAt (firstChar s) = false ->
  snakeToCamel (a ++ s) = snakeToCamel a ++ snakeToCamel s.
Proof.
  intros Hs.
  induction a as [| c | c d rest IHrest IHcons] using string_pair_ind.
  - reflexivity.
  - change (String c "" ++ s) with (String c s).
    rewrite snakeToCamel_cases, Hs, andb_false_r.
    simpl. destruct (Ascii.eqb c "_"); reflexivity.
  - change (String c (String d rest) ++ s)
      with (String c (String d (rest ++ s))).
    rewrite !snakeToCamel_cases with (c := c).
    cbn [firstChar].
    destruct (Ascii.eqb c "_" && isLowerAt (Some d)).
    + rewrite IHrest. reflexivity.
    + change (String d (rest ++ s)) with (String d rest ++ s).
      rewrite IHcons. reflexivity.
Qed.

(** X13.  [snakeToCamel] is not injective.  A name written with an
    underscore before a lowercase letter and the same name written with
    the capital letter instead give the same member name: the conversion
    of what precedes, the capital letter, the conversion of what
    follows. *)
Theorem snakeToCamel_collides (before after : string) (c : ascii) :
  isLower c = true ->
  snakeToCamel (before ++ String "_" (String c after)) =
    snakeToCamel (before ++ String (toUpperCase c) after)
  /\ snakeToCamel (before ++ String "_" (String c after)) =
       snakeToCamel before ++ String (toUpperCase c) (snakeToCamel after).
Proof.
  intros Hc. destruct (toUpperCase_not_lower c Hc) as [Hup Hnot].
  rewrite !snakeToCamel_append by (simpl; assumption || reflexivity).
  rewrite (snakeToCamel_cases "_"). cbn [firstChar isLowerAt].
  rewrite Hc. cbn [Ascii.eqb Bool.eqb andb].
  rewrite (snakeToCamel_cases (toUpperCase c)), Hnot.
  split; reflexivity.
Qed.

Lemma snakeToCamel_collides_witness :
  snakeToCamel "user_name" = snakeToCamel "userName"
  /\ snakeToCamel "user_name" = "userName".
Proof.
  exact (snakeToCamel_collides "user" "ame" "n" eq_refl).
Defined.

(** ** [protoFileToSolFile] *)

Lemma splitBy_nonempty (p : ascii -> bool) (s : string) :
  exists h t, Js.splitBy p s = h :: t.
Proof.
  induction s as [| c rest (h & t & IH)].
  - exists "", []. reflexivity.
  - simpl. destruct (p c).
    + exists "", (Js.splitBy p rest). reflexivity.
    + rewrite IH. exists (String c h), t. reflexivity.
Qed.

Lemma splitBy_separated (p : ascii -> bool) (a : string) (c : ascii)
  (g : string) :
  p c = true ->
  exists h t,
    Js.splitBy p (a ++ String c g) = h :: t
    /\ t <> []
    /\ last t "" = last (Js.splitBy p g) "".
Proof.
  intros Hc. destruct (splitBy_nonempty p g) as (gh & gt & Hg).
  induction a as [| x a (h & t & IH & Hne & Hlast)].
  - exists "", (Js.splitBy p g). simpl. rewrite Hc.
    split; [reflexivity |]. split; [rewrite Hg; discriminate | reflexivity].
  - change (String x a ++ String c g) with (String x (a ++ String c g)).
    simpl. rewrite IH. destruct (p x).
    + exists "", (h :: t). split; [reflexivity |].
      split; [discriminate |].
      destruct t as [| y t]; [contradiction Hne; reflexivity | exact Hlast].
    + exists (String x h), t. split; [reflexivity |].
      split; [exact Hne | exact Hlast].
Qed.

Lemma last_splitBy_separated (p : ascii -> bool) (a : string) (c : ascii)
  (g : string) :
  p c = true ->
  last (Js.splitBy p (a ++ String c g)) "" = last (Js.splitBy p g) "".
Proof.
  intros Hc. destruct (splitBy_separated p a c g Hc) as (h & t & -> & Hne & <-).
  destruct t as [| y t]; [contradiction Hne; reflexivity | reflexivity].
Qed.

Lemma hasSlash_append (a b : string) :
  hasSlash (a ++ b) = hasSlash a || hasSlash b.
Proof.
  induction a as [| c a IH]; [reflexivity |].
  simpl. rewrite IH. apply orb_assoc.
Qed.

Lemma stripSuffix_cons (suffix : string) (s : string) :
  Js.stripSuffix suffix s =
    if String.eqb s suffix then ""
    else match s with
         | EmptyString => EmptyString
         | String c rest => String c (Js.stripSuffix suffix rest)
         end.
Proof. destruct s; reflexivity. Qed.

Lemma stripSuffix_behind_slash (dir f : string) :
  Js.stripSuffix ".proto" (dir ++ String "/" f) =
    dir ++ String "/" (Js.stripSuffix ".proto" f).
Proof.
  assert (Hne : forall s, hasSlash s = true -> String.eqb s ".proto" = false).
  { intros s Hs. apply String.eqb_neq. intros ->. discriminate Hs. }
  induction dir as [| c dir IH].
  - change ("" ++ String "/" f) with (String "/" f).
    rewrite stripSuffix_cons, Hne by reflexivity. reflexivity.
  - change (String c dir ++ String "/" f) with (String c (dir ++ String "/" f)).
    rewrite stripSuffix_cons, Hne, IH; [reflexivity |].
    simpl. rewrite hasSlash_append. simpl. rewrite orb_true_r.
    apply orb_true_r.
Qed.

Lemma concat_splitBy_dots (s : string) :
  Js.join "/" (Js.split "." s) = slashesForDots s.
Proof.
  unfold Js.join, Js.split. induction s as [| c rest IH]; [reflexivity |].
  destruct (splitBy_nonempty (fun c => Ascii.eqb c ".") rest) as (h & t & Hs).
  cbn [Js.splitBy slashesForDots]. rewrite Hs in *.
  destruct (Ascii.eqb c ".").
  - change (String.concat "/" ("" :: h :: t))
      with ("" ++ "/" ++ String.concat "/" (h :: t)).
    rewrite IH. reflexivity.
  - rewrite <- IH. destruct t; reflexivity.
Qed.

Lemma splitBy_slash_pieces (s : string) :
  Forall (fun piece => hasSlash piece = false)
    (Js.splitBy (fun c => Ascii.eqb c "/") s).
Proof.
  induction s as [| c rest IH]; [repeat constructor |].
  destruct (splitBy_nonempty (fun c => Ascii.eqb c "/") rest) as (h & t & Hs).
  cbn [Js.splitBy]. rewrite Hs in *.
  destruct (Ascii.eqb c "/") eqn:Hc.
  - constructor; [reflexivity | exact IH].
  - inversion IH as [| ? ? Hh Ht]. subst.
    constructor; [| exact Ht]. simpl. rewrite Hc, Hh. reflexivity.
Qed.

Lemma splitBy_keeps_slash_free (p : ascii -> bool) (s : string) :
  hasSlash s = false ->
  Forall (fun piece => hasSlash piece = false) (Js.splitBy p s).
Proof.
  induction s as [| c rest IH]; intros H; [repeat constructor |].
  simpl in H. apply orb_false_elim in H as [Hc Hrest].
  specialize (IH Hrest).
  destruct (splitBy_nonempty p rest) as (h & t & Hs).
  cbn [Js.splitBy]. rewrite Hs in *. destruct (p c).
  - constructor; [reflexivity | exact IH].
  - inversion IH as [| ? ? Hh Ht]. subst.
    constructor; [| exact Ht]. simpl. rewrite Hc, Hh. reflexivity.
Qed.

Lemma last_slash_free (l : list string) :
  Forall (fun piece => hasSlash piece = false) l ->
  hasSlash (last l "") = false.
Proof.
  induction 1 as [| x l Hx Hl IH]; [reflexivity |].
  destruct l; [exact Hx | exact IH].
Qed.

Lemma capitalize_slash_free (s : string) :
  hasSlash (capitalize s) = hasSlash s.
Proof.
  destruct s as [| c rest]; [reflexivity |].
  simpl. f_equal.
  destruct c as [[] [] [] [] [] [] [] []]; reflexivity.
Qed.

Lemma concat_slash_free (l : list string) :
  Forall (fun piece => hasSlash piece = false) l ->
  hasSlash (Js.join "" l) = false.
Proof.
  unfold Js.join. induction 1 as [| x l Hx Hl IH]; [reflexivity |].
  destruct l as [| y l]; [exact Hx |].
  change (String.concat "" (x :: y :: l))
    with (x ++ "" ++ String.concat "" (y :: l)).
  rewrite !hasSlash_append, Hx, IH. reflexivity.
Qed.

(** X14.  The output name of a schema file depends on the last segment of
    its path only: what precedes the last slash is dropped, so files of one
    package that differ in their directory get the same output name.
    Without a package the name has no slash; with one it is the package, a
    slash for every dot, then a slash and the name without a package. *)
Theorem protoFileToSolFile_drops_directory
  (dir file packageName : string) :
  protoFileToSolFile (dir ++ "/" ++ file) packageName =
    protoFileToSolFile file packageName
  /\ hasSlash (protoFileToSolFile file "") = false
  /\ (packageName <> "" ->
      protoFileToSolFile file packageName =
        slashesForDots packageName ++ "/" ++ protoFileToSolFile file "").
Proof.
  split; [| split].
  - unfold protoFileToSolFile.
    change (dir ++ "/" ++ file) with (dir ++ String "/" file).
    rewrite stripSuffix_behind_slash. unfold Js.split.
    rewrite !last_splitBy_separated by reflexivity.
    reflexivity.
  - unfold protoFileToSolFile. rewrite hasSlash_append.
    rewrite concat_slash_free; [reflexivity |].
    apply Forall_map.
    eapply Forall_impl;
      [| apply splitBy_keeps_slash_free, last_slash_free,
           splitBy_slash_pieces].
    intros piece Hpiece. rewrite capitalize_slash_free. exact Hpiece.
  - intros Hpkg. unfold protoFileToSolFile.
    destruct packageName as [| c rest]; [contradiction Hpkg; reflexivity |].
    rewrite concat_splitBy_dots. reflexivity.
Qed.

Lemma protoFileToSolFile_drops_directory_witness :
  protoFileToSolFile "protos/v1/my_service.proto" "example.nested" =
    protoFileToSolFile "my_service.proto" "example.nested"
  /\ protoFileToSolFile "my_service.proto" "example.nested" =
       "example/nested/MyService.pb.sol".
Proof.
  destruct (protoFileToSolFile_drops_directory "protos/v1" "my_service.proto"
              "example.nested") as (Hdir & _ & Hpkg).
  split; [exact Hdir |].
  rewrite Hpkg by discriminate. reflexivity.
Defined.

(** ** Names in the descriptor model, and the files a request asks for *)

Lemma lastSegment_qualified_name (scope local : string) :
  hasDot local = false -> lastSegment (qualified scope local) = local.
Proof.
  intros Hlocal. destruct scope as [| c scope].
  - apply lastSegment_without_dot. exact Hlocal.
  - apply (lastSegment_qualified (String c scope) local Hlocal).
Qed.

Lemma convertDescriptor_fullName (d : DescriptorProto) (scope : string) :
  fullName (convertDescriptor d scope) =
    qualified scope (msgName (convertDescriptor d scope))
  /\ msgName (convertDescriptor d scope) = Js.orElse (d_name d) "".
Proof.
  destruct d as [n f nested o]. cbn [convertDescriptor fullName msgName d_name].
  split; [| reflexivity]. destruct scope; reflexivity.
Qed.

Lemma convertDescriptor_nested (d : DescriptorProto) (scope : string) :
  nestedMessages (convertDescriptor d scope) =
    map (fun nested =>
           convertDescriptor nested (fullName (convertDescriptor d scope)))
        (Js.orElse (d_nested_type d) []).
Proof.
  destruct d as [n f nested o].
  cbn [convertDescriptor nestedMessages fullName d_nested_type].
  destruct nested; reflexivity.
Qed.

Lemma allMessages_cons (m : MessageDescriptor) :
  allMessages m = m :: flat_map allMessages (nestedMessages m).
Proof. destruct m; reflexivity. Qed.

Lemma plainNames_cons (d : DescriptorProto) :
  plainNames d =
    negb (hasDot (Js.orElse (d_name d) ""))
    && forallb plainNames (Js.orElse (d_nested_type d) []).
Proof. destruct d as [n f [ns |] o]; reflexivity. Qed.

Lemma convertDescriptor_wellNamed (d : DescriptorProto) :
  forall scope,
    plainNames d = true ->
    Forall wellNamed (allMessages (convertDescriptor d scope)).
Proof.
  induction d as [n f nested o IH] using DescriptorProto_nested_ind.
  intros scope Hplain.
  rewrite plainNames_cons in Hplain.
  apply andb_prop in Hplain as [Hname Hnested].
  apply negb_true_iff in Hname.
  rewrite allMessages_cons. constructor.
  - destruct (convertDescriptor_fullName (mkDescriptorProto n f nested o)
                scope) as [Hfull Hlocal].
    assert (Hlast : lastSegment
                      (fullName
                         (convertDescriptor (mkDescriptorProto n f nested o)
                            scope)) =
                    msgName
                      (convertDescriptor (mkDescriptorProto n f nested o)
                         scope)).
    { rewrite Hfull. apply lastSegment_qualified_name.
      rewrite Hlocal. exact Hname. }
    split; [| split].
    + rewrite resolveSolType_message. cbn [Js.orElse].
      rewrite <- Hlast. reflexivity.
    + unfold protoNameToSol. rewrite last_split_is_lastSegment. exact Hlast.
    + rewrite convertDescriptor_nested. apply Forall_map.
      apply Forall_forall. intros child _.
      exact (proj1 (convertDescriptor_fullName child _)).
  - rewrite convertDescriptor_nested. cbn [d_nested_type].
    destruct nested as [ns |]; [| constructor].
    cbn [Js.orElse] in *. specialize (IH ns eq_refl).
    apply Forall_flat_map. apply Forall_map.
    rewrite Forall_forall in *. intros child Hchild.
    apply (IH child Hchild).
    rewrite forallb_forall in Hnested. exact (Hnested child Hchild).
Qed.

(** X16.  Names in the descriptor model.  [extractMessages] names each
    top-level message after the package, [convertDescriptor] each nested
    message after the message it is nested in.  When the names protoc
    gives have no dot, a reference to a message by its full name resolves
    to the message's own name, at every depth of the tree. *)
Theorem convertDescriptor_names_resolve
  (desc : DescriptorProto) (scope : string) :
  plainNames desc = true ->
  Forall wellNamed (allMessages (convertDescriptor desc scope))
  /\ fullName (convertDescriptor desc scope) =
       qualified scope (Js.orElse (d_name desc) "")
  /\ (forall protoFile packageName,
        Forall (fun m => fullName m = qualified packageName (msgName m))
          (extractMessages protoFile packageName)).
Proof.
  intros Hplain.
  split; [exact (convertDescriptor_wellNamed desc scope Hplain) |].
  split.
  - destruct (convertDescriptor_fullName desc scope) as [Hfull Hlocal].
    rewrite Hfull, Hlocal. reflexivity.
  - intros protoFile packageName. unfold extractMessages.
    apply Forall_map. apply Forall_forall. intros d _.
    exact (proj1 (convertDescriptor_fullName d packageName)).
Qed.

Lemma convertDescriptor_names_resolve_witness :
  plainNames cartDescriptor = true
  /\ Forall wellNamed (allMessages (convertDescriptor cartDescriptor "shop")).
Proof.
  split; [reflexivity |].
  exact (proj1 (convertDescriptor_names_resolve cartDescriptor "shop"
                  eq_refl)).
Defined.

Section RequestedFiles.

Variable decodeRequest : Buffer -> Js.result CodeGeneratorRequest.
Variable generateRuntime : string.

Lemma emitAll_agree
  (g1 g2 : list MessageDescriptor -> string -> Js.result string)
  (protoFiles : list FileDescriptorProto) :
  Forall (fun pf => emitFile g1 pf = emitFile g2 pf) protoFiles ->
  emitAll g1 protoFiles = emitAll g2 protoFiles.
Proof.
  induction 1 as [| pf rest Hpf Hrest IH]; [reflexivity |].
  cbn [emitAll]. rewrite Hpf, IH. reflexivity.
Qed.

(** X17.  [processRequest] consults the message-level emitter on the
    requested schema files that have messages and on no other: two
    emitters that agree on those files give the same result, whatever
    they return or throw elsewhere.  With nothing to generate the result
    is the runtime library alone. *)
Theorem processRequest_reads_requested_files_only
  (g1 g2 : list MessageDescriptor -> string -> Js.result string)
  (stdin : Buffer) :
  (forall request,
     decodeRequest stdin = Js.Ok request ->
     Forall
       (fun pf =>
          let fileName := Js.orElse (file_name pf) "" in
          let package := Js.orElse (file_package pf) "" in
          g1 (extractMessages pf package) fileName =
          g2 (extractMessages pf package) fileName)
       (filter (isGenerated (Js.orElse (file_to_generate request) []))
          (Js.orElse (proto_file request) []))) ->
  processRequest decodeRequest generateRuntime g1 stdin =
    processRequest decodeRequest generateRuntime g2 stdin
  /\ (forall request,
        decodeRequest stdin = Js.Ok request ->
        filter (isGenerated (Js.orElse (file_to_generate request) []))
          (Js.orElse (proto_file request) []) = [] ->
        processRequest decodeRequest generateRuntime g1 stdin =
          Js.Ok {| files := [mkFile "ProtobufRuntime.sol" generateRuntime];
                   error := None |}).
Proof.
  intros Hagree. unfold processRequest.
  destruct (decodeRequest stdin) as [request | err];
    cbn [Js.bind]; [| split; [reflexivity | intros ? H; discriminate H]].
  rewrite !generateEach_emitAll.
  split.
  - rewrite (emitAll_agree g1 g2); [reflexivity |].
    eapply Forall_impl; [| exact (Hagree request eq_refl)].
    intros pf Hpf. unfold emitFile. cbv zeta in Hpf. rewrite Hpf.
    reflexivity.
  - intros r Hr Hnone. injection Hr as <-. rewrite Hnone. reflexivity.
Qed.

End RequestedFiles.

(** ** The type table *)

Lemma PROTO_TYPE_MAP_domain (t : Z) (info : SolTypeInfo) :
  PROTO_TYPE_MAP t = Some info -> 1 <= t <= 18 /\ t <> 10.
Proof.
  intros H. destruct t as [| p | p]; try discriminate H.
  do 5 (try (destruct p as [p | p |]; try discriminate H));
    split; lia || discriminate.
Qed.

Lemma PROTO_TYPE_MAP_total (t : Z) :
  1 <= t <= 18 -> t <> 10 -> supported t = true.
Proof.
  intros Hrange Hne.
  assert (H : t = 1 \/ t = 2 \/ t = 3 \/ t = 4 \/ t = 5 \/ t = 6 \/ t = 7
              \/ t = 8 \/ t = 9 \/ t = 11 \/ t = 12 \/ t = 13 \/ t = 14
              \/ t = 15 \/ t = 16 \/ t = 17 \/ t = 18) by lia.
  repeat (destruct H as [-> | H]; [reflexivity |]). subst. reflexivity.
Qed.

(** X15.  The table has the type codes 1 to 18 but 10 (the group).  The
    entry of a message field names no primitive; every other entry names
    an encoder [_encode_<x>] and the decoder [_decode_<x>] of the same
    [x], and its wire type is the wire format that pair has in the
    runtime library. *)
Theorem PROTO_TYPE_MAP_pairs_primitives (fieldType : Z) :
  (supported fieldType = true <-> 1 <= fieldType <= 18 /\ fieldType <> 10)
  /\ (forall info,
        PROTO_TYPE_MAP fieldType = Some info ->
        if (fieldType =? 11)%Z
        then info = mkInfo "" LengthDelimited "" "" ""
        else exists x,
               encodeFunc info = "_encode_" ++ x
               /\ decodeFunc info = "_decode_" ++ x
               /\ primitiveWire x = Some (wireType info)).
Proof.
  split.
  - split.
    + unfold supported.
      destruct (PROTO_TYPE_MAP fieldType) as [info |] eqn:H;
        [intros _; exact (PROTO_TYPE_MAP_domain _ _ H) | discriminate].
    + intros [Hrange Hne]. exact (PROTO_TYPE_MAP_total _ Hrange Hne).
  - intros info H.
    destruct (PROTO_TYPE_MAP_domain _ _ H) as [Hrange Hne].
    assert (Ht : fieldType = 1 \/ fieldType = 2 \/ fieldType = 3
                 \/ fieldType = 4 \/ fieldType = 5 \/ fieldType = 6
                 \/ fieldType = 7 \/ fieldType = 8 \/ fieldType = 9
                 \/ fieldType = 11 \/ fieldType = 12 \/ fieldType = 13
                 \/ fieldType = 14 \/ fieldType = 15 \/ fieldType = 16
                 \/ fieldType = 17 \/ fieldType = 18) by lia.
    repeat (destruct Ht as [-> | Ht];
            [injection H as <-;
             first [reflexivity
                   | eexists; split; [reflexivity |];
                     split; reflexivity] |]).
    subst. injection H as <-.
    eexists. split; [reflexivity |]. split; reflexivity.
Qed.

(** ** Which fields the emitters accept *)

Lemma returned_bind {A B : Type} (c : Js.result A) (k : A -> Js.result B) :
  (forall a, Js.returned (k a) = true) ->
  Js.returned (Js.bind c k) = Js.returned c.
Proof. intros Hk. destruct c as [a | e]; [apply Hk | reflexivity]. Qed.

Lemma supported_resolveSolType (t : Z) (tn : option string) :
  Js.returned (resolveSolType t tn) = supported t.
Proof. apply resolveSolType_returned. Qed.

Lemma genRepeatedEncode_returns field solName info tagHex :
  supported (type field) = true ->
  Js.returned (genRepeatedEncode field solName info tagHex) = true.
Proof.
  intros Hsup. unfold genRepeatedEncode. cbv zeta.
  rewrite returned_bind by reflexivity.
  destruct (isMessage field); [| reflexivity].
  rewrite returned_bind by reflexivity.
  rewrite supported_resolveSolType. exact Hsup.
Qed.

Lemma genRepeatedDecode_returns field solName info tag :
  supported (type field) = true ->
  Js.returned (genRepeatedDecode field solName info tag) = true.
Proof.
  intros Hsup. unfold genRepeatedDecode.
  destruct (isMessage field); rewrite returned_bind by reflexivity;
    rewrite supported_resolveSolType; exact Hsup.
Qed.

Lemma genMapEncode_returns field tagHex :
  Js.returned (genMapEncode field tagHex) =
    match mapEntry field with
    | Some me => supported (keyType me) && supported (valueType me)
    | None => false
    end.
Proof.
  unfold genMapEncode. cbv zeta.
  destruct (mapEntry field) as [me |]; [| reflexivity].
  unfold supported.
  destruct (PROTO_TYPE_MAP (keyType me)) as [keyInfo |]; [| reflexivity].
  rewrite returned_bind by reflexivity. cbn [andb].
  destruct (Z.eqb_spec (valueType me) 11) as [H11 | Hne].
  - rewrite returned_bind by reflexivity.
    rewrite supported_resolveSolType, H11. reflexivity.
  - destruct (PROTO_TYPE_MAP (valueType me)); reflexivity.
Qed.

Lemma genMapDecode_returns field solName tag :
  Js.returned (genMapDecode field solName tag) =
    match mapEntry field with
    | Some me => supported (keyType me) && supported (valueType me)
    | None => false
    end.
Proof.
  unfold genMapDecode. cbv zeta.
  destruct (mapEntry field) as [me |]; [| reflexivity].
  pose proof (supported_resolveSolType (keyType me) None) as Hkey.
  pose proof (supported_resolveSolType (valueType me) (valueTypeName me))
    as Hval.
  unfold supported in *.
  destruct (resolveSolType (keyType me) None) as [keySol | e];
    cbn [Js.bind Js.returned] in *;
    destruct (PROTO_TYPE_MAP (keyType me)) as [keyInfo |];
    try discriminate Hkey; [| reflexivity].
  destruct (resolveSolType (valueType me) (valueTypeName me))
    as [valSol | e'];
    cbn [Js.bind Js.returned] in *;
    destruct (PROTO_TYPE_MAP (valueType me)) as [valInfo |];
    try discriminate Hval; [| reflexivity].
  rewrite returned_bind by reflexivity. cbn [andb].
  destruct (valueType me =? 11)%Z; reflexivity.
Qed.

(** X18.  The fields the three emitters accept.  [genFieldEncode] and
    [genFieldDecode] return for every field that is no map field, and for
    a map field exactly when the table has its key type and its value
    type (or has not the field's own type: the marker comment).
    [genStructMember] returns exactly when the table has the field's own
    type and, for a map field, the key and the value type. *)
Theorem emitters_return_iff_supported (field : FieldInfo) :
  Js.returned (genFieldEncode field) =
    negb (supported (type field)) || mapSupported field
  /\ Js.returned (genFieldDecode field) =
       negb (supported (type field)) || mapSupported field
  /\ Js.returned (genStructMember field) =
       supported (type field) && mapSupported field.
Proof.
  unfold mapSupported. split; [| split].
  - unfold genFieldEncode. cbv zeta.
    pose proof (genMapEncode_returns field) as Hmap.
    destruct (PROTO_TYPE_MAP (type field)) as [info |] eqn:Hinfo;
      unfold supported at 1; rewrite Hinfo; [| reflexivity].
    cbn [negb orb].
    destruct (mapEntry field) as [me |]; [apply Hmap |].
    destruct (isRepeated field).
    + apply genRepeatedEncode_returns. unfold supported. rewrite Hinfo.
      reflexivity.
    + destruct (isMessage field); [| reflexivity].
      unfold genMessageEncode. rewrite returned_bind by reflexivity.
      rewrite supported_resolveSolType. unfold supported. rewrite Hinfo.
      reflexivity.
  - unfold genFieldDecode. cbv zeta.
    pose proof (genMapDecode_returns field) as Hmap.
    destruct (PROTO_TYPE_MAP (type field)) as [info |] eqn:Hinfo;
      unfold supported at 1; rewrite Hinfo; [| reflexivity].
    cbn [negb orb].
    destruct (mapEntry field) as [me |]; [apply Hmap |].
    destruct (isRepeated field).
    + apply genRepeatedDecode_returns. unfold supported. rewrite Hinfo.
      reflexivity.
    + destruct (isMessage field); [| reflexivity].
      unfold genMessageDecode. rewrite returned_bind by reflexivity.
      rewrite supported_resolveSolType. unfold supported. rewrite Hinfo.
      reflexivity.
  - unfold genStructMember. cbv zeta.
    pose proof (supported_resolveSolType (type field) (typeName field))
      as Hown.
    destruct (resolveSolType (type field) (typeName field)) as [solType | e];
      cbn [Js.bind Js.returned] in *; rewrite <- Hown; [| reflexivity].
    cbn [andb].
    destruct (mapEntry field) as [me |]; [| reflexivity].
    pose proof (supported_resolveSolType (keyType me) None) as Hkey.
    destruct (resolveSolType (keyType me) None) as [keySol | e];
      cbn [Js.bind Js.returned] in *; rewrite <- Hkey; [| reflexivity].
    rewrite returned_bind by reflexivity.
    apply supported_resolveSolType.
Qed.

(** ** What the accepted fragments do *)

(** *** When a fragment is accepted *)

Ltac settle e :=
  match goal with
  | H : e = _ |- _ => rewrite H
  | _ => destruct e eqn:?
  end.

Ltac check_step :=
  match goal with
  | |- context [Sol.arrTy ?sc ?x] => settle (Sol.arrTy sc x)
  | |- context [Sol.varTy ?sc ?x] => settle (Sol.varTy sc x)
  | |- context [Sol.codecOf None ?c] =>
      change (Sol.codecOf None c) with false
  | |- context [Sol.converts (Sol.TUint 64) (Sol.TUint 64)] =>
      change (Sol.converts (Sol.TUint 64) (Sol.TUint 64)) with true
  | |- context [Sol.fitsUint64 ?t] => settle (Sol.fitsUint64 t)
  | |- context [Sol.codecOf ?t ?c] => settle (Sol.codecOf t c)
  | |- context [Sol.encoderNamed ?f] => settle (Sol.encoderNamed f)
  | |- context [Sol.decoderNamed ?f] => settle (Sol.decoderNamed f)
  | |- context [Sol.converts ?a ?b] => settle (Sol.converts a b)
  end;
  cbn - [String.append Sol.fitsUint64 Sol.encoderNamed Sol.decoderNamed
         Sol.converts Sol.codecOf Sol.primType Sol.typeOf Sol.isValueType
         Sol.update].

Ltac check_cases :=
  cbn - [String.append Sol.fitsUint64 Sol.encoderNamed Sol.decoderNamed
         Sol.converts Sol.codecOf Sol.primType Sol.typeOf Sol.isValueType
         Sol.update];
  repeat check_step; try reflexivity.

Lemma accepts_singularEncode (sc : Sol.scope) (solName : string)
  (nestedCodec : option string) (encodeFunc : string) (tag : Z) :
  Sol.accepts sc (Sol.singularEncode solName nestedCodec encodeFunc tag) =
    Sol.fitsUint64 tag
    && Sol.encodeCallTyped (Sol.varTy sc ("msg." ++ solName)) nestedCodec
         encodeFunc.
Proof. destruct nestedCodec as [codec |]; check_cases. Qed.

Lemma accepts_repeatedEncode (sc : Sol.scope) (solName : string)
  (nestedCodec : option string) (encodeFunc : string) (tag : Z) :
  Sol.accepts sc (Sol.repeatedEncode solName nestedCodec encodeFunc tag) =
    Sol.fitsUint64 tag
    && Sol.encodeCallTyped (Sol.arrTy sc ("msg." ++ solName)) nestedCodec
         encodeFunc.
Proof. destruct nestedCodec as [codec |]; check_cases. Qed.

Lemma accepts_mapEncode (sc : Sol.scope) (solName : string) (keyTag : Z)
  (keyEncode : string) (nestedCodec : option string) (valTag : Z)
  (valEncode : string) (tag : Z) :
  Sol.accepts sc
    (Sol.mapEncode solName keyTag keyEncode nestedCodec valTag valEncode tag)
  = Sol.fitsUint64 tag && Sol.fitsUint64 keyTag && Sol.fitsUint64 valTag
    && Sol.encodeCallTyped (Sol.arrTy sc ("msg." ++ solName ++ "_keys")) None
         keyEncode
    && Sol.encodeCallTyped (Sol.arrTy sc ("msg." ++ solName ++ "_values"))
         nestedCodec valEncode.
Proof. destruct nestedCodec as [codec |]; check_cases. Qed.

Ltac check_cases' :=
  cbn - [Sol.fitsUint64 Sol.encoderNamed Sol.decoderNamed
         Sol.converts Sol.codecOf Sol.primType Sol.typeOf Sol.isValueType];
  repeat (check_step;
          cbn - [Sol.fitsUint64 Sol.encoderNamed Sol.decoderNamed
                 Sol.converts Sol.codecOf Sol.primType Sol.typeOf
                 Sol.isValueType]);
  try reflexivity.

Lemma acceptsCase_singularDecode (sc : Sol.scope) (solName : string)
  (nestedCodec : option string) (decodeFunc : string) (tag : Z) :
  Sol.acceptsCase sc (Sol.singularDecode solName nestedCodec decodeFunc tag) =
    Sol.fitsUint64 tag
    && Sol.decodeCallTyped (Sol.varTy sc ("msg." ++ solName)) nestedCodec
         decodeFunc.
Proof.
  unfold Sol.acceptsCase.
  destruct nestedCodec as [codec |]; check_cases'.
Qed.

Lemma acceptsCase_repeatedDecode (sc : Sol.scope) (solName elemType : string)
  (nestedCodec : option string) (decodeFunc : string) (tag : Z) :
  Sol.acceptsCase sc
    (Sol.repeatedDecode solName elemType nestedCodec decodeFunc tag) =
    Sol.fitsUint64 tag
    && match nestedCodec with
       | Some codec => Sol.codecOf (Sol.arrTy sc ("msg." ++ solName)) codec
       | None =>
           Sol.slotTyped elemType None decodeFunc
             (Sol.arrTy sc ("msg." ++ solName))
       end.
Proof.
  unfold Sol.acceptsCase, Sol.slotTyped, Sol.decodeCallTyped.
  destruct nestedCodec as [codec |]; [check_cases' |].
  cbn - [Sol.fitsUint64 Sol.encoderNamed Sol.decoderNamed
         Sol.converts Sol.codecOf Sol.primType Sol.typeOf Sol.isValueType].
  destruct (Sol.fitsUint64 tag); [| reflexivity].
  destruct (Sol.typeOf elemType) as [t |]; [| check_cases'].
  destruct (Sol.isValueType t); check_cases'.
Qed.

Lemma acceptsCase_mapDecode (sc : Sol.scope) (solName keySol valSol : string)
  (keyTag : Z) (keyDecode : string) (nestedCodec : option string)
  (valTag : Z) (valDecode : string) (tag : Z) :
  Sol.acceptsCase sc
    (Sol.mapDecode solName keySol valSol keyTag keyDecode nestedCodec valTag
       valDecode tag) =
    Sol.fitsUint64 tag && Sol.fitsUint64 keyTag && Sol.fitsUint64 valTag
    && Sol.slotTyped keySol None keyDecode
         (Sol.arrTy sc ("msg." ++ solName ++ "_keys"))
    && Sol.slotTyped valSol nestedCodec valDecode
         (Sol.arrTy sc ("msg." ++ solName ++ "_values")).
Proof.
  unfold Sol.acceptsCase, Sol.slotTyped, Sol.decodeCallTyped.
  cbn - [Sol.fitsUint64 Sol.encoderNamed Sol.decoderNamed
         Sol.converts Sol.codecOf Sol.primType Sol.typeOf Sol.isValueType].
  destruct (Sol.fitsUint64 tag); [| reflexivity].
  destruct (Sol.typeOf keySol) as [tk |];
    [| destruct (Sol.fitsUint64 keyTag), (Sol.fitsUint64 valTag);
       reflexivity].
  destruct (Sol.isValueType tk); cbn [andb].
  2:{ destruct (Sol.fitsUint64 keyTag), (Sol.fitsUint64 valTag);
        check_cases'. }
  destruct (Sol.typeOf valSol) as [tv |]; cbn [andb].
  2:{ destruct (Sol.fitsUint64 keyTag), (Sol.fitsUint64 valTag);
        check_cases'. }
  destruct (Sol.isValueType tv) eqn:Hvalue; cbn [andb].
  2:{ destruct (Sol.fitsUint64 keyTag), (Sol.fitsUint64 valTag);
        check_cases'. }
  destruct nestedCodec as [codec |]; check_cases'.
Qed.

(** *** Values of the declared types *)

Section FieldFragments.

Variable M : Type.
Variable codecEncode : string -> M -> option (list Z).
Variable codecDecode : string -> list Z -> option M.

Local Abbreviation exec := (Sol.exec codecEncode codecDecode).
Local Abbreviation run := (Sol.run codecEncode codecDecode).
Local Abbreviation runCase := (Sol.runCase codecEncode codecDecode).

Ltac step :=
  cbn - [String.append String.eqb Sol.encoderNamed Sol.decoderNamed
         Sol.primEncode Sol.primDecode Sol.fitsUint64 Sol.typeOf Sol.zeroOf
         Runtime._encode_key Runtime._encode_varint Runtime._decode_varint
         Runtime._decode_key Runtime._slice Z.pow Z.modulo Z.of_nat
         List.length List.app].

(** A value that converts implicitly stays what it is: the target type
    has it too. *)
Lemma inType_converts (t t' : Sol.ty) (v : Sol.value M) :
  Sol.converts t t' = true -> Sol.inType t v = true ->
  Sol.inType t' v = true.
Proof.
  destruct t as [a | a | | | | n], t' as [b | b | | | | n'];
    try discriminate; cbn [Sol.converts]; intros Hconv Hin;
    try exact Hin.
  - destruct v as [z | | |]; try discriminate Hin. cbn [Sol.inType] in *.
    apply Z.leb_le in Hconv. apply andb_true_iff in Hin as [Hlo Hhi].
    apply Z.leb_le in Hlo. apply Z.ltb_lt in Hhi.
    apply andb_true_iff. split; [apply Z.leb_le; exact Hlo |].
    apply Z.ltb_lt. apply Z.lt_le_trans with (2 ^ a); [exact Hhi |].
    apply Z.pow_le_mono_r; lia.
  - destruct v as [z | | |]; try discriminate Hin. cbn [Sol.inType] in *.
    apply Z.leb_le in Hconv. apply andb_true_iff in Hin as [Hlo Hhi].
    apply Z.leb_le in Hlo. apply Z.ltb_lt in Hhi.
    assert (Hpow : 2 ^ (a - 1) <= 2 ^ (b - 1))
      by (apply Z.pow_le_mono_r; lia).
    apply andb_true_iff. split; [apply Z.leb_le | apply Z.ltb_lt]; lia.
Qed.

(** The runtime's encoders are defined on every value of their
    parameter's type. *)
Lemma primEncode_inType (p : Sol.primitive) (v : Sol.value M) :
  Sol.inType (Sol.primType p) v = true ->
  exists bytes, Sol.primEncode p v = Some bytes.
Proof.
  intros Hin. unfold Sol.primEncode. rewrite Hin.
  destruct p, v; try discriminate Hin; eexists; reflexivity.
Qed.

Lemma typed_primitive_encodes (t : Sol.ty) (encodeFunc : string)
  (v : Sol.value M) :
  Sol.encodeCallTyped (Some t) None encodeFunc = true ->
  Sol.inType t v = true ->
  exists p bytes,
    Sol.encoderNamed encodeFunc = Some p
    /\ Sol.primEncode p v = Some bytes
    /\ Sol.valueBytes codecEncode None encodeFunc v = Some bytes.
Proof.
  unfold Sol.encodeCallTyped, Sol.valueBytes. intros Htyped Hin.
  destruct (Sol.encoderNamed encodeFunc) as [p |]; [| discriminate Htyped].
  destruct (primEncode_inType p v (inType_converts _ _ _ Htyped Hin))
    as [bytes Hbytes].
  exists p, bytes. repeat split; assumption.
Qed.

Lemma typed_message_is_message (t : Sol.ty) (codec encodeFunc : string)
  (v : Sol.value M) :
  Sol.codecOf (Some t) codec = true ->
  Sol.inType t v = true ->
  exists m, v = Sol.Message m.
Proof.
  unfold Sol.codecOf. intros Htyped Hin.
  destruct t; try discriminate Htyped.
  destruct v as [| | | m]; try discriminate Hin. exists m. reflexivity.
Qed.

(** *** Writing one value *)

(** The key and a primitive behind it. *)
Lemma keyedPrim_runs (b encodeFunc : string) (hex : bool) (op : Sol.operand)
  (tag : Z) (data : Runtime.Memory) (k : nat) (st : Sol.state M)
  (p : Sol.primitive) (v : Sol.value M) (bytes : list Z) :
  (0 < k)%nat ->
  Sol.fitsUint64 tag = true ->
  Sol.encoderNamed encodeFunc = Some p ->
  Sol.evalOperand st op = Some v ->
  Sol.primEncode p v = Some bytes ->
  exists st',
    Sol.execSeq (exec data k)
      [ Sol.AppendKey b hex tag; Sol.AppendPrim b encodeFunc op ] st
      = Sol.Done st'
    /\ Sol.bufs st' b =
         List.app (Sol.bufs st b) (List.app (Runtime._encode_key tag) bytes)
    /\ (forall other, String.eqb b other = false ->
          Sol.bufs st' other = Sol.bufs st other)
    /\ Sol.nums st' = Sol.nums st
    /\ Sol.vals st' = Sol.vals st
    /\ Sol.arrs st' = Sol.arrs st
    /\ Sol.pos st' = Sol.pos st.
Proof.
  intros Hk Hfits Hname Hop Hbytes. destruct k as [| k]; [lia |].
  eexists. split.
  - step. rewrite Hfits. step. rewrite Hname. step.
    assert (Hop' : Sol.evalOperand
                     (Sol.setBuf b
                        (List.app (Sol.bufs st b) (Runtime._encode_key tag))
                        st) op = Some v)
      by (destruct op; exact Hop).
    rewrite Hop'. step. rewrite Hbytes. step. reflexivity.
  - step. rewrite !update_same, List.app_assoc.
    split; [reflexivity |]. split; [| repeat split; reflexivity].
    intros other Hother. rewrite !(update_other _ _ _ _ Hother). reflexivity.
Qed.

(** The key, the nested encoding into a buffer of its own, that buffer's
    length, the buffer. *)
Lemma keyedMessage_runs (b tmp codec : string) (hex : bool)
  (op : Sol.operand) (tag : Z) (data : Runtime.Memory) (k : nat)
  (st : Sol.state M) (m : M) :
  (0 < k)%nat ->
  String.eqb tmp b = false ->
  Sol.fitsUint64 tag = true ->
  Sol.evalOperand st op = Some (Sol.Message m) ->
  match codecEncode codec m with
  | Some encoded =>
      exists st',
        Sol.execSeq (exec data k)
          [ Sol.AppendKey b hex tag;
            Sol.EncodeTo tmp codec op;
            Sol.AppendLength b tmp;
            Sol.AppendBytes b tmp ] st = Sol.Done st'
        /\ Sol.bufs st' b =
             List.app (Sol.bufs st b) (Sol.delimited tag encoded)
        /\ (forall other,
              String.eqb b other = false -> String.eqb tmp other = false ->
              Sol.bufs st' other = Sol.bufs st other)
        /\ Sol.nums st' = Sol.nums st
        /\ Sol.vals st' = Sol.vals st
        /\ Sol.arrs st' = Sol.arrs st
        /\ Sol.pos st' = Sol.pos st
  | None =>
      Sol.execSeq (exec data k)
        [ Sol.AppendKey b hex tag;
          Sol.EncodeTo tmp codec op;
          Sol.AppendLength b tmp;
          Sol.AppendBytes b tmp ] st = Sol.Reverted
  end.
Proof.
  intros Hk Htmp Hfits Hop. destruct k as [| k]; [lia |].
  assert (Hop' : Sol.evalOperand
                   (Sol.setBuf b
                      (List.app (Sol.bufs st b) (Runtime._encode_key tag))
                      st) op = Some (Sol.Message m))
    by (destruct op; exact Hop).
  assert (Hb : String.eqb b tmp = false)
    by (rewrite String.eqb_sym; exact Htmp).
  destruct (codecEncode codec m) as [encoded |] eqn:Hcodec.
  - eexists. split.
    + step. rewrite Hfits. step. rewrite Hop'. step. rewrite Hcodec. step.
      reflexivity.
    + step. rewrite !update_same.
      rewrite (update_other _ tmp b _ Htmp), update_same.
      rewrite (update_other _ b tmp _ Hb), !update_same.
      unfold Sol.delimited. rewrite <- !List.app_assoc.
      split; [reflexivity |]. split; [| repeat split; reflexivity].
      intros other Hother Hother'.
      rewrite !(update_other _ _ _ _ Hother), (update_other _ _ _ _ Hother').
      rewrite (update_other _ _ _ _ Hother). reflexivity.
  - step. rewrite Hfits. step. rewrite Hop'. step. rewrite Hcodec.
    reflexivity.
Qed.

(** *** Fields that are neither repeated nor a map: encode *)

Lemma typed_member (sc : Sol.scope) (x : string)
  (nestedCodec : option string) (encodeFunc : string) (st : Sol.state M) :
  Sol.encodeCallTyped (Sol.varTy sc x) nestedCodec encodeFunc = true ->
  Sol.conforms sc st ->
  exists t,
    Sol.varTy sc x = Some t
    /\ Sol.encodeCallTyped (Some t) nestedCodec encodeFunc = true
    /\ Sol.inType t (Sol.vals st x) = true.
Proof.
  intros Htyped [Hvars _].
  destruct (Sol.varTy sc x) as [t |] eqn:Ht.
  - exists t. repeat split; [exact Htyped | exact (Hvars x t Ht)].
  - destruct nestedCodec; cbn in Htyped; [discriminate Htyped |].
    destruct (Sol.encoderNamed encodeFunc); discriminate Htyped.
Qed.

(** The statements of a singular field write the field's record, or
    revert with the nested codec. *)
Lemma singularEncode_runs (sc : Sol.scope) (solName : string)
  (nestedCodec : option string) (encodeFunc : string) (tag : Z)
  (data : Runtime.Memory) (fuel : nat) (st : Sol.state M) :
  (0 < fuel)%nat ->
  Sol.accepts sc (Sol.singularEncode solName nestedCodec encodeFunc tag)
    = true ->
  Sol.conforms sc st ->
  match Sol.fieldBytes codecEncode nestedCodec encodeFunc tag
          (Sol.vals st ("msg." ++ solName)) with
  | Some record =>
      exists st',
        run sc data fuel
          (Sol.singularEncode solName nestedCodec encodeFunc tag) st
          = Sol.Done st'
        /\ Sol.bufs st' "buf" = List.app (Sol.bufs st "buf") record
        /\ Sol.vals st' = Sol.vals st
        /\ Sol.arrs st' = Sol.arrs st
        /\ Sol.pos st' = Sol.pos st
  | None =>
      run sc data fuel
        (Sol.singularEncode solName nestedCodec encodeFunc tag) st
        = Sol.Reverted
      /\ nestedCodec <> None
  end.
Proof.
  intros Hfuel Haccepts Hconf. unfold Sol.run. rewrite Haccepts.
  rewrite accepts_singularEncode in Haccepts.
  apply andb_true_iff in Haccepts as [Hfits Htyped].
  destruct (typed_member sc _ nestedCodec encodeFunc st Htyped Hconf)
    as (t & _ & Hcall & Hin).
  unfold Sol.fieldBytes.
  destruct nestedCodec as [codec |]; cbn [Sol.singularEncode].
  - destruct (typed_message_is_message t codec encodeFunc _ Hcall Hin)
      as [m Hm].
    pose proof (keyedMessage_runs "buf" (solName ++ "_encoded") codec true
                  (Sol.Member ("msg." ++ solName)) tag data fuel st m
                  Hfuel (encoded_is_not_buf solName) Hfits
                  ltac:(cbn [Sol.evalOperand]; rewrite Hm; reflexivity))
      as Hrun.
    rewrite Hm. cbn [Sol.valueBytes].
    destruct (codecEncode codec m) as [encoded |].
    + destruct Hrun as (st' & Hrun & Hbuf & _ & _ & Hvals & Harrs & Hpos).
      exists st'. repeat split; assumption.
    + split; [exact Hrun | discriminate].
  - destruct (typed_primitive_encodes t encodeFunc _ Hcall Hin)
      as (p & bytes & Hname & Hprim & Hbytes).
    rewrite Hbytes.
    destruct (keyedPrim_runs "buf" encodeFunc true
                (Sol.Member ("msg." ++ solName)) tag data fuel st p _ bytes
                Hfuel Hfits Hname eq_refl Hprim)
      as (st' & Hrun & Hbuf & _ & _ & Hvals & Harrs & Hpos).
    exists st'. repeat split; assumption.
Qed.

(** *** Loops over a member array *)

Lemma skipn_nth_error {A : Type} (l : list A) (j : nat) (x : A) :
  nth_error l j = Some x -> skipn j l = x :: skipn (S j) l.
Proof.
  revert j. induction l as [| a l IH]; intros [| j] Hnth;
    try discriminate Hnth.
  - injection Hnth as ->. reflexivity.
  - simpl in Hnth. apply (IH j Hnth).
Qed.

Lemma nth_error_combine {A B : Type} (l : list A) (m : list B) (j : nat)
  (a : A) (b : B) :
  nth_error l j = Some a -> nth_error m j = Some b ->
  nth_error (combine l m) j = Some (a, b).
Proof.
  revert m j. induction l as [| x l IH]; intros [| y m] [| j] Ha Hb;
    try discriminate Ha; try discriminate Hb.
  - injection Ha as ->. injection Hb as ->. reflexivity.
  - simpl. apply IH; assumption.
Qed.

Lemma nth_error_below {A : Type} (l : list A) (j : nat) :
  (j < List.length l)%nat -> exists x, nth_error l j = Some x.
Proof.
  intros Hlt. destruct (nth_error l j) as [x |] eqn:Hnth.
  - exists x. reflexivity.
  - apply nth_error_None in Hnth. lia.
Qed.

(** A [for] loop over the indices of an array whose body, at the index of
    the item [a], appends the record of [a] to [buf] or reverts when [a]
    has none, and leaves the counters and the arrays alone: from index
    [j] on, one record per item, in order, or a revert. *)
Lemma forLoop_records {A : Type} (i arr : string) (body : list Sol.stmt)
  (record : A -> option (list Z)) (items : list A)
  (arrs0 : string -> list (Sol.value M)) (data : Runtime.Memory) (k : nat) :
  List.length items = List.length (arrs0 arr) ->
  (forall st j a,
     Sol.arrs st = arrs0 ->
     Sol.nums st i = Z.of_nat j ->
     nth_error items j = Some a ->
     match record a with
     | Some r =>
         exists st',
           Sol.execSeq (exec data k) body st = Sol.Done st'
           /\ Sol.bufs st' "buf" = List.app (Sol.bufs st "buf") r
           /\ Sol.nums st' = Sol.nums st
           /\ Sol.arrs st' = Sol.arrs st
     | None => Sol.execSeq (exec data k) body st = Sol.Reverted
     end) ->
  forall (m j fuel : nat) (st : Sol.state M),
    (j + m = List.length items)%nat ->
    (m < fuel)%nat ->
    Sol.nums st i = Z.of_nat j ->
    Sol.arrs st = arrs0 ->
    match Sol.recordList record (skipn j items) with
    | Some rs =>
        exists st',
          Sol.loop fuel
            (fun st =>
               (Sol.nums st i <? Z.of_nat (List.length (Sol.arrs st arr)))%Z)
            (fun st =>
               Sol.andThen (Sol.execSeq (exec data k) body st)
                 (fun st => Sol.Done (Sol.setNum i (Sol.nums st i + 1) st)))
            st = Sol.Done st'
          /\ Sol.bufs st' "buf" = List.app (Sol.bufs st "buf") (concat rs)
          /\ Sol.arrs st' = Sol.arrs st
    | None =>
        Sol.loop fuel
          (fun st =>
             (Sol.nums st i <? Z.of_nat (List.length (Sol.arrs st arr)))%Z)
          (fun st =>
             Sol.andThen (Sol.execSeq (exec data k) body st)
               (fun st => Sol.Done (Sol.setNum i (Sol.nums st i + 1) st)))
          st = Sol.Reverted
    end.
Proof.
  intros Hlen Hbody.
  induction m as [| m IH]; intros j fuel st Hj Hfuel Hi Harrs;
    (destruct fuel as [| fuel]; [lia |]);
    assert (Harr : Sol.arrs st arr = arrs0 arr)
      by (rewrite Harrs; reflexivity).
  - rewrite skipn_all2 by lia. cbn [Sol.recordList].
    exists st. cbn [Sol.loop]. rewrite Hi, Harr.
    replace (Z.of_nat j <? Z.of_nat (List.length (arrs0 arr)))%Z
      with false by (symmetry; apply Z.ltb_ge; lia).
    split; [reflexivity |].
    simpl. rewrite List.app_nil_r. split; reflexivity.
  - destruct (nth_error_below items j ltac:(lia)) as [a Ha].
    rewrite (skipn_nth_error items j a Ha). cbn [Sol.recordList].
    specialize (Hbody st j a Harrs Hi Ha).
    cbn [Sol.loop]. rewrite Hi, Harr.
    replace (Z.of_nat j <? Z.of_nat (List.length (arrs0 arr)))%Z
      with true by (symmetry; apply Z.ltb_lt; lia).
    destruct (record a) as [r |].
    + destruct Hbody as (st1 & Hround & Hbuf1 & Hnums1 & Harrs1).
      rewrite Hround. cbn [Sol.andThen].
      specialize (IH (S j) fuel
                    (Sol.setNum i (Sol.nums st1 i + 1) st1)).
      assert (Hnext : Sol.nums (Sol.setNum i (Sol.nums st1 i + 1) st1) i
                      = Z.of_nat (S j)).
      { cbn [Sol.setNum Sol.nums]. rewrite update_same, Hnums1, Hi. lia. }
      assert (Harrs' : Sol.arrs (Sol.setNum i (Sol.nums st1 i + 1) st1)
                       = arrs0).
      { cbn [Sol.setNum Sol.arrs]. rewrite Harrs1. exact Harrs. }
      specialize (IH ltac:(lia) ltac:(lia) Hnext Harrs').
      destruct (Sol.recordList record (skipn (S j) items)) as [rs |].
      * destruct IH as (st' & Hloop & Hbuf' & Harrs'').
        exists st'. split; [exact Hloop |]. split.
        -- rewrite Hbuf'. cbn [Sol.setNum Sol.bufs]. rewrite Hbuf1.
           cbn [concat]. rewrite <- List.app_assoc. reflexivity.
        -- rewrite Harrs'', Harrs', Harrs. reflexivity.
      * exact IH.
    + rewrite Hbody. reflexivity.
Qed.

Lemma recordList_defined {A : Type} (record : A -> option (list Z))
  (items : list A) :
  Forall (fun a => record a <> None) items ->
  Sol.recordList record items <> None.
Proof.
  induction 1 as [| a items Ha _ IH]; cbn [Sol.recordList];
    [discriminate |].
  destruct (record a); [| contradiction].
  destruct (Sol.recordList record items); [discriminate | contradiction].
Qed.

Lemma typed_array (sc : Sol.scope) (x : string)
  (nestedCodec : option string) (encodeFunc : string) (st : Sol.state M) :
  Sol.encodeCallTyped (Sol.arrTy sc x) nestedCodec encodeFunc = true ->
  Sol.conforms sc st ->
  exists t,
    Sol.arrTy sc x = Some t
    /\ Sol.encodeCallTyped (Some t) nestedCodec encodeFunc = true
    /\ Forall (fun v => Sol.inType t v = true) (Sol.arrs st x).
Proof.
  intros Htyped [_ Harrs].
  destruct (Sol.arrTy sc x) as [t |] eqn:Ht.
  - exists t. repeat split; [exact Htyped | exact (Harrs x t Ht)].
  - destruct nestedCodec; cbn in Htyped; [discriminate Htyped |].
    destruct (Sol.encoderNamed encodeFunc); discriminate Htyped.
Qed.

Lemma elem_is_not_buf : String.eqb "_elem" "buf" = false.
Proof. reflexivity. Qed.

(** *** Repeated fields: encode *)

(** The loop of a repeated field, run on the member array: one record per
    element, in index order, each under the field's key; a nested codec
    that reverts on an element reverts the loop. *)
Lemma repeatedEncode_runs (sc : Sol.scope) (solName : string)
  (nestedCodec : option string) (encodeFunc : string) (tag : Z)
  (data : Runtime.Memory) (fuel : nat) (st : Sol.state M) :
  (List.length (Sol.arrs st ("msg." ++ solName)) + 2 <= fuel)%nat ->
  Sol.accepts sc (Sol.repeatedEncode solName nestedCodec encodeFunc tag)
    = true ->
  Sol.conforms sc st ->
  match Sol.recordList (Sol.fieldBytes codecEncode nestedCodec encodeFunc tag)
          (Sol.arrs st ("msg." ++ solName)) with
  | Some records =>
      exists st',
        run sc data fuel
          (Sol.repeatedEncode solName nestedCodec encodeFunc tag) st
          = Sol.Done st'
        /\ Sol.bufs st' "buf" = List.app (Sol.bufs st "buf") (concat records)
        /\ Sol.arrs st' = Sol.arrs st
  | None =>
      run sc data fuel
        (Sol.repeatedEncode solName nestedCodec encodeFunc tag) st
        = Sol.Reverted
      /\ nestedCodec <> None
  end.
Proof.
  intros Hfuel Haccepts Hconf. unfold Sol.run. rewrite Haccepts.
  rewrite accepts_repeatedEncode in Haccepts.
  apply andb_true_iff in Haccepts as [Hfits Htyped].
  destruct (typed_array sc _ nestedCodec encodeFunc st Htyped Hconf)
    as (t & _ & Hcall & Hin).
  destruct fuel as [| k]; [lia |].
  assert (Hk : (0 < k)%nat) by lia.
  set (x := "msg." ++ solName) in *.
  set (i := "_i_" ++ solName).
  assert (Hloop :
    forall body,
      (forall st0 j a,
         Sol.arrs st0 = Sol.arrs st ->
         Sol.nums st0 i = Z.of_nat j ->
         nth_error (Sol.arrs st x) j = Some a ->
         match Sol.fieldBytes codecEncode nestedCodec encodeFunc tag a with
         | Some r =>
             exists st',
               Sol.execSeq (exec data k) body st0 = Sol.Done st'
               /\ Sol.bufs st' "buf" = List.app (Sol.bufs st0 "buf") r
               /\ Sol.nums st' = Sol.nums st0
               /\ Sol.arrs st' = Sol.arrs st0
         | None =>
             Sol.execSeq (exec data k) body st0 = Sol.Reverted
         end) ->
      match Sol.recordList
              (Sol.fieldBytes codecEncode nestedCodec encodeFunc tag)
              (Sol.arrs st x) with
      | Some records =>
          exists st',
            Sol.execSeq (exec data (S k)) [Sol.For i x body] st
              = Sol.Done st'
            /\ Sol.bufs st' "buf"
               = List.app (Sol.bufs st "buf") (concat records)
            /\ Sol.arrs st' = Sol.arrs st
      | None =>
          Sol.execSeq (exec data (S k)) [Sol.For i x body] st
            = Sol.Reverted
      end).
  { intros body Hbody.
    pose proof (forLoop_records i x body
                  (Sol.fieldBytes codecEncode nestedCodec encodeFunc tag)
                  (Sol.arrs st x) (Sol.arrs st) data k eq_refl Hbody
                  (List.length (Sol.arrs st x)) 0%nat k
                  (Sol.setNum i 0 st) eq_refl ltac:(lia)
                  ltac:(cbn [Sol.setNum Sol.nums]; apply update_same)
                  eq_refl) as Hrun.
    cbn [skipn] in Hrun. cbn [Sol.execSeq]. cbn [Sol.exec].
    destruct (Sol.recordList _ (Sol.arrs st x)) as [records |].
    - destruct Hrun as (st' & Hrun & Hbuf & Harrs).
      exists st'. rewrite Hrun. repeat split; assumption.
    - rewrite Hrun. reflexivity. }
  assert (Hitem : forall j a, nth_error (Sol.arrs st x) j = Some a ->
                              Sol.inType t a = true).
  { intros j a Ha. rewrite Forall_forall in Hin.
    apply Hin. exact (nth_error_In _ _ Ha). }
  destruct nestedCodec as [codec |];
    cbn [Sol.repeatedEncode Sol.repeatedMessageEncode
         Sol.repeatedScalarEncode]; fold x; fold i.
  - specialize (Hloop
      [ Sol.AppendKey "buf" true tag;
        Sol.EncodeTo "_elem" codec (Sol.Element x i);
        Sol.AppendLength "buf" "_elem";
        Sol.AppendBytes "buf" "_elem" ]).
    assert (Hbody : forall st0 j a,
              Sol.arrs st0 = Sol.arrs st ->
              Sol.nums st0 i = Z.of_nat j ->
              nth_error (Sol.arrs st x) j = Some a ->
              match Sol.fieldBytes codecEncode (Some codec) encodeFunc tag a
              with
              | Some r =>
                  exists st',
                    Sol.execSeq (exec data k)
                      [ Sol.AppendKey "buf" true tag;
                        Sol.EncodeTo "_elem" codec (Sol.Element x i);
                        Sol.AppendLength "buf" "_elem";
                        Sol.AppendBytes "buf" "_elem" ] st0 = Sol.Done st'
                    /\ Sol.bufs st' "buf" = List.app (Sol.bufs st0 "buf") r
                    /\ Sol.nums st' = Sol.nums st0
                    /\ Sol.arrs st' = Sol.arrs st0
              | None =>
                  Sol.execSeq (exec data k)
                    [ Sol.AppendKey "buf" true tag;
                      Sol.EncodeTo "_elem" codec (Sol.Element x i);
                      Sol.AppendLength "buf" "_elem";
                      Sol.AppendBytes "buf" "_elem" ] st0 = Sol.Reverted
              end).
    { intros st0 j a Harrs0 Hi Ha.
      destruct (typed_message_is_message t codec encodeFunc a Hcall
                  (Hitem j a Ha)) as [m ->].
      pose proof (keyedMessage_runs "buf" "_elem" codec true
                    (Sol.Element x i) tag data k st0 m Hk elem_is_not_buf
                    Hfits)
        as Hrun.
      cbn [Sol.evalOperand] in Hrun. rewrite Harrs0, Hi, Nat2Z.id in Hrun.
      specialize (Hrun Ha).
      unfold Sol.fieldBytes. cbn [Sol.valueBytes].
      destruct (codecEncode codec m) as [encoded |]; [| exact Hrun].
      destruct Hrun as (st' & Hrun & Hbuf & _ & Hnums & _ & Harrs' & _).
      exists st'. split; [exact Hrun |]. split; [exact Hbuf |].
      split; congruence. }
    specialize (Hloop Hbody).
    destruct (Sol.recordList _ (Sol.arrs st x)) as [records |];
      [exact Hloop | split; [exact Hloop | discriminate]].
  - specialize (Hloop
      [ Sol.AppendKey "buf" true tag;
        Sol.AppendPrim "buf" encodeFunc (Sol.Element x i) ]).
    assert (Hrecord : forall j a, nth_error (Sol.arrs st x) j = Some a ->
              exists p bytes,
                Sol.encoderNamed encodeFunc = Some p
                /\ Sol.primEncode p a = Some bytes
                /\ Sol.fieldBytes codecEncode None encodeFunc tag a
                   = Some (List.app (Runtime._encode_key tag) bytes)).
    { intros j a Ha.
      destruct (typed_primitive_encodes t encodeFunc a Hcall (Hitem j a Ha))
        as (p & bytes & Hname & Hprim & Hbytes).
      exists p, bytes. unfold Sol.fieldBytes. rewrite Hbytes.
      repeat split; assumption. }
    assert (Hbody : forall st0 j a,
              Sol.arrs st0 = Sol.arrs st ->
              Sol.nums st0 i = Z.of_nat j ->
              nth_error (Sol.arrs st x) j = Some a ->
              match Sol.fieldBytes codecEncode None encodeFunc tag a with
              | Some r =>
                  exists st',
                    Sol.execSeq (exec data k)
                      [ Sol.AppendKey "buf" true tag;
                        Sol.AppendPrim "buf" encodeFunc (Sol.Element x i) ]
                      st0 = Sol.Done st'
                    /\ Sol.bufs st' "buf" = List.app (Sol.bufs st0 "buf") r
                    /\ Sol.nums st' = Sol.nums st0
                    /\ Sol.arrs st' = Sol.arrs st0
              | None =>
                  Sol.execSeq (exec data k)
                    [ Sol.AppendKey "buf" true tag;
                      Sol.AppendPrim "buf" encodeFunc (Sol.Element x i) ]
                    st0 = Sol.Reverted
              end).
    { intros st0 j a Harrs0 Hi Ha.
      destruct (Hrecord j a Ha) as (p & bytes & Hname & Hprim & ->).
      destruct (keyedPrim_runs "buf" encodeFunc true (Sol.Element x i) tag
                  data k st0 p a bytes Hk Hfits Hname
                  ltac:(cbn [Sol.evalOperand];
                        rewrite Harrs0, Hi, Nat2Z.id; exact Ha) Hprim)
        as (st' & Hrun & Hbuf & _ & Hnums & _ & Harrs' & _).
      exists st'. repeat split; assumption. }
    specialize (Hloop Hbody).
    destruct (Sol.recordList _ (Sol.arrs st x)) as [records |] eqn:Hrecords;
      [exact Hloop | exfalso].
    revert Hrecords. apply recordList_defined.
    apply Forall_forall. intros a Ha.
    destruct (In_nth_error _ _ Ha) as [j Hj].
    destruct (Hrecord j a Hj) as (p & bytes & _ & _ & ->). discriminate.
Qed.

(** *** Map fields: encode *)

Ltac lookups :=
  repeat (rewrite update_same
          || rewrite update_other by reflexivity).

(** One round of the loop body at an index that both arrays have: a fresh
    entry buffer receives the key as field 1 and the value as field 2, and
    the entry goes to [buf] length-delimited under the outer key. *)
Lemma mapEncode_round (solName : string) (keyTag : Z) (keyEncode : string)
  (nestedCodec : option string) (valTag : Z) (valEncode : string) (tag : Z)
  (data : Runtime.Memory) (k : nat) (st : Sol.state M)
  (key value : Sol.value M) (pk : Sol.primitive) (keyBytes : list Z) :
  (0 < k)%nat ->
  Sol.fitsUint64 tag = true ->
  Sol.fitsUint64 keyTag = true ->
  Sol.fitsUint64 valTag = true ->
  Sol.encoderNamed keyEncode = Some pk ->
  Sol.primEncode pk key = Some keyBytes ->
  match nestedCodec with
  | None =>
      exists pv valBytes,
        Sol.encoderNamed valEncode = Some pv
        /\ Sol.primEncode pv value = Some valBytes
  | Some codec => exists m, value = Sol.Message m
  end ->
  nth_error (Sol.arrs st ("msg." ++ solName ++ "_keys"))
    (Z.to_nat (Sol.nums st ("_i_" ++ solName))) = Some key ->
  nth_error (Sol.arrs st ("msg." ++ solName ++ "_values"))
    (Z.to_nat (Sol.nums st ("_i_" ++ solName))) = Some value ->
  match Sol.mapRecord codecEncode tag keyTag keyEncode nestedCodec valTag
          valEncode (key, value) with
  | Some record =>
      exists st',
        Sol.execSeq (exec data k)
          (List.app
             [ Sol.NewBytes "_entry";
               Sol.AppendKey "_entry" false keyTag;
               Sol.AppendPrim "_entry" keyEncode
                 (Sol.Element ("msg." ++ solName ++ "_keys")
                    ("_i_" ++ solName)) ]
             (List.app
                (Sol.mapValueEncode solName nestedCodec valTag valEncode)
                [ Sol.AppendKey "buf" true tag;
                  Sol.AppendLength "buf" "_entry";
                  Sol.AppendBytes "buf" "_entry" ]))
          st = Sol.Done st'
        /\ Sol.bufs st' "buf" = List.app (Sol.bufs st "buf") record
        /\ Sol.nums st' = Sol.nums st
        /\ Sol.arrs st' = Sol.arrs st
  | None =>
      Sol.execSeq (exec data k)
        (List.app
             [ Sol.NewBytes "_entry";
               Sol.AppendKey "_entry" false keyTag;
               Sol.AppendPrim "_entry" keyEncode
                 (Sol.Element ("msg." ++ solName ++ "_keys")
                    ("_i_" ++ solName)) ]
             (List.app
                (Sol.mapValueEncode solName nestedCodec valTag valEncode)
                [ Sol.AppendKey "buf" true tag;
                  Sol.AppendLength "buf" "_entry";
                  Sol.AppendBytes "buf" "_entry" ]))
        st = Sol.Reverted
  end.
Proof.
  intros Hk Hfits HfitsK HfitsV Hname Hkb Hvalue Hkey Hval.
  destruct k as [| k]; [lia |].
  unfold Sol.mapRecord, Sol.mapEntryBytes, Sol.valueBytes at 1.
  cbn [fst snd]. rewrite Hname, Hkb.
  destruct nestedCodec as [codec |];
    cbn [Sol.valueBytes Sol.mapValueEncode List.app].
  - destruct Hvalue as [m ->].
    destruct (codecEncode codec m) as [encoded |] eqn:Hcodec.
    + eexists. split.
      * step. rewrite HfitsK. step. rewrite Hname. step. rewrite Hkey.
        step. rewrite Hkb. step. rewrite Hval. step. rewrite Hcodec.
        step. rewrite HfitsV. step. rewrite Hfits. step. reflexivity.
      * step. lookups. unfold Sol.delimited.
        cbn [List.app]. rewrite <- !List.app_assoc.
        repeat split; reflexivity.
    + step. rewrite HfitsK. step. rewrite Hname. step. rewrite Hkey.
      step. rewrite Hkb. step. rewrite Hval. step. rewrite Hcodec.
      reflexivity.
  - destruct Hvalue as (pv & valBytes & HnameV & Hvb).
    rewrite HnameV, Hvb.
    eexists. split.
    + step. rewrite HfitsK. step. rewrite Hname. step. rewrite Hkey.
      step. rewrite Hkb. step. rewrite HfitsV. step. rewrite HnameV.
      step. rewrite Hval. step. rewrite Hvb. step. rewrite Hfits. step.
      reflexivity.
    + step. lookups. unfold Sol.delimited.
      cbn [List.app]. rewrite <- !List.app_assoc.
      repeat split; reflexivity.
Qed.

(** A loop whose body panics at index [length items], an index the array
    still has, never completes. *)
Lemma forLoop_short {A : Type} (i arr : string) (body : list Sol.stmt)
  (record : A -> option (list Z)) (items : list A)
  (arrs0 : string -> list (Sol.value M)) (data : Runtime.Memory) (k : nat) :
  (List.length items < List.length (arrs0 arr))%nat ->
  (forall st j a,
     Sol.arrs st = arrs0 ->
     Sol.nums st i = Z.of_nat j ->
     nth_error items j = Some a ->
     match record a with
     | Some r =>
         exists st',
           Sol.execSeq (exec data k) body st = Sol.Done st'
           /\ Sol.bufs st' "buf" = List.app (Sol.bufs st "buf") r
           /\ Sol.nums st' = Sol.nums st
           /\ Sol.arrs st' = Sol.arrs st
     | None => Sol.execSeq (exec data k) body st = Sol.Reverted
     end) ->
  (forall st,
     Sol.arrs st = arrs0 ->
     Sol.nums st i = Z.of_nat (List.length items) ->
     Sol.execSeq (exec data k) body st = Sol.Reverted) ->
  forall (m j fuel : nat) (st : Sol.state M),
    (j + m = List.length items)%nat ->
    (m < fuel)%nat ->
    Sol.nums st i = Z.of_nat j ->
    Sol.arrs st = arrs0 ->
    Sol.loop fuel
      (fun st =>
         (Sol.nums st i <? Z.of_nat (List.length (Sol.arrs st arr)))%Z)
      (fun st =>
         Sol.andThen (Sol.execSeq (exec data k) body st)
           (fun st => Sol.Done (Sol.setNum i (Sol.nums st i + 1) st)))
      st = Sol.Reverted.
Proof.
  intros Hlen Hbody Hlast.
  induction m as [| m IH]; intros j fuel st Hj Hfuel Hi Harrs;
    (destruct fuel as [| fuel]; [lia |]);
    assert (Harr : Sol.arrs st arr = arrs0 arr)
      by (rewrite Harrs; reflexivity);
    cbn [Sol.loop]; rewrite Hi, Harr;
    (replace (Z.of_nat j <? Z.of_nat (List.length (arrs0 arr)))%Z
       with true by (symmetry; apply Z.ltb_lt; lia)).
  - rewrite (Hlast st Harrs); [reflexivity |].
    rewrite Hi. f_equal. lia.
  - destruct (nth_error_below items j ltac:(lia)) as [a Ha].
    specialize (Hbody st j a Harrs Hi Ha).
    destruct (record a) as [r |]; [| rewrite Hbody; reflexivity].
    destruct Hbody as (st1 & Hround & Hbuf1 & Hnums1 & Harrs1).
    rewrite Hround. cbn [Sol.andThen].
    apply (IH (S j)); [lia | lia | |].
    + cbn [Sol.setNum Sol.nums]. rewrite update_same, Hnums1, Hi. lia.
    + cbn [Sol.setNum Sol.arrs]. rewrite Harrs1. exact Harrs.
Qed.

(** The round at an index the value array does not have: reading the
    value panics. *)
Lemma mapEncode_round_missing (solName : string) (keyTag : Z)
  (keyEncode : string) (nestedCodec : option string) (valTag : Z)
  (valEncode : string) (tag : Z) (data : Runtime.Memory) (k : nat)
  (st : Sol.state M) (key : Sol.value M) (pk : Sol.primitive)
  (keyBytes : list Z) :
  (0 < k)%nat ->
  Sol.fitsUint64 keyTag = true ->
  Sol.fitsUint64 valTag = true ->
  Sol.encoderNamed keyEncode = Some pk ->
  Sol.primEncode pk key = Some keyBytes ->
  match nestedCodec with
  | None => exists pv, Sol.encoderNamed valEncode = Some pv
  | Some codec => True
  end ->
  nth_error (Sol.arrs st ("msg." ++ solName ++ "_keys"))
    (Z.to_nat (Sol.nums st ("_i_" ++ solName))) = Some key ->
  nth_error (Sol.arrs st ("msg." ++ solName ++ "_values"))
    (Z.to_nat (Sol.nums st ("_i_" ++ solName))) = None ->
  Sol.execSeq (exec data k)
    (List.app
       [ Sol.NewBytes "_entry";
         Sol.AppendKey "_entry" false keyTag;
         Sol.AppendPrim "_entry" keyEncode
           (Sol.Element ("msg." ++ solName ++ "_keys") ("_i_" ++ solName)) ]
       (List.app (Sol.mapValueEncode solName nestedCodec valTag valEncode)
          [ Sol.AppendKey "buf" true tag;
            Sol.AppendLength "buf" "_entry";
            Sol.AppendBytes "buf" "_entry" ])) st = Sol.Reverted.
Proof.
  intros Hk HfitsK HfitsV Hname Hkb Hvalue Hkey Hval.
  destruct k as [| k]; [lia |].
  destruct nestedCodec as [codec |]; cbn [Sol.mapValueEncode List.app].
  - step. rewrite HfitsK. step. rewrite Hname. step. rewrite Hkey.
    step. rewrite Hkb. step. rewrite Hval. reflexivity.
  - destruct Hvalue as [pv HnameV].
    step. rewrite HfitsK. step. rewrite Hname. step. rewrite Hkey.
    step. rewrite Hkb. step. rewrite HfitsV. step. rewrite HnameV.
    step. rewrite Hval. reflexivity.
Qed.

Lemma nth_error_combine_inv {A B : Type} (l : list A) (m : list B)
  (j : nat) (a : A) (b : B) :
  nth_error (combine l m) j = Some (a, b) ->
  nth_error l j = Some a /\ nth_error m j = Some b.
Proof.
  revert m j. induction l as [| x l IH]; intros [| y m] [| j] H;
    cbn in H; try discriminate H.
  - injection H as -> ->. split; reflexivity.
  - exact (IH m j H).
Qed.

Lemma nth_error_typed (t : Sol.ty) (l : list (Sol.value M)) (j : nat)
  (v : Sol.value M) :
  Forall (fun v => Sol.inType t v = true) l ->
  nth_error l j = Some v -> Sol.inType t v = true.
Proof.
  intros Hall Hv. rewrite Forall_forall in Hall.
  apply Hall. exact (nth_error_In _ _ Hv).
Qed.

(** The loop of a map field, run on the two member arrays.  With a value
    for every key, each pair of key and value at the same index becomes one
    length-delimited entry under the field's key, in index order; a nested
    codec that reverts on a value reverts the loop.  With fewer values than
    keys the loop panics. *)
Lemma mapEncode_runs (sc : Sol.scope) (solName : string) (keyTag : Z)
  (keyEncode : string) (nestedCodec : option string) (valTag : Z)
  (valEncode : string) (tag : Z) (data : Runtime.Memory) (fuel : nat)
  (st : Sol.state M) :
  (List.length (Sol.arrs st ("msg." ++ solName ++ "_keys")) + 2 <= fuel)%nat ->
  Sol.accepts sc
    (Sol.mapEncode solName keyTag keyEncode nestedCodec valTag valEncode tag)
    = true ->
  Sol.conforms sc st ->
  if (List.length (Sol.arrs st ("msg." ++ solName ++ "_keys"))
      <=? List.length (Sol.arrs st ("msg." ++ solName ++ "_values")))%nat
  then
    match Sol.recordList
            (Sol.mapRecord codecEncode tag keyTag keyEncode nestedCodec
               valTag valEncode)
            (combine (Sol.arrs st ("msg." ++ solName ++ "_keys"))
               (Sol.arrs st ("msg." ++ solName ++ "_values"))) with
    | Some records =>
        exists st',
          run sc data fuel
            (Sol.mapEncode solName keyTag keyEncode nestedCodec valTag
               valEncode tag) st = Sol.Done st'
          /\ Sol.bufs st' "buf"
             = List.app (Sol.bufs st "buf") (concat records)
          /\ Sol.arrs st' = Sol.arrs st
    | None =>
        run sc data fuel
          (Sol.mapEncode solName keyTag keyEncode nestedCodec valTag
             valEncode tag) st = Sol.Reverted
        /\ nestedCodec <> None
    end
  else
    run sc data fuel
      (Sol.mapEncode solName keyTag keyEncode nestedCodec valTag valEncode
         tag) st = Sol.Reverted.
Proof.
  intros Hfuel Haccepts Hconf. unfold Sol.run. rewrite Haccepts.
  rewrite accepts_mapEncode in Haccepts.
  apply andb_true_iff in Haccepts as [Haccepts HtypedV].
  apply andb_true_iff in Haccepts as [Haccepts HtypedK].
  apply andb_true_iff in Haccepts as [Haccepts HfitsV].
  apply andb_true_iff in Haccepts as [Hfits HfitsK].
  destruct (typed_array sc _ None keyEncode st HtypedK Hconf)
    as (tk & _ & HcallK & HinK).
  destruct (typed_array sc _ nestedCodec valEncode st HtypedV Hconf)
    as (tv & _ & HcallV & HinV).
  destruct fuel as [| k]; [lia |].
  assert (Hk : (0 < k)%nat) by lia.
  set (keys := "msg." ++ solName ++ "_keys") in *.
  set (values := "msg." ++ solName ++ "_values") in *.
  set (i := "_i_" ++ solName).
  unfold Sol.mapEncode. fold keys. fold i.
  set (body := List.app _ _).
  assert (Hkeyed : forall j key, nth_error (Sol.arrs st keys) j = Some key ->
            exists pk keyBytes,
              Sol.encoderNamed keyEncode = Some pk
              /\ Sol.primEncode pk key = Some keyBytes).
  { intros j key Hkey.
    destruct (typed_primitive_encodes tk keyEncode key HcallK
                (nth_error_typed tk _ j key HinK Hkey))
      as (pk & keyBytes & Hname & Hprim & _).
    exists pk, keyBytes. split; assumption. }
  assert (Hvalued : forall j value,
            nth_error (Sol.arrs st values) j = Some value ->
            match nestedCodec with
            | None =>
                exists pv valBytes,
                  Sol.encoderNamed valEncode = Some pv
                  /\ Sol.primEncode pv value = Some valBytes
            | Some codec => exists m, value = Sol.Message m
            end).
  { intros j value Hvalue.
    pose proof (nth_error_typed tv _ j value HinV Hvalue) as Hin.
    destruct nestedCodec as [codec |].
    - exact (typed_message_is_message tv codec valEncode value HcallV Hin).
    - destruct (typed_primitive_encodes tv valEncode value HcallV Hin)
        as (pv & valBytes & Hname & Hprim & _).
      exists pv, valBytes. split; assumption. }
  assert (Hbody : forall st0 j a,
            Sol.arrs st0 = Sol.arrs st ->
            Sol.nums st0 i = Z.of_nat j ->
            nth_error (combine (Sol.arrs st keys) (Sol.arrs st values)) j
              = Some a ->
            match Sol.mapRecord codecEncode tag keyTag keyEncode nestedCodec
                    valTag valEncode a with
            | Some r =>
                exists st',
                  Sol.execSeq (exec data k) body st0 = Sol.Done st'
                  /\ Sol.bufs st' "buf" = List.app (Sol.bufs st0 "buf") r
                  /\ Sol.nums st' = Sol.nums st0
                  /\ Sol.arrs st' = Sol.arrs st0
            | None => Sol.execSeq (exec data k) body st0 = Sol.Reverted
            end).
  { intros st0 j [key value] Harrs0 Hi Ha.
    destruct (nth_error_combine_inv _ _ _ _ _ Ha) as [Hkey Hvalue].
    destruct (Hkeyed j key Hkey) as (pk & keyBytes & Hname & Hprim).
    apply (mapEncode_round solName keyTag keyEncode nestedCodec valTag
             valEncode tag data k st0 key value pk keyBytes Hk Hfits HfitsK
             HfitsV Hname Hprim (Hvalued j value Hvalue)).
    - fold keys. fold i. rewrite Harrs0, Hi, Nat2Z.id. exact Hkey.
    - fold values. fold i. rewrite Harrs0, Hi, Nat2Z.id. exact Hvalue. }
  destruct (Nat.leb_spec (List.length (Sol.arrs st keys))
              (List.length (Sol.arrs st values))) as [Hle | Hlt].
  - pose proof (forLoop_records i keys body
                  (Sol.mapRecord codecEncode tag keyTag keyEncode
                     nestedCodec valTag valEncode)
                  (combine (Sol.arrs st keys) (Sol.arrs st values))
                  (Sol.arrs st) data k
                  ltac:(rewrite length_combine; lia) Hbody
                  (List.length (Sol.arrs st keys)) 0%nat k
                  (Sol.setNum i 0 st)
                  ltac:(rewrite length_combine; lia) ltac:(lia)
                  ltac:(cbn [Sol.setNum Sol.nums]; apply update_same)
                  eq_refl) as Hrun.
    cbn [skipn] in Hrun. cbn [Sol.execSeq]. cbn [Sol.exec].
    destruct (Sol.recordList _ (combine _ _)) as [records |] eqn:Hrecords.
    + destruct Hrun as (st' & Hrun & Hbuf & Harrs).
      exists st'. rewrite Hrun. repeat split; assumption.
    + rewrite Hrun. split; [reflexivity |].
      intros ->. revert Hrecords. apply recordList_defined.
      apply Forall_forall. intros [key value] Ha.
      destruct (In_nth_error _ _ Ha) as [j Hj].
      destruct (nth_error_combine_inv _ _ _ _ _ Hj) as [Hkey Hvalue].
      destruct (Hkeyed j key Hkey) as (pk & keyBytes & Hname & Hprim).
      destruct (Hvalued j value Hvalue)
        as (pv & valBytes & HnameV & HprimV).
      unfold Sol.mapRecord, Sol.mapEntryBytes, Sol.valueBytes.
      cbn [fst snd]. rewrite Hname, Hprim, HnameV, HprimV. discriminate.
  - cbn [Sol.execSeq]. cbn [Sol.exec].
    assert (Hlast : forall st0,
              Sol.arrs st0 = Sol.arrs st ->
              Sol.nums st0 i
                = Z.of_nat (List.length (combine (Sol.arrs st keys)
                                           (Sol.arrs st values))) ->
              Sol.execSeq (exec data k) body st0 = Sol.Reverted).
    { intros st0 Harrs0 Hi. rewrite length_combine in Hi.
      replace (Nat.min (List.length (Sol.arrs st keys))
                 (List.length (Sol.arrs st values)))
        with (List.length (Sol.arrs st values)) in Hi by lia.
      destruct (nth_error_below (Sol.arrs st keys)
                  (List.length (Sol.arrs st values)) Hlt) as [key Hkey].
      destruct (Hkeyed _ key Hkey) as (pk & keyBytes & Hname & Hprim).
      apply (mapEncode_round_missing solName keyTag keyEncode nestedCodec
               valTag valEncode tag data k st0 key pk keyBytes Hk HfitsK
               HfitsV Hname Hprim).
      - destruct nestedCodec as [codec |]; [exact I |].
        cbn in HcallV.
        destruct (Sol.encoderNamed valEncode) as [pv |];
          [exists pv; reflexivity | discriminate HcallV].
      - fold keys. fold i. rewrite Harrs0, Hi, Nat2Z.id. exact Hkey.
      - fold values. fold i. rewrite Harrs0, Hi, Nat2Z.id.
        apply nth_error_None. lia. }
    rewrite (forLoop_short i keys body
               (Sol.mapRecord codecEncode tag keyTag keyEncode nestedCodec
                  valTag valEncode)
               (combine (Sol.arrs st keys) (Sol.arrs st values))
               (Sol.arrs st) data k
               ltac:(rewrite length_combine; lia) Hbody Hlast
               (List.length (combine (Sol.arrs st keys)
                               (Sol.arrs st values)))
               0%nat k (Sol.setNum i 0 st) eq_refl
               ltac:(rewrite length_combine; lia)
               ltac:(cbn [Sol.setNum Sol.nums]; apply update_same)
               eq_refl).
    reflexivity.
Qed.

End FieldFragments.

Section FieldDecoding.

Variable M : Type.
Variable codecEncode : string -> M -> option (list Z).
Variable codecDecode : string -> list Z -> option M.

Local Abbreviation exec := (Sol.exec codecEncode codecDecode).
Local Abbreviation run := (Sol.run codecEncode codecDecode).
Local Abbreviation runCase := (Sol.runCase codecEncode codecDecode).
Local Abbreviation enterAt := (Sol.enterAt codecEncode codecDecode).
Local Abbreviation readElement := (Sol.readElement codecDecode).

Ltac step :=
  cbn - [String.append String.eqb Sol.encoderNamed Sol.decoderNamed
         Sol.primEncode Sol.primDecode Sol.fitsUint64 Sol.typeOf Sol.zeroOf
         Runtime._encode_key Runtime._encode_varint Runtime._decode_varint
         Runtime._decode_key Runtime._slice Z.pow Z.modulo Z.of_nat
         List.length List.app].

Ltac lookups :=
  repeat (rewrite update_same
          || rewrite update_other by reflexivity).

(** *** Reading one element *)

(** The statements that read a nested message: its length, the slice of
    that length, the codec on the slice -- assigned to a variable or pushed
    onto an array -- and the position moved behind it. *)
Lemma messageRead_runs (push : bool) (x len sub codec : string)
  (data : Runtime.Memory) (k : nat) (st : Sol.state M) :
  (0 < k)%nat ->
  match readElement (Some codec) "" data (Sol.pos st) with
  | Some (v, q) =>
      exists st',
        Sol.execSeq (exec data k)
          [ Sol.DeclareNum len; Sol.ReadVarint len; Sol.Slice sub len;
            (if push then Sol.PushDecoded x codec sub
             else Sol.AssignDecoded x codec sub);
            Sol.Advance len ] st
        = Sol.Done st'
        /\ Sol.pos st' = q
        /\ Sol.vals st' =
             (if push then Sol.vals st else Sol.update (Sol.vals st) x v)
        /\ Sol.arrs st' =
             (if push
              then Sol.update (Sol.arrs st) x (List.app (Sol.arrs st x) [v])
              else Sol.arrs st)
        /\ (forall y, String.eqb len y = false ->
              Sol.nums st' y = Sol.nums st y)
  | None =>
      Sol.execSeq (exec data k)
        [ Sol.DeclareNum len; Sol.ReadVarint len; Sol.Slice sub len;
          (if push then Sol.PushDecoded x codec sub
           else Sol.AssignDecoded x codec sub);
          Sol.Advance len ] st = Sol.Reverted
  end.
Proof.
  intros Hk. destruct k as [| k]; [lia |].
  unfold Sol.readElement.
  destruct push; step;
    (destruct (Runtime._decode_varint data (Sol.pos st)) as [[n p1] |];
     step; [| reflexivity]);
    rewrite update_same;
    (destruct (Runtime._slice data p1 (p1 + Z.to_nat n)) as [bytes |];
     step; [| reflexivity]);
    rewrite update_same;
    (destruct (codecDecode codec bytes) as [m |]; step; [| reflexivity]);
    (eexists; split; [reflexivity |]); step; rewrite ?update_same;
    (split; [reflexivity |]); (split; [reflexivity |]);
    (split; [reflexivity |]);
    intros y Hy; rewrite !(update_other _ _ _ _ Hy); reflexivity.
Qed.

Lemma typed_decoder (t : option Sol.ty) (decodeFunc : string) :
  Sol.decodeCallTyped t None decodeFunc = true ->
  exists p, Sol.decoderNamed decodeFunc = Some p.
Proof.
  unfold Sol.decodeCallTyped.
  destruct (Sol.decoderNamed decodeFunc) as [p |]; [| discriminate].
  intros _. exists p. reflexivity.
Qed.

Lemma valueType_has_zero (t : Sol.ty) :
  Sol.isValueType t = true -> exists zero : Sol.value M, Sol.zeroOf t = Some zero.
Proof.
  destruct t; try discriminate; intros _; eexists; reflexivity.
Qed.

(** What an accepted slot of a decode case provides: the local's type
    has a zero value, and for a scalar the decoder is one of the
    runtime's. *)
Lemma typed_slot (tyName : string) (nestedCodec : option string)
  (decodeFunc : string) (elem : option Sol.ty) :
  Sol.slotTyped tyName nestedCodec decodeFunc elem = true ->
  (exists t (zero : Sol.value M),
     Sol.typeOf tyName = Some t /\ Sol.zeroOf t = Some zero)
  /\ (nestedCodec = None ->
      exists p, Sol.decoderNamed decodeFunc = Some p).
Proof.
  unfold Sol.slotTyped.
  destruct (Sol.typeOf tyName) as [t |]; [| discriminate].
  destruct elem as [elem |]; [| discriminate].
  intros H. apply andb_true_iff in H as [H _].
  apply andb_true_iff in H as [Hvalue Hcall]. split.
  - destruct (valueType_has_zero t Hvalue) as [zero Hzero].
    exists t, zero. split; [reflexivity | exact Hzero].
  - intros ->. exact (typed_decoder _ _ Hcall).
Qed.

(** *** Singular fields: decode *)

(** The case of a singular field, entered behind its key: the member is
    assigned what the runtime's decoder -- or the nested codec, on the
    slice the length prefix delimits -- returns, and the position moves
    behind what was read; where that read reverts, the case reverts. *)
Lemma singularDecode_runs (sc : Sol.scope) (solName : string)
  (nestedCodec : option string) (decodeFunc : string) (tag : Z)
  (data : Runtime.Memory) (fuel : nat) (st : Sol.state M) :
  (0 < fuel)%nat ->
  Sol.acceptsCase sc (Sol.singularDecode solName nestedCodec decodeFunc tag)
    = true ->
  match readElement nestedCodec decodeFunc data (Sol.pos st) with
  | Some (v, q) =>
      exists st',
        runCase sc data fuel
          (Sol.singularDecode solName nestedCodec decodeFunc tag) st
        = Sol.Done st'
        /\ Sol.pos st' = q
        /\ Sol.vals st' = Sol.update (Sol.vals st) ("msg." ++ solName) v
        /\ Sol.arrs st' = Sol.arrs st
  | None =>
      runCase sc data fuel
        (Sol.singularDecode solName nestedCodec decodeFunc tag) st
      = Sol.Reverted
  end.
Proof.
  intros Hfuel Haccepts. unfold Sol.runCase. rewrite Haccepts.
  rewrite acceptsCase_singularDecode in Haccepts.
  apply andb_true_iff in Haccepts as [_ Hcall].
  destruct nestedCodec as [codec |];
    cbn [Sol.singularDecode Sol.messageDecode Sol.scalarDecode Sol.caseBody].
  - pose proof (messageRead_runs false ("msg." ++ solName) "_len" "_sub"
                  codec data fuel st Hfuel) as Hrun.
    unfold Sol.readElement in *.
    destruct (Runtime._decode_varint data (Sol.pos st)) as [[n p1] |];
      [| exact Hrun].
    destruct (Runtime._slice data p1 (p1 + Z.to_nat n)) as [bytes |];
      [| exact Hrun].
    destruct (codecDecode codec bytes) as [m |]; [| exact Hrun].
    destruct Hrun as (st' & Hrun & Hpos & Hvals & Harrs & _).
    exists st'. repeat split; assumption.
  - destruct (typed_decoder _ _ Hcall) as [p Hp].
    destruct fuel as [| k]; [lia |].
    unfold Sol.readElement. step. rewrite Hp. step.
    destruct (Sol.primDecode p data (Sol.pos st)) as [[v q] |]; step;
      [| reflexivity].
    eexists. repeat split; reflexivity.
Qed.

(** *** Repeated fields: decode *)

(** The case of a repeated field, entered behind its key: one element is
    read and pushed onto the member array. *)
Lemma repeatedDecode_runs (sc : Sol.scope) (solName elemType : string)
  (nestedCodec : option string) (decodeFunc : string) (tag : Z)
  (data : Runtime.Memory) (fuel : nat) (st : Sol.state M) :
  (0 < fuel)%nat ->
  Sol.acceptsCase sc
    (Sol.repeatedDecode solName elemType nestedCodec decodeFunc tag)
    = true ->
  match readElement nestedCodec decodeFunc data (Sol.pos st) with
  | Some (v, q) =>
      exists st',
        runCase sc data fuel
          (Sol.repeatedDecode solName elemType nestedCodec decodeFunc tag) st
        = Sol.Done st'
        /\ Sol.pos st' = q
        /\ Sol.arrs st' =
             Sol.update (Sol.arrs st) ("msg." ++ solName)
               (List.app (Sol.arrs st ("msg." ++ solName)) [v])
        /\ (forall y, String.eqb "_elem" y = false ->
              Sol.vals st' y = Sol.vals st y)
  | None =>
      runCase sc data fuel
        (Sol.repeatedDecode solName elemType nestedCodec decodeFunc tag) st
      = Sol.Reverted
  end.
Proof.
  intros Hfuel Haccepts. unfold Sol.runCase. rewrite Haccepts.
  rewrite acceptsCase_repeatedDecode in Haccepts.
  apply andb_true_iff in Haccepts as [_ Hcall].
  destruct nestedCodec as [codec |];
    cbn [Sol.repeatedDecode Sol.repeatedMessageDecode
         Sol.repeatedScalarDecode Sol.caseBody].
  - pose proof (messageRead_runs true ("msg." ++ solName) "_len" "_sub"
                  codec data fuel st Hfuel) as Hrun.
    unfold Sol.readElement in *.
    destruct (Runtime._decode_varint data (Sol.pos st)) as [[n p1] |];
      [| exact Hrun].
    destruct (Runtime._slice data p1 (p1 + Z.to_nat n)) as [bytes |];
      [| exact Hrun].
    destruct (codecDecode codec bytes) as [m |]; [| exact Hrun].
    destruct Hrun as (st' & Hrun & Hpos & Hvals & Harrs & _).
    exists st'. split; [exact Hrun |]. split; [exact Hpos |].
    split; [exact Harrs |]. intros y _. rewrite Hvals. reflexivity.
  - destruct (typed_slot _ _ _ _ Hcall)
      as [(t & zero & Ht & Hzero) Hdecoder].
    destruct (Hdecoder eq_refl) as [p Hp].
    destruct fuel as [| k]; [lia |].
    unfold Sol.readElement. step. rewrite Ht, Hzero, Hp. step.
    destruct (Sol.primDecode p data (Sol.pos st)) as [[v q] |]; step;
      [| reflexivity].
    eexists. split; [reflexivity |]. step. rewrite update_same.
    split; [reflexivity |]. split; [reflexivity |].
    intros y Hy. rewrite !(update_other _ _ _ _ Hy). reflexivity.
Qed.

(** *** Map fields: decode *)

(** One round of the entry loop: a key is read and dispatched on.  Field 1
    goes to [_key], field 2 to [_val]; any other key, and any read the
    runtime reverts on, reverts. *)
Lemma entryRound_runs (keyTag : Z) (keyDecode : string)
  (nestedCodec : option string) (valTag : Z) (valDecode : string)
  (data : Runtime.Memory) (k : nat) (st : Sol.state M) :
  (1 < k)%nat ->
  (exists pk, Sol.decoderNamed keyDecode = Some pk) ->
  (nestedCodec = None -> exists pv, Sol.decoderNamed valDecode = Some pv) ->
  let round :=
    Sol.execSeq (exec data k)
      [ Sol.DeclareNum "_entryTag";
        Sol.ReadKey "_entryTag";
        Sol.IfTag "_entryTag"
          keyTag [ Sol.DecodeInto "_key" keyDecode ]
          valTag (Sol.mapValueDecode nestedCodec valDecode)
          [ Sol.Revert "Unknown map entry tag" ] ] st in
  let read (x : string) (r : option (Sol.value M * nat)) :=
    match r with
    | Some (v, q) =>
        exists st',
          round = Sol.Done st'
          /\ Sol.pos st' = q
          /\ Sol.vals st' = Sol.update (Sol.vals st) x v
          /\ Sol.arrs st' = Sol.arrs st
          /\ Sol.nums st' "_entryEnd" = Sol.nums st "_entryEnd"
    | None => round = Sol.Reverted
    end in
  match Runtime._decode_key data (Sol.pos st) with
  | None => round = Sol.Reverted
  | Some (t, p1) =>
      if (t =? keyTag)%Z
      then read "_key" (readElement None keyDecode data p1)
      else if (t =? valTag)%Z
           then read "_val" (readElement nestedCodec valDecode data p1)
           else round = Sol.Reverted
  end.
Proof.
  intros Hk [pk Hpk] Hpv round read. subst round read.
  destruct k as [| k]; [lia |].
  assert (Hk' : (0 < k)%nat) by lia.
  cbn [Sol.execSeq]. cbn [Sol.exec Sol.andThen].
  cbn [Sol.setNum Sol.pos].
  destruct (Runtime._decode_key data (Sol.pos st)) as [[t p1] |];
    cbn [Sol.orRevert Sol.andThen fst snd]; [| reflexivity].
  cbn [Sol.setPos Sol.setNum Sol.nums Sol.pos Sol.vals Sol.arrs Sol.bufs].
  rewrite update_same.
  destruct (t =? keyTag)%Z.
  - destruct k as [| k]; [lia |].
    unfold Sol.readElement. rewrite Hpk. step. rewrite Hpk. step.
    destruct (Sol.primDecode pk data p1) as [[v q] |]; step;
      [| reflexivity].
    eexists. split; [reflexivity |]. step. lookups.
    repeat split; reflexivity.
  - destruct (t =? valTag)%Z;
      [| destruct k as [| k]; [lia | reflexivity]].
    destruct nestedCodec as [codec |]; cbn [Sol.mapValueDecode].
    + pose proof (messageRead_runs false "_val" "_vLen" "_vSub" codec data
                    k
                    (Sol.setPos p1
                       (Sol.setNum "_entryTag" t
                          (Sol.setNum "_entryTag" 0 st))) Hk') as Hrun.
      cbn [Sol.setPos Sol.setNum Sol.pos Sol.vals Sol.arrs Sol.nums]
        in Hrun.
      destruct (readElement (Some codec) "" data p1) as [[v q] |] eqn:Hread;
        unfold Sol.readElement in Hread |- *; rewrite Hread.
      * destruct Hrun as (st' & Hrun & Hpos & Hvals & Harrs & Hnums).
        exists st'. cbn [Sol.andThen]. rewrite Hrun.
        split; [reflexivity |]. split; [exact Hpos |].
        split; [exact Hvals |]. split; [exact Harrs |].
        rewrite (Hnums "_entryEnd" eq_refl). lookups. reflexivity.
      * cbn [Sol.andThen]. rewrite Hrun. reflexivity.
    + destruct (Hpv eq_refl) as [pv HpvName].
      destruct k as [| k]; [lia |].
      unfold Sol.readElement. rewrite HpvName. step. rewrite HpvName. step.
      destruct (Sol.primDecode pv data p1) as [[v q] |]; step;
        [| reflexivity].
      eexists. split; [reflexivity |]. step. lookups.
      repeat split; reflexivity.
Qed.

(** The entry loop follows the scan of the entry: it ends where the scan
    ends, with the last key and the last value the scan met, and reverts
    where the scan cannot go on. *)
Lemma entryLoop_scans (keyTag : Z) (keyDecode : string)
  (nestedCodec : option string) (valTag : Z) (valDecode : string)
  (data : Runtime.Memory) (k end_ : nat) :
  (1 < k)%nat ->
  (exists pk, Sol.decoderNamed keyDecode = Some pk) ->
  (nestedCodec = None -> exists pv, Sol.decoderNamed valDecode = Some pv) ->
  forall p key value tags r,
    Sol.EntryScan data end_ keyTag (readElement None keyDecode data)
      valTag (readElement nestedCodec valDecode data) p key value tags r ->
    forall (fuel : nat) (st : Sol.state M),
      (List.length tags < fuel)%nat ->
      Sol.pos st = p ->
      Sol.nums st "_entryEnd" = Z.of_nat end_ ->
      Sol.vals st "_key" = key ->
      Sol.vals st "_val" = value ->
      let loop :=
        Sol.loop fuel
          (fun st => (Z.of_nat (Sol.pos st) <? Sol.nums st "_entryEnd")%Z)
          (Sol.execSeq (exec data k)
             [ Sol.DeclareNum "_entryTag";
               Sol.ReadKey "_entryTag";
               Sol.IfTag "_entryTag"
                 keyTag [ Sol.DecodeInto "_key" keyDecode ]
                 valTag (Sol.mapValueDecode nestedCodec valDecode)
                 [ Sol.Revert "Unknown map entry tag" ] ]) st in
      match r with
      | Some (q, key', value') =>
          exists st',
            loop = Sol.Done st'
            /\ Sol.pos st' = q
            /\ Sol.vals st' "_key" = key'
            /\ Sol.vals st' "_val" = value'
            /\ Sol.arrs st' = Sol.arrs st
      | None => loop = Sol.Reverted
      end.
Proof.
  intros Hk Hpk Hpv p key value tags r Hscan.
  induction Hscan
    as [p key value Hend
       | p p1 p2 key key' value tags r Hlt Htag Hread Hscan IH
       | p p1 p2 key value value' tags r Hlt Hne Htag Hread Hscan IH
       | p p1 key value t Hlt Htag HneK HneV
       | p key value Hlt Htag
       | p p1 key value Hlt Htag Hread
       | p p1 key value Hlt Hne Htag Hread];
    intros fuel st Hfuel Hpos Hend_ Hkey Hval;
    (destruct fuel as [| fuel]; [cbn [List.length] in Hfuel; lia |]);
    cbn zeta; cbn [Sol.loop]; rewrite Hpos, Hend_;
    pose proof (entryRound_runs keyTag keyDecode nestedCodec valTag
                  valDecode data k st Hk Hpk Hpv) as Hround;
    cbn zeta in Hround; rewrite Hpos in Hround.
  - replace (Z.of_nat p <? Z.of_nat end_)%Z with false
      by (symmetry; apply Z.ltb_ge; lia).
    exists st. repeat split; assumption.
  - replace (Z.of_nat p <? Z.of_nat end_)%Z with true
      by (symmetry; apply Z.ltb_lt; lia).
    rewrite Htag, Z.eqb_refl, Hread in Hround.
    destruct Hround as (st1 & Hround & Hpos1 & Hvals1 & Harrs1 & Hnums1).
    rewrite Hround. cbn [Sol.andThen].
    cbn [List.length] in Hfuel.
    specialize (IH fuel st1 ltac:(lia) Hpos1 ltac:(congruence)
                  ltac:(rewrite Hvals1; apply update_same)
                  ltac:(rewrite Hvals1;
                        rewrite update_other by reflexivity; exact Hval)).
    cbn zeta in IH.
    destruct r as [[[q key''] value''] |]; [| exact IH].
    destruct IH as (st' & Hloop & Hq & Hk' & Hv' & Harrs').
    exists st'. repeat split; try assumption. congruence.
  - replace (Z.of_nat p <? Z.of_nat end_)%Z with true
      by (symmetry; apply Z.ltb_lt; lia).
    rewrite Htag in Hround.
    replace (valTag =? keyTag)%Z with false in Hround
      by (symmetry; apply Z.eqb_neq; exact Hne).
    rewrite Z.eqb_refl, Hread in Hround.
    destruct Hround as (st1 & Hround & Hpos1 & Hvals1 & Harrs1 & Hnums1).
    rewrite Hround. cbn [Sol.andThen].
    cbn [List.length] in Hfuel.
    specialize (IH fuel st1 ltac:(lia) Hpos1 ltac:(congruence)
                  ltac:(rewrite Hvals1;
                        rewrite update_other by reflexivity; exact Hkey)
                  ltac:(rewrite Hvals1; apply update_same)).
    cbn zeta in IH.
    destruct r as [[[q key''] value''] |]; [| exact IH].
    destruct IH as (st' & Hloop & Hq & Hk' & Hv' & Harrs').
    exists st'. repeat split; try assumption. congruence.
  - replace (Z.of_nat p <? Z.of_nat end_)%Z with true
      by (symmetry; apply Z.ltb_lt; lia).
    rewrite Htag in Hround.
    replace (t =? keyTag)%Z with false in Hround
      by (symmetry; apply Z.eqb_neq; exact HneK).
    replace (t =? valTag)%Z with false in Hround
      by (symmetry; apply Z.eqb_neq; exact HneV).
    rewrite Hround. reflexivity.
  - replace (Z.of_nat p <? Z.of_nat end_)%Z with true
      by (symmetry; apply Z.ltb_lt; lia).
    rewrite Htag in Hround. rewrite Hround. reflexivity.
  - replace (Z.of_nat p <? Z.of_nat end_)%Z with true
      by (symmetry; apply Z.ltb_lt; lia).
    rewrite Htag, Z.eqb_refl, Hread in Hround.
    rewrite Hround. reflexivity.
  - replace (Z.of_nat p <? Z.of_nat end_)%Z with true
      by (symmetry; apply Z.ltb_lt; lia).
    rewrite Htag in Hround.
    replace (valTag =? keyTag)%Z with false in Hround
      by (symmetry; apply Z.eqb_neq; exact Hne).
    rewrite Z.eqb_refl, Hread in Hround.
    rewrite Hround. reflexivity.
Qed.

Lemma decode_varint_nonneg (data : Runtime.Memory) (p q : nat) (v : Z) :
  Runtime._decode_varint data p = Some (v, q) -> 0 <= v.
Proof.
  unfold Runtime._decode_varint.
  destruct (Runtime.decodeVarintWord data p) as [[word newPos] |];
    [| discriminate].
  intros H. injection H as <- _.
  apply Z.mod_pos_bound. reflexivity.
Qed.

Lemma keys_are_not_values (prefix solName : string) :
  String.eqb (prefix ++ solName ++ "_keys") (prefix ++ solName ++ "_values")
  = false.
Proof.
  induction prefix as [| c prefix IH]; cbn [String.append String.eqb].
  - induction solName as [| c solName IH]; cbn [String.append String.eqb];
      [reflexivity |].
    rewrite Ascii.eqb_refl. exact IH.
  - rewrite Ascii.eqb_refl. exact IH.
Qed.

(** The case of a map field, entered behind its key: the entry's length is
    read, the entry is scanned with [_key] and [_val] starting from the
    zero values of their types, and what the scan ends with is pushed onto
    the two member arrays; an entry that cannot be read reverts. *)
Lemma mapDecode_runs (sc : Sol.scope) (solName keySol valSol : string)
  (keyTag : Z) (keyDecode : string) (nestedCodec : option string)
  (valTag : Z) (valDecode : string) (tag : Z) (data : Runtime.Memory)
  (fuel : nat) (st : Sol.state M) :
  Sol.acceptsCase sc
    (Sol.mapDecode solName keySol valSol keyTag keyDecode nestedCodec valTag
       valDecode tag) = true ->
  (0 < fuel)%nat ->
  match Runtime._decode_varint data (Sol.pos st) with
  | None =>
      runCase sc data fuel
        (Sol.mapDecode solName keySol valSol keyTag keyDecode nestedCodec
           valTag valDecode tag) st = Sol.Reverted
  | Some (len, p1) =>
      exists tk tv key0 value0,
        Sol.typeOf keySol = Some tk /\ Sol.zeroOf tk = Some key0
        /\ Sol.typeOf valSol = Some tv /\ Sol.zeroOf tv = Some value0
        /\ forall tags r,
             Sol.EntryScan data (p1 + Z.to_nat len) keyTag
               (readElement None keyDecode data) valTag
               (readElement nestedCodec valDecode data) p1 key0 value0
               tags r ->
             (List.length tags + 2 < fuel)%nat ->
             match r with
             | Some (q, key, value) =>
                 exists st',
                   runCase sc data fuel
                     (Sol.mapDecode solName keySol valSol keyTag keyDecode
                        nestedCodec valTag valDecode tag) st = Sol.Done st'
                   /\ Sol.pos st' = q
                   /\ Sol.arrs st' =
                        Sol.update
                          (Sol.update (Sol.arrs st)
                             ("msg." ++ solName ++ "_keys")
                             (List.app
                                (Sol.arrs st ("msg." ++ solName ++ "_keys"))
                                [key]))
                          ("msg." ++ solName ++ "_values")
                          (List.app
                             (Sol.arrs st ("msg." ++ solName ++ "_values"))
                             [value])
             | None =>
                 runCase sc data fuel
                   (Sol.mapDecode solName keySol valSol keyTag keyDecode
                      nestedCodec valTag valDecode tag) st = Sol.Reverted
             end
  end.
Proof.
  intros Haccepts Hfuel. unfold Sol.runCase. rewrite Haccepts.
  rewrite acceptsCase_mapDecode in Haccepts.
  apply andb_true_iff in Haccepts as [Haccepts HslotV].
  apply andb_true_iff in Haccepts as [_ HslotK].
  destruct (typed_slot _ _ _ _ HslotK)
    as [(tk & key0 & Htk & Hkey0) HdecoderK].
  destruct (typed_slot _ _ _ _ HslotV)
    as [(tv & value0 & Htv & Hvalue0) HdecoderV].
  destruct fuel as [| k]; [lia |].
  cbn [Sol.mapDecode Sol.caseBody].
  destruct (Runtime._decode_varint data (Sol.pos st)) as [[len p1] |]
    eqn:Hlen.
  - exists tk, tv, key0, value0. repeat (split; [assumption |]).
    intros tags r Hscan Htags.
    pose proof (decode_varint_nonneg _ _ _ _ Hlen) as Hnonneg.
    pose proof (entryLoop_scans keyTag keyDecode nestedCodec valTag
                  valDecode data k (p1 + Z.to_nat len) ltac:(lia)
                  (HdecoderK eq_refl) HdecoderV p1 key0 value0 tags r Hscan
                  k
                  (Sol.setVal "_val" value0
                     (Sol.setVal "_key" key0
                        (Sol.setNum "_entryEnd" (Z.of_nat p1 + len)
                           (Sol.setPos p1
                              (Sol.setNum "_entryLen" len
                                 (Sol.setNum "_entryLen" 0 st))))))
                  ltac:(lia) eq_refl
                  ltac:(cbn [Sol.setVal Sol.setNum Sol.nums];
                        rewrite update_same; lia)
                  ltac:(cbn [Sol.setVal Sol.vals];
                        rewrite update_other by reflexivity;
                        apply update_same)
                  ltac:(cbn [Sol.setVal Sol.vals]; apply update_same))
      as Hloop.
    cbn zeta in Hloop.
    assert (Hprefix :
      forall rest,
        Sol.execSeq (exec data (S k))
          (Sol.DeclareNum "_entryLen" :: Sol.ReadVarint "_entryLen"
           :: Sol.EndOf "_entryEnd" "_entryLen"
           :: Sol.DeclareTyped keySol "_key"
           :: Sol.DeclareTyped valSol "_val"
           :: Sol.mapEntryLoop keyTag keyDecode nestedCodec valTag valDecode
           :: rest) st
        = Sol.andThen
            (Sol.loop k
               (fun st =>
                  (Z.of_nat (Sol.pos st) <? Sol.nums st "_entryEnd")%Z)
               (Sol.execSeq (exec data k)
                  [ Sol.DeclareNum "_entryTag";
                    Sol.ReadKey "_entryTag";
                    Sol.IfTag "_entryTag"
                      keyTag [ Sol.DecodeInto "_key" keyDecode ]
                      valTag (Sol.mapValueDecode nestedCodec valDecode)
                      [ Sol.Revert "Unknown map entry tag" ] ])
               (Sol.setVal "_val" value0
                  (Sol.setVal "_key" key0
                     (Sol.setNum "_entryEnd" (Z.of_nat p1 + len)
                        (Sol.setPos p1
                           (Sol.setNum "_entryLen" len
                              (Sol.setNum "_entryLen" 0 st)))))))
            (Sol.execSeq (exec data (S k)) rest)).
    { intros rest. step. rewrite Hlen. step. rewrite Htk, Hkey0. step.
      rewrite Htv, Hvalue0. step. rewrite update_same. reflexivity. }
    rewrite Hprefix.
    destruct r as [[[q key] value] |]; [| rewrite Hloop; reflexivity].
    destruct Hloop as (st' & Hloop & Hq & Hk' & Hv' & Harrs').
    rewrite Hloop. cbn [Sol.andThen].
    eexists. split; [reflexivity |].
    cbn [Sol.setArr Sol.pos Sol.arrs Sol.vals].
    split; [exact Hq |].
    rewrite Hk', Hv', Harrs'.
    cbn [Sol.setVal Sol.setNum Sol.setPos Sol.arrs].
    rewrite (update_other _ _ _ _ (keys_are_not_values "msg." solName)).
    reflexivity.
  - step. rewrite Hlen. reflexivity.
Qed.

(** *** Reading back what was written *)

Lemma in_range (lo hi z : Z) :
  ((lo <=? z) && (z <? hi))%Z = true -> lo <= z < hi.
Proof.
  intros H. apply andb_true_iff in H as [Hlo Hhi].
  apply Z.leb_le in Hlo. apply Z.ltb_lt in Hhi. lia.
Qed.

(** Each decoder of the runtime inverts its encoder on the values of the
    encoder's parameter type. *)
Lemma primDecode_primEncode (p : Sol.primitive) (v : Sol.value M)
  (bytes : list Z) (data : Runtime.Memory) (pos : nat) :
  Sol.primEncode p v = Some bytes ->
  Sol.delegated codecEncode codecDecode None v ->
  Runtime.holds data pos bytes ->
  (pos + List.length bytes <= Runtime.dataLength data)%nat ->
  Sol.primDecode p data pos = Some (v, (pos + List.length bytes)%nat).
Proof.
  unfold Sol.primEncode.
  destruct (Sol.inType (Sol.primType p) v) eqn:Hin; [| discriminate].
  intros Hbytes Hshort Hholds Hlen.
  destruct p, v as [z | b | bs | m]; try discriminate Hbytes;
    injection Hbytes as <-;
    cbn [Sol.primType Sol.inType] in Hin;
    cbn [Sol.primDecode Sol.tagged].
  - apply in_range in Hin.
    rewrite (decode_varint_inverts data pos z Hin Hholds). reflexivity.
  - rewrite (decode_bool_inverts data pos b Hholds).
    cbn [Runtime._encode_bool List.length]. rewrite Nat.add_1_r.
    reflexivity.
  - apply in_range in Hin. change (32 - 1) with 31 in Hin.
    destruct (unzigzag32_zigzag32 z Hin) as [Hrange Hback].
    unfold Runtime._decode_zigzag32, Runtime._encode_zigzag32 in *.
    rewrite (decode_word_inverts data pos (Runtime.zigzag32 z)
               ltac:(lia) Hholds), Hback.
    reflexivity.
  - apply in_range in Hin. change (64 - 1) with 63 in Hin.
    destruct (unzigzag64_zigzag64 z Hin) as [Hrange Hback].
    unfold Runtime._decode_zigzag64, Runtime._encode_zigzag64 in *.
    rewrite (decode_word_inverts data pos (Runtime.zigzag64 z) Hrange
               Hholds), Hback.
    reflexivity.
  - apply in_range in Hin.
    rewrite (decode_fixed64_inverts data pos z Hin Hholds). reflexivity.
  - apply in_range in Hin. change (64 - 1) with 63 in Hin.
    destruct (toInt64_toUint64 z Hin) as [Hrange Hback].
    unfold Runtime._decode_sfixed64, Runtime._encode_sfixed64 in *.
    rewrite (decode_fixed64_inverts data pos _ Hrange Hholds), Hback.
    reflexivity.
  - apply in_range in Hin.
    rewrite (decode_fixed32_inverts data pos z Hin Hholds). reflexivity.
  - apply in_range in Hin. change (32 - 1) with 31 in Hin.
    destruct (toInt32_toUint32 z Hin) as [Hrange Hback].
    unfold Runtime._decode_sfixed32, Runtime._encode_sfixed32 in *.
    rewrite (decode_fixed32_inverts data pos _ Hrange Hholds), Hback.
    reflexivity.
  - cbn [Sol.delegated] in Hshort.
    rewrite (decode_bytes_inverts data pos bs Hshort Hholds Hlen).
    reflexivity.
  - cbn [Sol.delegated] in Hshort. unfold Runtime._decode_string.
    rewrite (decode_bytes_inverts data pos bs Hshort Hholds Hlen).
    reflexivity.
Qed.

Lemma decode_key_inverts (data : Runtime.Memory) (p : nat) (tag : Z) :
  Sol.fitsUint64 tag = true ->
  Runtime.holds data p (Runtime._encode_key tag) ->
  Runtime._decode_key data p
  = Some (tag, (p + List.length (Runtime._encode_key tag))%nat).
Proof.
  intros Hfits Hholds. apply in_range in Hfits.
  exact (decode_varint_inverts data p tag Hfits Hholds).
Qed.

(** What was written for one value is read back as that value, and the
    read ends where the bytes end. *)
Lemma readElement_valueBytes (nestedCodec : option string)
  (encodeFunc decodeFunc : string) (v : Sol.value M) (bytes : list Z)
  (data : Runtime.Memory) (pos : nat) :
  (nestedCodec = None ->
   exists p, Sol.encoderNamed encodeFunc = Some p
             /\ Sol.decoderNamed decodeFunc = Some p) ->
  Sol.delegated codecEncode codecDecode nestedCodec v ->
  Sol.valueBytes codecEncode nestedCodec encodeFunc v = Some bytes ->
  Runtime.holds data pos bytes ->
  (pos + List.length bytes <= Runtime.dataLength data)%nat ->
  readElement nestedCodec decodeFunc data pos
  = Some (v, (pos + List.length bytes)%nat).
Proof.
  intros Hpair Hdel Hbytes Hholds Hlen.
  destruct nestedCodec as [codec |];
    unfold Sol.valueBytes, Sol.readElement in *.
  - destruct v as [z | b | bs | m]; try discriminate Hbytes.
    destruct (codecEncode codec m) as [encoded |] eqn:Hencoded;
      [| discriminate Hbytes].
    injection Hbytes as <-.
    destruct (Hdel encoded Hencoded) as [Hshort Hback].
    rewrite Z.mod_small in * by lia.
    apply holds_app in Hholds as [Hprefix Hpayload].
    rewrite (decode_varint_inverts data pos
               (Z.of_nat (List.length encoded)) ltac:(lia) Hprefix).
    rewrite Nat2Z.id. rewrite length_app in *.
    unfold Runtime._slice.
    replace (_ <=? _)%nat with true by (symmetry; apply Nat.leb_le; lia).
    replace (_ <=? Runtime.dataLength data)%nat with true
      by (symmetry; apply Nat.leb_le; lia).
    cbn [andb].
    replace (pos + List.length _ + List.length encoded
             - (pos + List.length _))%nat
      with (List.length encoded) by lia.
    rewrite (slice_holds data encoded _ Hpayload), Hback.
    rewrite Nat.add_assoc. reflexivity.
  - destruct (Hpair eq_refl) as (p & Hencoder & Hdecoder).
    rewrite Hencoder in Hbytes. rewrite Hdecoder.
    exact (primDecode_primEncode p v bytes data pos Hbytes Hdel Hholds
             Hlen).
Qed.

Lemma encode_varint_nonempty (v : Z) :
  (0 < List.length (Runtime._encode_varint v))%nat.
Proof.
  unfold Runtime._encode_varint.
  destruct (v <? 128)%Z; [cbn [List.length]; lia |].
  change (Runtime.encodeVarintLoop 10 v)
    with (if (v >? 127)%Z
          then Z.lor (Z.land v 127) 128
               :: Runtime.encodeVarintLoop 9 (Z.shiftr v 7)
          else [Z.land v 127]).
  destruct (v >? 127)%Z; cbn [List.length]; lia.
Qed.

(** Entering a case at a position that holds its key. *)
Lemma enterAt_key (sc : Sol.scope) (data : Runtime.Memory) (fuel : nat)
  (c : Sol.decodeCase) (q : nat) (rest : list nat) (st : Sol.state M) :
  Sol.fitsUint64 (Sol.caseTag c) = true ->
  Runtime.holds data q (Runtime._encode_key (Sol.caseTag c)) ->
  enterAt sc data fuel c (q :: rest) st
  = Sol.andThen
      (runCase sc data fuel c
         (Sol.setPos (q + List.length (Runtime._encode_key (Sol.caseTag c)))
            st))
      (enterAt sc data fuel c rest).
Proof.
  intros Hfits Hholds. cbn [Sol.enterAt].
  rewrite (decode_key_inverts data q _ Hfits Hholds).
  cbn [Sol.orRevert fst snd]. rewrite Z.eqb_refl. reflexivity.
Qed.

Lemma singularDecode_tag (solName : string) (nestedCodec : option string)
  (decodeFunc : string) (tag : Z) :
  Sol.caseTag (Sol.singularDecode solName nestedCodec decodeFunc tag) = tag.
Proof. destruct nestedCodec; reflexivity. Qed.

Lemma repeatedDecode_tag (solName elemType : string)
  (nestedCodec : option string) (decodeFunc : string) (tag : Z) :
  Sol.caseTag
    (Sol.repeatedDecode solName elemType nestedCodec decodeFunc tag) = tag.
Proof. destruct nestedCodec; reflexivity. Qed.

Lemma accepted_tag_fits (sc : Sol.scope) (c : Sol.decodeCase) :
  Sol.acceptsCase sc c = true -> Sol.fitsUint64 (Sol.caseTag c) = true.
Proof.
  unfold Sol.acceptsCase. intros H.
  apply andb_true_iff in H as [H _]. exact H.
Qed.

(** A record of a singular field, wherever it lies in the data: entered
    at its key, the field's case assigns the value the record was written
    for and ends behind the record. *)
Lemma singular_reads_back (sc : Sol.scope) (solName : string)
  (nestedCodec : option string) (encodeFunc decodeFunc : string) (tag : Z)
  (data : Runtime.Memory) (fuel : nat) (st : Sol.state M)
  (v : Sol.value M) (record : list Z) (start : nat) :
  Sol.acceptsCase sc (Sol.singularDecode solName nestedCodec decodeFunc tag)
    = true ->
  (0 < fuel)%nat ->
  (nestedCodec = None ->
   exists p, Sol.encoderNamed encodeFunc = Some p
             /\ Sol.decoderNamed decodeFunc = Some p) ->
  Sol.delegated codecEncode codecDecode nestedCodec v ->
  Sol.fieldBytes codecEncode nestedCodec encodeFunc tag v = Some record ->
  Runtime.holds data start record ->
  (start + List.length record <= Runtime.dataLength data)%nat ->
  exists st',
    enterAt sc data fuel
      (Sol.singularDecode solName nestedCodec decodeFunc tag) [start] st
    = Sol.Done st'
    /\ Sol.pos st' = (start + List.length record)%nat
    /\ Sol.vals st' = Sol.update (Sol.vals st) ("msg." ++ solName) v
    /\ Sol.arrs st' = Sol.arrs st.
Proof.
  intros Haccepts Hfuel Hpair Hdel Hrecord Hholds Hlen.
  pose proof (accepted_tag_fits _ _ Haccepts) as Hfits.
  unfold Sol.fieldBytes in Hrecord.
  destruct (Sol.valueBytes codecEncode nestedCodec encodeFunc v)
    as [bytes |] eqn:Hbytes; [| discriminate Hrecord].
  injection Hrecord as <-.
  apply holds_app in Hholds as [Hkey Hvalue].
  rewrite length_app in Hlen.
  rewrite enterAt_key; rewrite singularDecode_tag in *;
    [| exact Hfits | exact Hkey].
  pose proof (singularDecode_runs sc solName nestedCodec decodeFunc tag data
                fuel
                (Sol.setPos
                   (start + List.length (Runtime._encode_key tag)) st)
                Hfuel Haccepts) as Hrun.
  cbn [Sol.setPos Sol.pos] in Hrun.
  rewrite (readElement_valueBytes nestedCodec encodeFunc decodeFunc v bytes
             data _ Hpair Hdel Hbytes Hvalue ltac:(lia)) in Hrun.
  destruct Hrun as (st' & Hrun & Hpos & Hvals & Harrs).
  exists st'. rewrite Hrun. cbn [Sol.andThen Sol.enterAt].
  split; [reflexivity |]. split; [| split; assumption].
  rewrite Hpos, length_app. lia.
Qed.

(** The records of a repeated field, one behind the other: entered at
    each record's key, in order, the field's case pushes the values the
    records were written for, in that order. *)
Lemma repeated_reads_back (sc : Sol.scope) (solName elemType : string)
  (nestedCodec : option string) (encodeFunc decodeFunc : string) (tag : Z)
  (data : Runtime.Memory) (fuel : nat) :
  Sol.acceptsCase sc
    (Sol.repeatedDecode solName elemType nestedCodec decodeFunc tag)
    = true ->
  (0 < fuel)%nat ->
  (nestedCodec = None ->
   exists p, Sol.encoderNamed encodeFunc = Some p
             /\ Sol.decoderNamed decodeFunc = Some p) ->
  forall (values : list (Sol.value M)) (records : list (list Z))
         (start : nat) (st : Sol.state M),
    Sol.recordList (Sol.fieldBytes codecEncode nestedCodec encodeFunc tag)
      values = Some records ->
    Forall (Sol.delegated codecEncode codecDecode nestedCodec) values ->
    Runtime.holds data start (concat records) ->
    (start + List.length (concat records) <= Runtime.dataLength data)%nat ->
    exists st',
      enterAt sc data fuel
        (Sol.repeatedDecode solName elemType nestedCodec decodeFunc tag)
        (Sol.offsets start records) st
      = Sol.Done st'
      /\ Sol.arrs st' ("msg." ++ solName)
         = List.app (Sol.arrs st ("msg." ++ solName)) values
      /\ (forall y, String.eqb ("msg." ++ solName) y = false ->
            Sol.arrs st' y = Sol.arrs st y).
Proof.
  intros Haccepts Hfuel Hpair.
  pose proof (accepted_tag_fits _ _ Haccepts) as Hfits.
  rewrite repeatedDecode_tag in Hfits.
  induction values as [| v values IH];
    intros records start st Hrecords Hdel Hholds Hlen;
    cbn [Sol.recordList] in Hrecords.
  - injection Hrecords as <-. exists st. cbn [Sol.offsets Sol.enterAt].
    rewrite List.app_nil_r. repeat split; reflexivity.
  - destruct (Sol.fieldBytes codecEncode nestedCodec encodeFunc tag v)
      as [record |] eqn:Hrecord; [| discriminate Hrecords].
    destruct (Sol.recordList _ values) as [rest |] eqn:Hrest;
      [| discriminate Hrecords].
    injection Hrecords as <-.
    cbn [concat Sol.offsets] in *.
    apply holds_app in Hholds as [Hfirst Hothers].
    rewrite length_app in Hlen.
    unfold Sol.fieldBytes in Hrecord.
    destruct (Sol.valueBytes codecEncode nestedCodec encodeFunc v)
      as [bytes |] eqn:Hbytes; [| discriminate Hrecord].
    injection Hrecord as <-.
    apply holds_app in Hfirst as [Hkey Hvalue].
    rewrite length_app in *.
    rewrite enterAt_key; rewrite repeatedDecode_tag in *;
      [| exact Hfits | exact Hkey].
    pose proof (repeatedDecode_runs sc solName elemType nestedCodec
                  decodeFunc tag data fuel
                  (Sol.setPos
                     (start + List.length (Runtime._encode_key tag)) st)
                  Hfuel Haccepts) as Hrun.
    cbn [Sol.setPos Sol.pos Sol.arrs Sol.vals] in Hrun.
    rewrite (readElement_valueBytes nestedCodec encodeFunc decodeFunc v
               bytes data _ Hpair (Forall_inv Hdel) Hbytes Hvalue
               ltac:(lia)) in Hrun.
    destruct Hrun as (st1 & Hrun & Hpos & Harrs & Hvals).
    rewrite Hrun. cbn [Sol.andThen].
    destruct (IH rest _ st1 eq_refl (Forall_inv_tail Hdel) Hothers
                ltac:(lia)) as (st' & Henter & Hpushed & Hkept).
    exists st'. split; [exact Henter |]. split.
    + rewrite Hpushed, Harrs, update_same, <- List.app_assoc. reflexivity.
    + intros y Hy. rewrite (Hkept y Hy), Harrs.
      apply update_other. exact Hy.
Qed.

Lemma mapDecode_tag (solName keySol valSol : string) (keyTag : Z)
  (keyDecode : string) (nestedCodec : option string) (valTag : Z)
  (valDecode : string) (tag : Z) :
  Sol.caseTag
    (Sol.mapDecode solName keySol valSol keyTag keyDecode nestedCodec valTag
       valDecode tag) = tag.
Proof. reflexivity. Qed.

(** The record of one map entry: entered at its key, the field's case
    pushes the entry's key and value onto the two member arrays. *)
Lemma mapEntry_reads_back (sc : Sol.scope) (solName keySol valSol : string)
  (keyTag : Z) (keyEncode keyDecode : string) (nestedCodec : option string)
  (valTag : Z) (valEncode valDecode : string) (tag : Z)
  (data : Runtime.Memory) (fuel : nat) (st : Sol.state M)
  (key value : Sol.value M) (record : list Z) (start : nat) :
  Sol.acceptsCase sc
    (Sol.mapDecode solName keySol valSol keyTag keyDecode nestedCodec valTag
       valDecode tag) = true ->
  (4 < fuel)%nat ->
  keyTag <> valTag ->
  (exists p, Sol.encoderNamed keyEncode = Some p
             /\ Sol.decoderNamed keyDecode = Some p) ->
  (nestedCodec = None ->
   exists p, Sol.encoderNamed valEncode = Some p
             /\ Sol.decoderNamed valDecode = Some p) ->
  Sol.delegated codecEncode codecDecode None key ->
  Sol.delegated codecEncode codecDecode nestedCodec value ->
  Sol.mapRecord codecEncode tag keyTag keyEncode nestedCodec valTag
    valEncode (key, value) = Some record ->
  Z.of_nat (List.length record) < 2 ^ 64 ->
  Runtime.holds data start record ->
  (start + List.length record <= Runtime.dataLength data)%nat ->
  exists st',
    runCase sc data fuel
      (Sol.mapDecode solName keySol valSol keyTag keyDecode nestedCodec
         valTag valDecode tag)
      (Sol.setPos (start + List.length (Runtime._encode_key tag)) st)
    = Sol.Done st'
    /\ Sol.pos st' = (start + List.length record)%nat
    /\ Sol.arrs st' =
         Sol.update
           (Sol.update (Sol.arrs st) ("msg." ++ solName ++ "_keys")
              (List.app (Sol.arrs st ("msg." ++ solName ++ "_keys")) [key]))
           ("msg." ++ solName ++ "_values")
           (List.app (Sol.arrs st ("msg." ++ solName ++ "_values")) [value]).
Proof.
  intros Haccepts Hfuel Hne HpairK HpairV HdelK HdelV Hrecord Hshort Hholds
    Hlen.
  pose proof (mapDecode_runs sc solName keySol valSol keyTag keyDecode
                nestedCodec valTag valDecode tag data fuel
                (Sol.setPos (start + List.length (Runtime._encode_key tag))
                   st) Haccepts ltac:(lia)) as Hrun.
  cbn [Sol.setPos Sol.pos Sol.arrs] in Hrun.
  rewrite acceptsCase_mapDecode in Haccepts.
  apply andb_true_iff in Haccepts as [Haccepts _].
  apply andb_true_iff in Haccepts as [Haccepts _].
  apply andb_true_iff in Haccepts as [Haccepts HfitsV].
  apply andb_true_iff in Haccepts as [_ HfitsK].
  unfold Sol.mapRecord, Sol.mapEntryBytes in Hrecord.
  cbn [fst snd] in Hrecord.
  destruct (Sol.valueBytes codecEncode None keyEncode key)
    as [keyBytes |] eqn:HkeyBytes; [| discriminate Hrecord].
  destruct (Sol.valueBytes codecEncode nestedCodec valEncode value)
    as [valBytes |] eqn:HvalBytes; [| discriminate Hrecord].
  injection Hrecord as <-.
  unfold Sol.delimited in *.
  set (entry := List.app (Runtime._encode_key keyTag)
                  (List.app keyBytes
                     (List.app (Runtime._encode_key valTag) valBytes)))
    in *.
  rewrite !length_app in Hshort, Hlen.
  assert (Hentry : 0 <= Z.of_nat (List.length entry) < 2 ^ 64) by lia.
  rewrite Z.mod_small in * by exact Hentry.
  apply holds_app in Hholds as [_ Hholds].
  apply holds_app in Hholds as [Hprefix Hholds].
  rewrite (decode_varint_inverts data _ _ Hentry Hprefix) in Hrun.
  destruct Hrun as (tk & tv & key0 & value0 & _ & _ & _ & _ & Hrun).
  rewrite Nat2Z.id in Hrun.
  remember (start + List.length (Runtime._encode_key tag)
            + List.length (Runtime._encode_varint
                             (Z.of_nat (List.length entry))))%nat
    as p1 eqn:Hp1.
  subst entry.
  apply holds_app in Hholds as [HholdsK1 Hholds].
  apply holds_app in Hholds as [HholdsK Hholds].
  apply holds_app in Hholds as [HholdsV1 HholdsV].
  rewrite !length_app in *.
  pose proof (encode_varint_nonempty keyTag) as HposK.
  pose proof (encode_varint_nonempty valTag) as HposV.
  unfold Runtime._encode_key in *.
  specialize (Hrun [keyTag; valTag]
                (Some ((p1 + List.length (Runtime._encode_varint keyTag)
                        + List.length keyBytes
                        + List.length (Runtime._encode_varint valTag)
                        + List.length valBytes)%nat, key, value))).
  destruct Hrun as (st' & Hrun & Hpos & Harrs).
  - eapply Sol.scan_key.
    + lia.
    + exact (decode_key_inverts data p1 keyTag HfitsK HholdsK1).
    + exact (readElement_valueBytes None keyEncode keyDecode key keyBytes
               data (p1 + List.length (Runtime._encode_varint keyTag))
               (fun _ => HpairK) HdelK HkeyBytes HholdsK ltac:(lia)).
    + eapply Sol.scan_value.
      * lia.
      * congruence.
      * exact (decode_key_inverts data _ valTag HfitsV HholdsV1).
      * exact (readElement_valueBytes nestedCodec valEncode valDecode value
                 valBytes data
                 (p1 + List.length (Runtime._encode_varint keyTag)
                  + List.length keyBytes
                  + List.length (Runtime._encode_varint valTag))
                 HpairV HdelV HvalBytes HholdsV ltac:(lia)).
      * apply Sol.scan_end. lia.
  - cbn [List.length]. lia.
  - exists st'. split; [exact Hrun |]. split; [| exact Harrs].
    rewrite Hpos. lia.
Qed.

(** The records of a map field, one behind the other: entered at each
    record's key, in order, the field's case pushes the keys and the
    values of the entries, pair by pair. *)
Lemma map_reads_back (sc : Sol.scope) (solName keySol valSol : string)
  (keyTag : Z) (keyEncode keyDecode : string) (nestedCodec : option string)
  (valTag : Z) (valEncode valDecode : string) (tag : Z)
  (data : Runtime.Memory) (fuel : nat) :
  Sol.acceptsCase sc
    (Sol.mapDecode solName keySol valSol keyTag keyDecode nestedCodec valTag
       valDecode tag) = true ->
  (4 < fuel)%nat ->
  keyTag <> valTag ->
  (exists p, Sol.encoderNamed keyEncode = Some p
             /\ Sol.decoderNamed keyDecode = Some p) ->
  (nestedCodec = None ->
   exists p, Sol.encoderNamed valEncode = Some p
             /\ Sol.decoderNamed valDecode = Some p) ->
  forall (entries : list (Sol.value M * Sol.value M))
         (records : list (list Z)) (start : nat) (st : Sol.state M),
    Sol.recordList
      (Sol.mapRecord codecEncode tag keyTag keyEncode nestedCodec valTag
         valEncode) entries = Some records ->
    Forall (fun entry =>
              Sol.delegated codecEncode codecDecode None (fst entry)
              /\ Sol.delegated codecEncode codecDecode nestedCodec
                   (snd entry)) entries ->
    Forall (fun record => Z.of_nat (List.length record) < 2 ^ 64) records ->
    Runtime.holds data start (concat records) ->
    (start + List.length (concat records) <= Runtime.dataLength data)%nat ->
    exists st',
      enterAt sc data fuel
        (Sol.mapDecode solName keySol valSol keyTag keyDecode nestedCodec
           valTag valDecode tag) (Sol.offsets start records) st
      = Sol.Done st'
      /\ Sol.arrs st' ("msg." ++ solName ++ "_keys")
         = List.app (Sol.arrs st ("msg." ++ solName ++ "_keys"))
             (map fst entries)
      /\ Sol.arrs st' ("msg." ++ solName ++ "_values")
         = List.app (Sol.arrs st ("msg." ++ solName ++ "_values"))
             (map snd entries).
Proof.
  intros Haccepts Hfuel Hne HpairK HpairV.
  pose proof (accepted_tag_fits _ _ Haccepts) as Hfits.
  rewrite mapDecode_tag in Hfits.
  induction entries as [| [key value] entries IH];
    intros records start st Hrecords Hdel Hshort Hholds Hlen;
    cbn [Sol.recordList] in Hrecords.
  - injection Hrecords as <-. exists st. cbn [Sol.offsets Sol.enterAt map].
    rewrite !List.app_nil_r. repeat split; reflexivity.
  - destruct (Sol.mapRecord codecEncode tag keyTag keyEncode nestedCodec
                valTag valEncode (key, value)) as [record |] eqn:Hrecord;
      [| discriminate Hrecords].
    destruct (Sol.recordList _ entries) as [rest |] eqn:Hrest;
      [| discriminate Hrecords].
    injection Hrecords as <-.
    cbn [concat Sol.offsets map fst snd] in *.
    apply holds_app in Hholds as [Hfirst Hothers].
    rewrite length_app in Hlen.
    destruct (Forall_inv Hdel) as [HdelK HdelV]. cbn [fst snd] in *.
    assert (Hkey : Runtime.holds data start (Runtime._encode_key tag)).
    { unfold Sol.mapRecord in Hrecord.
      destruct (Sol.mapEntryBytes _ _ _ _ _ _ _) as [entry |];
        [| discriminate Hrecord].
      injection Hrecord as <-. unfold Sol.delimited in Hfirst.
      apply holds_app in Hfirst as [Hkey _]. exact Hkey. }
    rewrite enterAt_key; rewrite mapDecode_tag in *;
      [| exact Hfits | exact Hkey].
    destruct (mapEntry_reads_back sc solName keySol valSol keyTag keyEncode
                keyDecode nestedCodec valTag valEncode valDecode tag data
                fuel st key value record start Haccepts Hfuel Hne HpairK
                HpairV HdelK HdelV Hrecord (Forall_inv Hshort) Hfirst
                ltac:(lia)) as (st1 & Hrun & Hpos & Harrs).
    rewrite Hrun. cbn [Sol.andThen].
    destruct (IH rest _ st1 eq_refl (Forall_inv_tail Hdel)
                (Forall_inv_tail Hshort) Hothers ltac:(lia))
      as (st' & Henter & Hkeys & Hvalues).
    exists st'. split; [exact Henter |].
    pose proof (keys_are_not_values "msg." solName) as Hdiffer.
    assert (Hdiffer' : String.eqb ("msg." ++ solName ++ "_values")
                         ("msg." ++ solName ++ "_keys") = false)
      by (rewrite String.eqb_sym; exact Hdiffer).
    split.
    + rewrite Hkeys, Harrs, (update_other _ _ _ _ Hdiffer'), update_same,
        <- List.app_assoc.
      reflexivity.
    + rewrite Hvalues, Harrs, update_same, <- List.app_assoc. reflexivity.
Qed.

Lemma recordList_length {A : Type} (record : A -> option (list Z))
  (items : list A) (records : list (list Z)) :
  Sol.recordList record items = Some records ->
  List.length records = List.length items.
Proof.
  revert records. induction items as [| a items IH]; intros records H;
    cbn [Sol.recordList] in H.
  - injection H as <-. reflexivity.
  - destruct (record a) as [r |]; [| discriminate H].
    destruct (Sol.recordList record items) as [rs |]; [| discriminate H].
    injection H as <-. cbn [List.length]. rewrite (IH rs eq_refl).
    reflexivity.
Qed.

End FieldDecoding.

(** ** The fragments of a field *)

(** *** What the table provides *)

Lemma table_cases (t : Z) (info : SolTypeInfo) :
  PROTO_TYPE_MAP t = Some info ->
  t = 1 \/ t = 2 \/ t = 3 \/ t = 4 \/ t = 5 \/ t = 6 \/ t = 7 \/ t = 8
  \/ t = 9 \/ t = 11 \/ t = 12 \/ t = 13 \/ t = 14 \/ t = 15 \/ t = 16
  \/ t = 17 \/ t = 18.
Proof.
  intros H. destruct (PROTO_TYPE_MAP_domain _ _ H) as [Hrange Hne]. lia.
Qed.

(** The encoder and the decoder of a table entry are the two halves of one
    primitive of the runtime. *)
Lemma table_pairs (t : Z) (info : SolTypeInfo) :
  PROTO_TYPE_MAP t = Some info ->
  t <> 11 ->
  exists p, Sol.encoderNamed (encodeFunc info) = Some p
            /\ Sol.decoderNamed (decodeFunc info) = Some p.
Proof.
  intros H Hne. pose proof (table_cases _ _ H) as Ht.
  repeat (destruct Ht as [-> | Ht];
          [first [contradiction Hne; reflexivity
                 | injection H as <-; eexists; split; reflexivity] |]).
  subst. injection H as <-. eexists. split; reflexivity.
Qed.

Lemma nestedCodecOf_none (t : Z) (tn : option string) :
  nestedCodecOf t tn = None -> t <> 11.
Proof.
  unfold nestedCodecOf. destruct (Z.eqb_spec t 11); [discriminate |].
  intros _. assumption.
Qed.

Lemma table_pairs_scalar (t : Z) (tn : option string) (info : SolTypeInfo) :
  PROTO_TYPE_MAP t = Some info ->
  nestedCodecOf t tn = None ->
  exists p, Sol.encoderNamed (encodeFunc info) = Some p
            /\ Sol.decoderNamed (decodeFunc info) = Some p.
Proof.
  intros H Hnone. exact (table_pairs t info H (nestedCodecOf_none _ _ Hnone)).
Qed.

Lemma fieldTag_in_range (n : Z) (w : WireType) :
  0 <= n < 2 ^ 28 -> fieldTag n w = n * 8 + wireCode w.
Proof. intros H. exact (proj1 (fieldTag_below_2_28 n w H)). Qed.

Lemma entry_tags_differ (w w' : WireType) : fieldTag 1 w <> fieldTag 2 w'.
Proof. destruct w, w'; discriminate. Qed.

(** *** States that conform to a field's members *)

Lemma conforms_var {M : Type} (x : string) (t : Sol.ty) (st : Sol.state M) :
  Sol.inType t (Sol.vals st x) = true ->
  Sol.conforms (Sol.declareVar x t Sol.noScope) st.
Proof.
  intros Hin. split; intros y u; cbn [Sol.declareVar Sol.noScope Sol.varTy
                                       Sol.arrTy]; [| discriminate].
  unfold Sol.update. destruct (String.eqb_spec x y) as [<- |];
    [| discriminate].
  intros H. injection H as <-. exact Hin.
Qed.

Lemma conforms_arr {M : Type} (x : string) (t : Sol.ty) (st : Sol.state M) :
  Forall (fun v => Sol.inType t v = true) (Sol.arrs st x) ->
  Sol.conforms (Sol.declareArr x t Sol.noScope) st.
Proof.
  intros Hin. split; intros y u; cbn [Sol.declareArr Sol.noScope Sol.varTy
                                       Sol.arrTy]; [discriminate |].
  unfold Sol.update. destruct (String.eqb_spec x y) as [<- |];
    [| discriminate].
  intros H. injection H as <-. exact Hin.
Qed.

Lemma conforms_arrs {M : Type} (x y : string) (t u : Sol.ty)
  (st : Sol.state M) :
  String.eqb x y = false ->
  Forall (fun v => Sol.inType t v = true) (Sol.arrs st x) ->
  Forall (fun v => Sol.inType u v = true) (Sol.arrs st y) ->
  Sol.conforms (Sol.declareArr x t (Sol.declareArr y u Sol.noScope)) st.
Proof.
  intros Hxy Hx Hy. split; intros z s;
    cbn [Sol.declareArr Sol.noScope Sol.varTy Sol.arrTy]; [discriminate |].
  unfold Sol.update. destruct (String.eqb_spec x z) as [<- |].
  - intros H. injection H as <-. exact Hx.
  - destruct (String.eqb_spec y z) as [<- |]; [| discriminate].
    intros H. injection H as <-. exact Hy.
Qed.

Lemma all_in_type {M : Type} (t : Sol.ty) (l : list (Sol.value M)) :
  forallb (Sol.inType t) l = true ->
  Forall (fun v => Sol.inType t v = true) l.
Proof. intros H. apply Forall_forall. apply forallb_forall. exact H. Qed.

Lemma holds_behind (pre bs post : list Z) :
  Runtime.holds (Runtime.ofList (List.app (List.app pre bs) post))
    (List.length pre) bs
  /\ (List.length pre + List.length bs
      <= Runtime.dataLength
           (Runtime.ofList (List.app (List.app pre bs) post)))%nat.
Proof.
  rewrite <- List.app_assoc. split; [apply holds_ofList |].
  cbn [Runtime.ofList Runtime.dataLength]. rewrite !length_app. lia.
Qed.

Lemma map_fst_combine {A B : Type} (l : list A) (m : list B) :
  List.length l = List.length m -> map fst (combine l m) = l.
Proof.
  revert m. induction l as [| a l IH]; intros [| b m] H;
    try discriminate H; [reflexivity |].
  cbn [combine map fst]. rewrite IH; [reflexivity |].
  cbn [List.length] in H. lia.
Qed.

Lemma map_snd_combine {A B : Type} (l : list A) (m : list B) :
  List.length l = List.length m -> map snd (combine l m) = m.
Proof.
  revert m. induction l as [| a l IH]; intros [| b m] H;
    try discriminate H; [reflexivity |].
  cbn [combine map snd]. rewrite IH; [reflexivity |].
  cbn [List.length] in H. lia.
Qed.

Lemma Forall_combine {A B : Type} (P : A -> Prop) (Q : B -> Prop)
  (l : list A) (m : list B) :
  Forall P l -> Forall Q m ->
  Forall (fun e => P (fst e) /\ Q (snd e)) (combine l m).
Proof.
  intros Hl. revert m. induction Hl as [| a l Ha Hl IH]; intros m Hm;
    [constructor |].
  destruct Hm as [| b m Hb Hm]; [constructor |].
  cbn [combine]. constructor; [split; assumption | exact (IH m Hm)].
Qed.

Lemma records_within_concat (records : list (list Z)) :
  Forall (fun record =>
            (List.length record <= List.length (concat records))%nat)
    records.
Proof.
  induction records as [| r records IH]; [constructor |].
  cbn [concat]. rewrite length_app. constructor; [lia |].
  apply (Forall_impl _ (P := fun record =>
           (List.length record <= List.length (concat records))%nat));
    [intros record H; lia | exact IH].
Qed.

(** *** Which fragments are Solidity *)

Lemma tag_fits (n w : Z) :
  0 <= n < 2 ^ 28 -> 0 <= w < 8 -> Sol.fitsUint64 (n * 8 + w) = true.
Proof.
  intros Hn Hw. unfold Sol.fitsUint64.
  apply andb_true_iff. split; [apply Z.leb_le | apply Z.ltb_lt]; lia.
Qed.

Lemma memberScope_scalar (field : FieldInfo) (info : SolTypeInfo) :
  mapEntry field = None ->
  PROTO_TYPE_MAP (type field) = Some info ->
  type field <> 11 ->
  memberScope field =
    declareAs (if isRepeated field then Sol.declareArr else Sol.declareVar)
      ("msg." ++ snakeToCamel (name field)) (Sol.typeOf (solType info))
      Sol.noScope.
Proof.
  intros Hmap Hinfo Hne. unfold memberScope. rewrite Hmap.
  rewrite (resolveSolType_primitive _ (typeName field) info Hne Hinfo).
  reflexivity.
Qed.


Section Fields.

Variable M : Type.
Variable codecEncode : string -> M -> option (list Z).
Variable codecDecode : string -> list Z -> option M.

Local Abbreviation run := (Sol.run codecEncode codecDecode).
Local Abbreviation runCase := (Sol.runCase codecEncode codecDecode).
Local Abbreviation enterAt := (Sol.enterAt codecEncode codecDecode).
Local Abbreviation readElement := (Sol.readElement codecDecode).
Local Abbreviation fieldBytes := (Sol.fieldBytes codecEncode).
Local Abbreviation delegated := (Sol.delegated codecEncode codecDecode).

(** X26.  A field that is neither repeated nor a map, with a number below
    2^28, whose emitted encode fragment the compiler accepts, run on a
    state whose member has a value of its declared type: the fragment
    appends one record to [buf] -- the key [number * 8 + wire type], then
    what the runtime's encoder writes for the value, or, for a message,
    the length of what the nested codec returns and those bytes -- and
    changes nothing else.  It reverts only where the nested codec
    reverts. *)
Theorem genFieldEncode_singular_appends_record (field : FieldInfo)
  (info : SolTypeInfo) (data : Runtime.Memory) (fuel : nat)
  (st : Sol.state M) :
  let solName := snakeToCamel (name field) in
  let nestedCodec := nestedCodecOf (type field) (typeName field) in
  let tag := number field * 8 + wireCode (wireType info) in
  let body := Sol.singularEncode solName nestedCodec (encodeFunc info) tag in
  isRepeated field = false ->
  mapEntry field = None ->
  PROTO_TYPE_MAP (type field) = Some info ->
  0 <= number field < 2 ^ 28 ->
  Sol.accepts (memberScope field) body = true ->
  Sol.conforms (memberScope field) st ->
  (0 < fuel)%nat ->
  genFieldEncode field = Js.Ok (Sol.renderEncode body)
  /\ match fieldBytes nestedCodec (encodeFunc info) tag
             (Sol.vals st ("msg." ++ solName)) with
     | Some record =>
         exists st',
           run (memberScope field) data fuel body st = Sol.Done st'
           /\ Sol.bufs st' "buf" = List.app (Sol.bufs st "buf") record
           /\ Sol.vals st' = Sol.vals st
           /\ Sol.arrs st' = Sol.arrs st
           /\ Sol.pos st' = Sol.pos st
     | None =>
         run (memberScope field) data fuel body st = Sol.Reverted
         /\ type field = 11
     end.
Proof.
  intros solName nestedCodec tag body Hsingular Hmap Hinfo Hnumber Haccepts
    Hconf Hfuel.
  split.
  - rewrite (genFieldEncode_singular_text field info Hsingular Hmap Hinfo).
    rewrite (fieldTag_in_range _ _ Hnumber). reflexivity.
  - pose proof (singularEncode_runs M codecEncode codecDecode
                  (memberScope field) solName nestedCodec (encodeFunc info)
                  tag data fuel st Hfuel Haccepts Hconf) as Hrun.
    destruct (fieldBytes nestedCodec (encodeFunc info) tag
                (Sol.vals st ("msg." ++ solName)));
      [exact Hrun |].
    destruct Hrun as [Hrun Hcodec]. split; [exact Hrun |].
    subst nestedCodec. unfold nestedCodecOf in Hcodec.
    destruct (Z.eqb_spec (type field) 11); [assumption | contradiction].
Qed.

(** X19.  A repeated field with a number below 2^28, whose emitted loop
    the compiler accepts, run on a member array of values of its declared
    element type: the loop appends one record per element, in index order,
    each with the key [number * 8 + wire type] in front -- never one
    packed record -- and leaves the arrays alone.  It reverts only where
    the nested codec reverts on an element. *)
Theorem genFieldEncode_repeated_unpacked (field : FieldInfo)
  (info : SolTypeInfo) (data : Runtime.Memory) (fuel : nat)
  (st : Sol.state M) :
  let solName := snakeToCamel (name field) in
  let nestedCodec := nestedCodecOf (type field) (typeName field) in
  let tag := number field * 8 + wireCode (wireType info) in
  let body :=
    Sol.repeatedEncode solName nestedCodec (encodeFunc info) tag in
  isRepeated field = true ->
  mapEntry field = None ->
  PROTO_TYPE_MAP (type field) = Some info ->
  0 <= number field < 2 ^ 28 ->
  Sol.accepts (memberScope field) body = true ->
  Sol.conforms (memberScope field) st ->
  (List.length (Sol.arrs st ("msg." ++ solName)) + 2 <= fuel)%nat ->
  genFieldEncode field = Js.Ok (Sol.renderEncode body)
  /\ match Sol.recordList (fieldBytes nestedCodec (encodeFunc info) tag)
             (Sol.arrs st ("msg." ++ solName)) with
     | Some records =>
         exists st',
           run (memberScope field) data fuel body st = Sol.Done st'
           /\ Sol.bufs st' "buf"
              = List.app (Sol.bufs st "buf") (concat records)
           /\ Sol.arrs st' = Sol.arrs st
     | None =>
         run (memberScope field) data fuel body st = Sol.Reverted
         /\ type field = 11
     end.
Proof.
  intros solName nestedCodec tag body Hrepeated Hmap Hinfo Hnumber Haccepts
    Hconf Hfuel.
  split.
  - rewrite (genFieldEncode_repeated_text field info Hrepeated Hmap Hinfo).
    rewrite (fieldTag_in_range _ _ Hnumber). reflexivity.
  - pose proof (repeatedEncode_runs M codecEncode codecDecode
                  (memberScope field) solName nestedCodec (encodeFunc info)
                  tag data fuel st Hfuel Haccepts Hconf) as Hrun.
    destruct (Sol.recordList _ _); [exact Hrun |].
    destruct Hrun as [Hrun Hcodec]. split; [exact Hrun |].
    subst nestedCodec. unfold nestedCodecOf in Hcodec.
    destruct (Z.eqb_spec (type field) 11); [assumption | contradiction].
Qed.

Lemma fieldTag_one (w : WireType) : fieldTag 1 w = 8 + wireCode w.
Proof. destruct w; reflexivity. Qed.

Lemma fieldTag_two (w : WireType) : fieldTag 2 w = 16 + wireCode w.
Proof. destruct w; reflexivity. Qed.

Lemma genFieldEncode_map_fragment (field : FieldInfo) (me : MapEntry)
  (info keyInfo valInfo : SolTypeInfo) :
  mapEntry field = Some me ->
  PROTO_TYPE_MAP (type field) = Some info ->
  PROTO_TYPE_MAP (keyType me) = Some keyInfo ->
  PROTO_TYPE_MAP (valueType me) = Some valInfo ->
  0 <= number field < 2 ^ 28 ->
  genFieldEncode field =
    Js.Ok (Sol.renderEncode
      (Sol.mapEncode (snakeToCamel (name field))
         (8 + wireCode (wireType keyInfo)) (encodeFunc keyInfo)
         (nestedCodecOf (valueType me) (valueTypeName me))
         (16 + wireCode (wireType valInfo)) (encodeFunc valInfo)
         (number field * 8 + 2))).
Proof.
  intros Hmap Hinfo Hkey Hval Hnumber.
  rewrite (genFieldEncode_map_text field me info keyInfo valInfo Hmap Hinfo
             Hkey Hval).
  rewrite (fieldTag_in_range _ _ Hnumber), fieldTag_one, fieldTag_two.
  reflexivity.
Qed.

(** X27.  A map field with a number below 2^28, whose emitted loop the
    compiler accepts, run on two member arrays of values of their declared
    types with a value for every key: per index the loop builds an entry
    -- the key as field 1, the value as field 2, a message value behind
    its length -- and appends it to [buf] length-delimited under the key
    [number * 8 + 2]; the arrays stay as they are.  It reverts only where
    the nested codec reverts on a value. *)
Theorem genFieldEncode_map_appends_entries (field : FieldInfo)
  (me : MapEntry) (info keyInfo valInfo : SolTypeInfo)
  (data : Runtime.Memory) (fuel : nat) (st : Sol.state M) :
  let solName := snakeToCamel (name field) in
  let nestedCodec := nestedCodecOf (valueType me) (valueTypeName me) in
  let keyTag := 8 + wireCode (wireType keyInfo) in
  let valTag := 16 + wireCode (wireType valInfo) in
  let tag := number field * 8 + 2 in
  let body :=
    Sol.mapEncode solName keyTag (encodeFunc keyInfo) nestedCodec valTag
      (encodeFunc valInfo) tag in
  let keys := Sol.arrs st ("msg." ++ solName ++ "_keys") in
  let values := Sol.arrs st ("msg." ++ solName ++ "_values") in
  mapEntry field = Some me ->
  PROTO_TYPE_MAP (type field) = Some info ->
  PROTO_TYPE_MAP (keyType me) = Some keyInfo ->
  PROTO_TYPE_MAP (valueType me) = Some valInfo ->
  0 <= number field < 2 ^ 28 ->
  Sol.accepts (memberScope field) body = true ->
  Sol.conforms (memberScope field) st ->
  (List.length keys <= List.length values)%nat ->
  (List.length keys + 2 <= fuel)%nat ->
  genFieldEncode field = Js.Ok (Sol.renderEncode body)
  /\ match Sol.recordList
             (Sol.mapRecord codecEncode tag keyTag (encodeFunc keyInfo)
                nestedCodec valTag (encodeFunc valInfo))
             (combine keys values) with
     | Some records =>
         exists st',
           run (memberScope field) data fuel body st = Sol.Done st'
           /\ Sol.bufs st' "buf"
              = List.app (Sol.bufs st "buf") (concat records)
           /\ Sol.arrs st' = Sol.arrs st
     | None =>
         run (memberScope field) data fuel body st = Sol.Reverted
         /\ valueType me = 11
     end.
Proof.
  intros solName nestedCodec keyTag valTag tag body keys values Hmap Hinfo
    Hkey Hval Hnumber Haccepts Hconf Hvalues Hfuel.
  split.
  - exact (genFieldEncode_map_fragment field me info keyInfo valInfo Hmap
             Hinfo Hkey Hval Hnumber).
  - pose proof (mapEncode_runs M codecEncode codecDecode (memberScope field)
                  solName keyTag (encodeFunc keyInfo) nestedCodec valTag
                  (encodeFunc valInfo) tag data fuel st Hfuel Haccepts Hconf)
      as Hrun.
    fold keys in Hrun. fold values in Hrun.
    replace (List.length keys <=? List.length values)%nat with true in Hrun
      by (symmetry; apply Nat.leb_le; exact Hvalues).
    destruct (Sol.recordList _ _); [exact Hrun |].
    destruct Hrun as [Hrun Hcodec]. split; [exact Hrun |].
    subst nestedCodec. unfold nestedCodecOf in Hcodec.
    destruct (Z.eqb_spec (valueType me) 11); [assumption | contradiction].
Qed.

(** X22.  The same loop on a state with fewer values than keys: it reads a
    value at an index the value array does not have and panics, whatever
    it had appended before; no entry is written without its value. *)
Theorem genFieldEncode_map_reverts_on_missing_value (field : FieldInfo)
  (me : MapEntry) (info keyInfo valInfo : SolTypeInfo)
  (data : Runtime.Memory) (fuel : nat) (st : Sol.state M) :
  let solName := snakeToCamel (name field) in
  let body :=
    Sol.mapEncode solName (8 + wireCode (wireType keyInfo))
      (encodeFunc keyInfo)
      (nestedCodecOf (valueType me) (valueTypeName me))
      (16 + wireCode (wireType valInfo)) (encodeFunc valInfo)
      (number field * 8 + 2) in
  let keys := Sol.arrs st ("msg." ++ solName ++ "_keys") in
  let values := Sol.arrs st ("msg." ++ solName ++ "_values") in
  mapEntry field = Some me ->
  PROTO_TYPE_MAP (type field) = Some info ->
  PROTO_TYPE_MAP (keyType me) = Some keyInfo ->
  PROTO_TYPE_MAP (valueType me) = Some valInfo ->
  0 <= number field < 2 ^ 28 ->
  Sol.accepts (memberScope field) body = true ->
  Sol.conforms (memberScope field) st ->
  (List.length values < List.length keys)%nat ->
  (List.length keys + 2 <= fuel)%nat ->
  genFieldEncode field = Js.Ok (Sol.renderEncode body)
  /\ run (memberScope field) data fuel body st = Sol.Reverted.
Proof.
  intros solName body keys values Hmap Hinfo Hkey Hval Hnumber Haccepts
    Hconf Hvalues Hfuel.
  split.
  - exact (genFieldEncode_map_fragment field me info keyInfo valInfo Hmap
             Hinfo Hkey Hval Hnumber).
  - pose proof (mapEncode_runs M codecEncode codecDecode (memberScope field)
                  solName _ (encodeFunc keyInfo) _ _ (encodeFunc valInfo) _
                  data fuel st Hfuel Haccepts Hconf) as Hrun.
    fold keys in Hrun. fold values in Hrun.
    replace (List.length keys <=? List.length values)%nat with false in Hrun
      by (symmetry; apply Nat.leb_gt; exact Hvalues).
    exact Hrun.
Qed.

(** X20.  A field that is neither repeated nor a map, with a number below
    2^28, whose emitted case the compiler accepts, entered behind its key:
    the case assigns the member what the runtime's decoder returns at the
    position -- for a message, what the nested codec returns on the slice
    that the length prefix delimits -- and moves the position behind what
    was read, leaving every other member as it was; it reverts where that
    read reverts. *)
Theorem genFieldDecode_singular_assigns (field : FieldInfo)
  (info : SolTypeInfo) (data : Runtime.Memory) (fuel : nat)
  (st : Sol.state M) :
  let solName := snakeToCamel (name field) in
  let nestedCodec := nestedCodecOf (type field) (typeName field) in
  let tag := number field * 8 + wireCode (wireType info) in
  let c := Sol.singularDecode solName nestedCodec (decodeFunc info) tag in
  isRepeated field = false ->
  mapEntry field = None ->
  PROTO_TYPE_MAP (type field) = Some info ->
  0 <= number field < 2 ^ 28 ->
  Sol.acceptsCase (memberScope field) c = true ->
  (0 < fuel)%nat ->
  genFieldDecode field = Js.Ok (Sol.renderCase c)
  /\ match readElement nestedCodec (decodeFunc info) data (Sol.pos st) with
     | Some (v, q) =>
         exists st',
           runCase (memberScope field) data fuel c st = Sol.Done st'
           /\ Sol.pos st' = q
           /\ Sol.vals st' = Sol.update (Sol.vals st) ("msg." ++ solName) v
           /\ Sol.arrs st' = Sol.arrs st
     | None => runCase (memberScope field) data fuel c st = Sol.Reverted
     end.
Proof.
  intros solName nestedCodec tag c Hsingular Hmap Hinfo Hnumber Haccepts
    Hfuel.
  split.
  - rewrite (genFieldDecode_singular_text field info Hsingular Hmap Hinfo).
    rewrite (fieldTag_in_range _ _ Hnumber). reflexivity.
  - exact (singularDecode_runs M codecEncode codecDecode (memberScope field)
             solName nestedCodec (decodeFunc info) tag data fuel st Hfuel
             Haccepts).
Qed.


Lemma genFieldDecode_map_fragment (field : FieldInfo) (me : MapEntry)
  (info keyInfo valInfo : SolTypeInfo) :
  mapEntry field = Some me ->
  PROTO_TYPE_MAP (type field) = Some info ->
  PROTO_TYPE_MAP (keyType me) = Some keyInfo ->
  PROTO_TYPE_MAP (valueType me) = Some valInfo ->
  0 <= number field < 2 ^ 28 ->
  genFieldDecode field =
    Js.Ok (Sol.renderCase
      (Sol.mapDecode (snakeToCamel (name field)) (solType keyInfo)
         (resolvedType (valueType me) (valueTypeName me) valInfo)
         (8 + wireCode (wireType keyInfo)) (decodeFunc keyInfo)
         (nestedCodecOf (valueType me) (valueTypeName me))
         (16 + wireCode (wireType valInfo)) (decodeFunc valInfo)
         (number field * 8 + 2))).
Proof.
  intros Hmap Hinfo Hkey Hval Hnumber.
  rewrite (genFieldDecode_map_text field me info keyInfo valInfo Hmap Hinfo
             Hkey Hval).
  rewrite (fieldTag_in_range _ _ Hnumber), fieldTag_one, fieldTag_two.
  reflexivity.
Qed.


(** X21.  A field that is neither repeated nor a map, with a number below
    2^28, whose emitted encode fragment and decode case the compiler both
    accepts.  Run on a member that holds a value of its type, the
    fragment appends one record to [buf]; and in any data that continues
    the resulting buffer, the case -- entered where that record starts,
    its key read and matched first -- assigns the member the same value
    and ends exactly behind the record.  For a message this takes a
    nested codec that decodes what it encoded; where that codec reverts
    on the value, so does the fragment. *)
Theorem genField_singular_roundtrip (field : FieldInfo)
  (info : SolTypeInfo) (data : Runtime.Memory) (fuel : nat)
  (st : Sol.state M) :
  let solName := snakeToCamel (name field) in
  let nestedCodec := nestedCodecOf (type field) (typeName field) in
  let tag := number field * 8 + wireCode (wireType info) in
  let body := Sol.singularEncode solName nestedCodec (encodeFunc info) tag in
  let c := Sol.singularDecode solName nestedCodec (decodeFunc info) tag in
  isRepeated field = false ->
  mapEntry field = None ->
  PROTO_TYPE_MAP (type field) = Some info ->
  0 <= number field < 2 ^ 28 ->
  Sol.accepts (memberScope field) body = true ->
  Sol.acceptsCase (memberScope field) c = true ->
  Sol.conforms (memberScope field) st ->
  delegated nestedCodec (Sol.vals st ("msg." ++ solName)) ->
  (0 < fuel)%nat ->
  genFieldEncode field = Js.Ok (Sol.renderEncode body)
  /\ genFieldDecode field = Js.Ok (Sol.renderCase c)
  /\ match fieldBytes nestedCodec (encodeFunc info) tag
             (Sol.vals st ("msg." ++ solName)) with
     | None => run (memberScope field) data fuel body st = Sol.Reverted
     | Some record =>
         exists st',
           run (memberScope field) data fuel body st = Sol.Done st'
           /\ Sol.bufs st' "buf" = List.app (Sol.bufs st "buf") record
           /\ forall (rest : list Z) (st0 : Sol.state M),
                exists st'',
                  enterAt (memberScope field)
                    (Runtime.ofList (List.app (Sol.bufs st' "buf") rest))
                    fuel c [List.length (Sol.bufs st "buf")] st0
                  = Sol.Done st''
                  /\ Sol.vals st'' =
                       Sol.update (Sol.vals st0) ("msg." ++ solName)
                         (Sol.vals st ("msg." ++ solName))
                  /\ Sol.pos st'' = List.length (Sol.bufs st' "buf")
                  /\ Sol.arrs st'' = Sol.arrs st0
     end.
Proof.
  intros solName nestedCodec tag body c Hsingular Hmap Hinfo Hnumber
    Haccepts HacceptsCase Hconf Hdel Hfuel.
  split; [| split].
  - rewrite (genFieldEncode_singular_text field info Hsingular Hmap Hinfo).
    rewrite (fieldTag_in_range _ _ Hnumber). reflexivity.
  - rewrite (genFieldDecode_singular_text field info Hsingular Hmap Hinfo).
    rewrite (fieldTag_in_range _ _ Hnumber). reflexivity.
  - pose proof (singularEncode_runs M codecEncode codecDecode
                  (memberScope field) solName nestedCodec (encodeFunc info)
                  tag data fuel st Hfuel Haccepts Hconf) as Hrun.
    destruct (fieldBytes nestedCodec (encodeFunc info) tag
                (Sol.vals st ("msg." ++ solName)))
      as [record |] eqn:Hrecord; [| exact (proj1 Hrun)].
    destruct Hrun as (st' & Hrun & Hbuf & _).
    exists st'. split; [exact Hrun |]. split; [exact Hbuf |].
    intros rest st0. rewrite Hbuf.
    destruct (holds_behind (Sol.bufs st "buf") record rest)
      as [Hholds Hlen].
    destruct (singular_reads_back M codecEncode codecDecode
                (memberScope field) solName nestedCodec (encodeFunc info)
                (decodeFunc info) tag _ fuel st0 _ record _ HacceptsCase
                Hfuel
                (table_pairs_scalar _ _ info Hinfo) Hdel Hrecord Hholds
                Hlen) as (st'' & Henter & Hpos & Hvals & Harrs).
    exists st''. split; [exact Henter |]. split; [exact Hvals |].
    split; [| exact Harrs]. rewrite Hpos, length_app. reflexivity.
Qed.



End Fields.

(** At [Customer owner_info = 2] holding the message [8, 1], with a
    nested codec that copies. *)
Lemma genFieldEncode_singular_appends_record_witness :
  genFieldEncode ownerField
  = Js.Ok "    buf = abi.encodePacked(buf, ProtobufRuntime._encode_key(0x12));
    bytes memory ownerInfo_encoded = CustomerCodec.encode(msg.ownerInfo);
    buf = abi.encodePacked(buf, ProtobufRuntime._encode_varint(uint64(ownerInfo_encoded.length)));
    buf = abi.encodePacked(buf, ownerInfo_encoded);"
  /\ exists st',
       Sol.run copyEncode copyDecode (memberScope ownerField)
         (Runtime.ofList []) 1
         (Sol.singularEncode "ownerInfo" (Some "CustomerCodec") "" 18)
         (Sol.setVal "msg.ownerInfo" (Sol.Message [8; 1]) emptyState)
       = Sol.Done st'
       /\ Sol.bufs st' "buf" = [18; 2; 8; 1]
       /\ Sol.vals st'
          = Sol.vals (Sol.setVal "msg.ownerInfo" (Sol.Message [8; 1])
                        emptyState)
       /\ Sol.arrs st' = Sol.arrs emptyState
       /\ Sol.pos st' = 0%nat.
Proof.
  assert (Hnumber : 0 <= number ownerField < 2 ^ 28)
    by (split; [discriminate | reflexivity]).
  exact (genFieldEncode_singular_appends_record (list Z) copyEncode
           copyDecode ownerField messageInfo (Runtime.ofList []) 1
           (Sol.setVal "msg.ownerInfo" (Sol.Message [8; 1]) emptyState)
           eq_refl eq_refl eq_refl Hnumber eq_refl
           (conforms_var "msg.ownerInfo" (Sol.TStruct "Customer")
              (Sol.setVal "msg.ownerInfo" (Sol.Message [8; 1]) emptyState)
              eq_refl)
           Nat.lt_0_1).
Defined.

(** At [repeated sint32 points = 4] holding 1 and -2. *)
Lemma genFieldEncode_repeated_unpacked_witness :
  genFieldEncode pointsField
  = Js.Ok "    for (uint256 _i_points = 0; _i_points < msg.points.length; _i_points++) {
      buf = abi.encodePacked(buf, ProtobufRuntime._encode_key(0x20));
      buf = abi.encodePacked(buf, ProtobufRuntime._encode_zigzag32(msg.points[_i_points]));
    }"
  /\ exists st',
       Sol.run copyEncode copyDecode (memberScope pointsField)
         (Runtime.ofList []) 4
         (Sol.repeatedEncode "points" None "_encode_zigzag32" 32)
         (Sol.setArr "msg.points" [Sol.Num 1; Sol.Num (-2)] emptyState)
       = Sol.Done st'
       /\ Sol.bufs st' "buf" = [32; 2; 32; 3]
       /\ Sol.arrs st'
          = Sol.arrs (Sol.setArr "msg.points" [Sol.Num 1; Sol.Num (-2)]
                        emptyState).
Proof.
  assert (Hnumber : 0 <= number pointsField < 2 ^ 28)
    by (split; [discriminate | reflexivity]).
  exact (genFieldEncode_repeated_unpacked (list Z) copyEncode copyDecode
           pointsField (mkInfo "int32" Varint "_encode_zigzag32"
                          "_decode_zigzag32" "0")
           (Runtime.ofList []) 4
           (Sol.setArr "msg.points" [Sol.Num 1; Sol.Num (-2)] emptyState)
           eq_refl eq_refl eq_refl Hnumber eq_refl
           (conforms_arr "msg.points" (Sol.TInt 32)
              (Sol.setArr "msg.points" [Sol.Num 1; Sol.Num (-2)] emptyState)
              (all_in_type (Sol.TInt 32) [Sol.Num 1; Sol.Num (-2)] eq_refl))
           (le_n 4)).
Defined.

(** At [map<uint64, sint32> stock = 5] holding 7 -> -1 and 300 -> 2. *)
Lemma genFieldEncode_map_appends_entries_witness :
  genFieldEncode stockField
  = Js.Ok ("    for (uint256 _i_stock = 0; _i_stock < msg.stock_keys.length; _i_stock++) {
      bytes memory _entry = " ++ dq ++ dq ++ ";
      _entry = abi.encodePacked(_entry, ProtobufRuntime._encode_key(8));
      _entry = abi.encodePacked(_entry, ProtobufRuntime._encode_varint(msg.stock_keys[_i_stock]));
      _entry = abi.encodePacked(_entry, ProtobufRuntime._encode_key(16));
      _entry = abi.encodePacked(_entry, ProtobufRuntime._encode_zigzag32(msg.stock_values[_i_stock]));
      buf = abi.encodePacked(buf, ProtobufRuntime._encode_key(0x2a));
      buf = abi.encodePacked(buf, ProtobufRuntime._encode_varint(uint64(_entry.length)));
      buf = abi.encodePacked(buf, _entry);
    }")
  /\ exists st',
       Sol.run copyEncode copyDecode (memberScope stockField)
         (Runtime.ofList []) 4
         (Sol.mapEncode "stock" 8 "_encode_varint" None 16
            "_encode_zigzag32" 42)
         (Sol.setArr "msg.stock_keys" [Sol.Num 7; Sol.Num 300]
            (Sol.setArr "msg.stock_values" [Sol.Num (-1); Sol.Num 2]
               emptyState))
       = Sol.Done st'
       /\ Sol.bufs st' "buf"
          = [42; 4; 8; 7; 16; 1; 42; 5; 8; 172; 2; 16; 4]
       /\ Sol.arrs st'
          = Sol.arrs
              (Sol.setArr "msg.stock_keys" [Sol.Num 7; Sol.Num 300]
                 (Sol.setArr "msg.stock_values" [Sol.Num (-1); Sol.Num 2]
                    emptyState)).
Proof.
  assert (Hnumber : 0 <= number stockField < 2 ^ 28)
    by (split; [discriminate | reflexivity]).
  exact (genFieldEncode_map_appends_entries (list Z) copyEncode copyDecode
           stockField (mkMapEntry 4 17 None) messageInfo
           (mkInfo "uint64" Varint "_encode_varint" "_decode_varint" "0")
           (mkInfo "int32" Varint "_encode_zigzag32" "_decode_zigzag32" "0")
           (Runtime.ofList []) 4
           (Sol.setArr "msg.stock_keys" [Sol.Num 7; Sol.Num 300]
              (Sol.setArr "msg.stock_values" [Sol.Num (-1); Sol.Num 2]
                 emptyState))
           eq_refl eq_refl eq_refl eq_refl Hnumber eq_refl
           (conforms_arrs "msg.stock_keys" "msg.stock_values"
              (Sol.TUint 64) (Sol.TInt 32)
              (Sol.setArr "msg.stock_keys" [Sol.Num 7; Sol.Num 300]
                 (Sol.setArr "msg.stock_values" [Sol.Num (-1); Sol.Num 2]
                    emptyState))
              eq_refl
              (all_in_type (Sol.TUint 64) [Sol.Num 7; Sol.Num 300] eq_refl)
              (all_in_type (Sol.TInt 32) [Sol.Num (-1); Sol.Num 2] eq_refl))
           (le_n 2) (le_n 4)).
Defined.

(** At the same map holding the keys 7 and 300 and one value. *)
Lemma genFieldEncode_map_reverts_on_missing_value_witness :
  genFieldEncode stockField
  = Js.Ok (Sol.renderEncode
             (Sol.mapEncode "stock" 8 "_encode_varint" None 16
                "_encode_zigzag32" 42))
  /\ Sol.run copyEncode copyDecode (memberScope stockField)
       (Runtime.ofList []) 4
       (Sol.mapEncode "stock" 8 "_encode_varint" None 16 "_encode_zigzag32"
          42)
       (Sol.setArr "msg.stock_keys" [Sol.Num 7; Sol.Num 300]
          (Sol.setArr "msg.stock_values" [Sol.Num (-1)] emptyState))
     = Sol.Reverted.
Proof.
  assert (Hnumber : 0 <= number stockField < 2 ^ 28)
    by (split; [discriminate | reflexivity]).
  exact (genFieldEncode_map_reverts_on_missing_value (list Z) copyEncode
           copyDecode stockField (mkMapEntry 4 17 None) messageInfo
           (mkInfo "uint64" Varint "_encode_varint" "_decode_varint" "0")
           (mkInfo "int32" Varint "_encode_zigzag32" "_decode_zigzag32" "0")
           (Runtime.ofList []) 4
           (Sol.setArr "msg.stock_keys" [Sol.Num 7; Sol.Num 300]
              (Sol.setArr "msg.stock_values" [Sol.Num (-1)] emptyState))
           eq_refl eq_refl eq_refl eq_refl Hnumber eq_refl
           (conforms_arrs "msg.stock_keys" "msg.stock_values"
              (Sol.TUint 64) (Sol.TInt 32)
              (Sol.setArr "msg.stock_keys" [Sol.Num 7; Sol.Num 300]
                 (Sol.setArr "msg.stock_values" [Sol.Num (-1)] emptyState))
              eq_refl
              (all_in_type (Sol.TUint 64) [Sol.Num 7; Sol.Num 300] eq_refl)
              (all_in_type (Sol.TInt 32) [Sol.Num (-1)] eq_refl))
           (le_n 2) (le_n 4)).
Defined.

(** At [uint64 total = 3], behind the key of a record that holds 300. *)
Lemma genFieldDecode_singular_assigns_witness :
  genFieldDecode totalField
  = Js.Ok "        case 24:
          (msg.total, pos) = ProtobufRuntime._decode_varint(data, pos);
          break;"
  /\ exists st',
       Sol.runCase copyEncode copyDecode (memberScope totalField)
         (Runtime.ofList [24; 172; 2; 9]) 1
         (Sol.singularDecode "total" None "_decode_varint" 24)
         (Sol.setPos 1 emptyState)
       = Sol.Done st'
       /\ Sol.pos st' = 3%nat
       /\ Sol.vals st'
          = Sol.update (Sol.vals emptyState) "msg.total" (Sol.Num 300)
       /\ Sol.arrs st' = Sol.arrs emptyState.
Proof.
  assert (Hnumber : 0 <= number totalField < 2 ^ 28)
    by (split; [discriminate | reflexivity]).
  exact (genFieldDecode_singular_assigns (list Z) copyEncode copyDecode
           totalField
           (mkInfo "uint64" Varint "_encode_varint" "_decode_varint" "0")
           (Runtime.ofList [24; 172; 2; 9]) 1 (Sol.setPos 1 emptyState)
           eq_refl eq_refl eq_refl Hnumber eq_refl Nat.lt_0_1).
Defined.



(** At [uint64 total = 3] holding 300. *)
Lemma genField_singular_roundtrip_witness :
  genFieldEncode totalField
  = Js.Ok "    buf = abi.encodePacked(buf, ProtobufRuntime._encode_key(0x18));
    buf = abi.encodePacked(buf, ProtobufRuntime._encode_varint(msg.total));"
  /\ genFieldDecode totalField
     = Js.Ok (Sol.renderCase
                (Sol.singularDecode "total" None "_decode_varint" 24))
  /\ exists st',
       Sol.run copyEncode copyDecode (memberScope totalField)
         (Runtime.ofList []) 1
         (Sol.singularEncode "total" None "_encode_varint" 24)
         (Sol.setVal "msg.total" (Sol.Num 300) emptyState)
       = Sol.Done st'
       /\ Sol.bufs st' "buf" = [24; 172; 2]
       /\ forall (rest : list Z) (st0 : Sol.state (list Z)),
            exists st'',
              Sol.enterAt copyEncode copyDecode (memberScope totalField)
                (Runtime.ofList (List.app (Sol.bufs st' "buf") rest)) 1
                (Sol.singularDecode "total" None "_decode_varint" 24)
                [0%nat] st0
              = Sol.Done st''
              /\ Sol.vals st''
                 = Sol.update (Sol.vals st0) "msg.total" (Sol.Num 300)
              /\ Sol.pos st'' = List.length (Sol.bufs st' "buf")
              /\ Sol.arrs st'' = Sol.arrs st0.
Proof.
  assert (Hnumber : 0 <= number totalField < 2 ^ 28)
    by (split; [discriminate | reflexivity]).
  exact (genField_singular_roundtrip (list Z) copyEncode copyDecode
           totalField
           (mkInfo "uint64" Varint "_encode_varint" "_decode_varint" "0")
           (Runtime.ofList []) 1
           (Sol.setVal "msg.total" (Sol.Num 300) emptyState)
           eq_refl eq_refl eq_refl Hnumber eq_refl eq_refl
           (conforms_var "msg.total" (Sol.TUint 64)
              (Sol.setVal "msg.total" (Sol.Num 300) emptyState) eq_refl)
           I Nat.lt_0_1).
Defined.




(** ** The members a struct declares *)

(** X25.  What [genStructMember] declares for a field the table has.  A
    field that is no map gets one member named after the field, of the
    resolved type, an array of it when the field is repeated.  A map field
    gets two array members, [<name>_keys] and [<name>_values], and the
    entry message's type appears in neither; their element types are the
    types of the locals [_key] and [_val] that the field's decode case
    pushes onto them. *)
Theorem genStructMember_declares_members
  (field : FieldInfo) (info : SolTypeInfo) :
  PROTO_TYPE_MAP (type field) = Some info ->
  match mapEntry field with
  | None =>
      genStructMember field =
        Js.Ok ("    "
               ++ (if isRepeated field
                   then resolvedType (type field) (typeName field) info ++ "[]"
                   else resolvedType (type field) (typeName field) info)
               ++ " " ++ snakeToCamel (name field) ++ ";")
  | Some me =>
      forall keyInfo valInfo,
        PROTO_TYPE_MAP (keyType me) = Some keyInfo ->
        PROTO_TYPE_MAP (valueType me) = Some valInfo ->
        genStructMember field =
          Js.Ok (Js.join nl
            [ "    " ++ solType keyInfo ++ "[] "
                ++ snakeToCamel (name field) ++ "_keys;";
              "    " ++ resolvedType (valueType me) (valueTypeName me) valInfo
                ++ "[] " ++ snakeToCamel (name field) ++ "_values;" ])
        /\ genFieldDecode field =
             Js.Ok (Sol.renderCase
               (Sol.mapDecode (snakeToCamel (name field)) (solType keyInfo)
                  (resolvedType (valueType me) (valueTypeName me) valInfo)
                  (fieldTag 1 (wireType keyInfo)) (decodeFunc keyInfo)
                  (nestedCodecOf (valueType me) (valueTypeName me))
                  (fieldTag 2 (wireType valInfo)) (decodeFunc valInfo)
                  (fieldTag (number field) LengthDelimited)))
  end.
Proof.
  intros Hinfo.
  destruct (mapEntry field) as [me |] eqn:Hme.
  - intros keyInfo valInfo Hk Hv.
    split; [| exact (genFieldDecode_map_text field me info keyInfo valInfo
                       Hme Hinfo Hk Hv)].
    unfold genStructMember. cbv zeta.
    rewrite (resolveSolType_resolvedType _ (typeName field) info Hinfo), Hme.
    cbn [Js.bind].
    rewrite (resolveSolType_unnamed _ keyInfo Hk).
    rewrite (resolveSolType_resolvedType _ (valueTypeName me) valInfo Hv).
    reflexivity.
  - unfold genStructMember. cbv zeta.
    rewrite (resolveSolType_resolvedType _ (typeName field) info Hinfo), Hme.
    reflexivity.
Qed.

Lemma genStructMember_declares_members_witness :
  PROTO_TYPE_MAP (type itemsField) = Some messageInfo
  /\ genStructMember itemsField =
       Js.Ok ("    int32[] items_keys;" ++ nl ++ "    uint32[] items_values;").
Proof.
  split; [reflexivity |].
  exact (proj1 (genStructMember_declares_members itemsField messageInfo
                  eq_refl int32Info uint32Info eq_refl eq_refl)).
Defined.

(** ** A request with a file it does not ask for *)

(** At the request for [shop/cart.proto] that also carries
    [other.proto]. *)
Lemma processRequest_reads_requested_files_only_witness :
  processRequest (fun _ => Js.Ok cartRequest) "runtime" emitName [] =
    processRequest (fun _ => Js.Ok cartRequest) "runtime" emitNameButOther []
  /\ emitName [] "other.proto" <> emitNameButOther [] "other.proto".
Proof.
  split; [| discriminate].
  refine (proj1 (processRequest_reads_requested_files_only
                   (fun _ => Js.Ok cartRequest) "runtime"
                   emitName emitNameButOther [] _)).
  intros request Hrequest. injection Hrequest as <-.
  repeat constructor.
Defined.
